(** * Email extraction, cleaning and CSV export pipeline

    A shallow embedding of [src/email-processor.js] and of the revised copy
    of the same pipeline that follows the server code in
    [src/gmail-auth.js], with the properties the specification states about
    them.

    JavaScript strings are sequences of UTF-16 code units; they are modelled
    as lists of [N].  Every statement quantified over [jsstring] therefore
    covers every JavaScript string. *)

From Stdlib Require Import String Ascii.
From Stdlib Require DecimalString.
From Stdlib Require Import List NArith ZArith Lia Bool Arith.
From Stdlib Require Import Sorting.Sorted Sorting.Permutation.
Import ListNotations.

Set Implicit Arguments.

(* ================================================================== *)
(** * JavaScript strings *)
(* ================================================================== *)

Definition jschar := N.
Bind Scope N_scope with jschar.
Definition jsstring := list jschar.

(** A string literal of the source, as code units (the literals of the
    source are all ASCII). *)
Definition js (s : string) : jsstring :=
  map N_of_ascii (list_ascii_of_string s).
Arguments js s%_string.

Definition LF : jschar := 10%N.
Definition CR : jschar := 13%N.
Definition TAB : jschar := 9%N.
Definition SPACE : jschar := 32%N.
Definition DQUOTE : jschar := 34%N.
Definition COMMA : jschar := 44%N.

Definition in_range (lo hi c : N) : bool := (lo <=? c)%N && (c <=? hi)%N.

(** ECMAScript [WhiteSpace] and [LineTerminator] code units: the set
    stripped by [String.prototype.trim] and matched by the regex class
    [\s]. *)
Definition is_space (c : jschar) : bool :=
  in_range 9 13 c || (c =? 32)%N || (c =? 160)%N || (c =? 5760)%N
  || in_range 8192 8202 c || (c =? 8232)%N || (c =? 8233)%N
  || (c =? 8239)%N || (c =? 8287)%N || (c =? 12288)%N || (c =? 65279)%N.

Definition is_digit (c : jschar) : bool := in_range 48 57 c.
Definition is_upper (c : jschar) : bool := in_range 65 90 c.
Definition is_lower (c : jschar) : bool := in_range 97 122 c.
Definition is_alpha (c : jschar) : bool := is_upper c || is_lower c.
(** The regex class [\w]. *)
Definition is_word (c : jschar) : bool :=
  is_alpha c || is_digit c || (c =? 95)%N.

Fixpoint dropWhile (p : jschar -> bool) (s : jsstring) : jsstring :=
  match s with
  | [] => []
  | c :: s' => if p c then dropWhile p s' else s
  end.

Definition trimStart (s : jsstring) : jsstring := dropWhile is_space s.
Definition trimEnd (s : jsstring) : jsstring := rev (dropWhile is_space (rev s)).
(** [String.prototype.trim]. *)
Definition trim (s : jsstring) : jsstring := trimEnd (trimStart s).

Fixpoint str_eqb (a b : jsstring) : bool :=
  match a, b with
  | [], [] => true
  | x :: a', y :: b' => (x =? y)%N && str_eqb a' b'
  | _, _ => false
  end.

(** [String.prototype.startsWith]. *)
Fixpoint startsWith (s pre : jsstring) : bool :=
  match pre, s with
  | [], _ => true
  | p :: pre', c :: s' => (c =? p)%N && startsWith s' pre'
  | _ :: _, [] => false
  end.

(** [String.prototype.includes]. *)
Fixpoint includes (s sub : jsstring) : bool :=
  startsWith s sub ||
  match s with
  | [] => false
  | _ :: s' => includes s' sub
  end.

(** [s.split(sep)] for a one-unit separator: never the empty array. *)
Fixpoint split (sep : jschar) (s : jsstring) : list jsstring :=
  match s with
  | [] => [[]]
  | c :: s' =>
      if (c =? sep)%N then [] :: split sep s'
      else match split sep s' with
           | [] => [[c]]
           | l :: ls => (c :: l) :: ls
           end
  end.

(** [Array.prototype.join]. *)
Fixpoint join (sep : jsstring) (ls : list jsstring) : jsstring :=
  match ls with
  | [] => []
  | [l] => l
  | l :: ls' => l ++ sep ++ join sep ls'
  end.

(** [s.substring(a, b)] for [a <= b]. *)
Definition substring (a b : nat) (s : jsstring) : jsstring :=
  firstn (b - a) (skipn a s).

(** [String.prototype.toLowerCase] on ASCII text; the built-in also maps
    the letters outside ASCII, with the Unicode case tables, and is a
    parameter of the functions that call it. *)
Definition lower_char (c : jschar) : jschar :=
  if is_upper c then (c + 32)%N else c.
Definition ascii_toLowerCase (s : jsstring) : jsstring := map lower_char s.

(* ================================================================== *)
(** * Regular expressions

    The backtracking semantics of ECMAScript regular expressions, for the
    constructs the source uses.  A matcher takes the code unit before the
    current position (for [^] and [\b]), the rest of the input and a
    continuation; alternatives are tried in priority order. *)
(* ================================================================== *)

Inductive regex : Type :=
| Eps
| Cls (p : jschar -> bool)
| Seq (a b : regex)
| Alt (a b : regex)
| Star (greedy : bool) (a : regex)
| Bol
| Eol
| WordB.

Definition word_before (prev : option jschar) : bool :=
  match prev with Some c => is_word c | None => false end.
Definition word_after (s : jsstring) : bool :=
  match s with c :: _ => is_word c | [] => false end.

Section Matcher.
Variable R : Type.

Definition cont := option jschar -> jsstring -> option R.
Definition matcher := option jschar -> jsstring -> cont -> option R.

(** The iterations of a quantifier: a greedy one tries another
    iteration before leaving, a lazy one leaves first.  An iteration
    that consumes nothing is rejected, so [length s] iterations are
    enough. *)
Fixpoint star_loop (m : matcher) (greedy : bool) (k : cont) (fuel : nat)
         (prev : option jschar) (s : jsstring) {struct fuel} : option R :=
  match fuel with
  | O => k prev s
  | S fuel' =>
      let again := fun prev' s' =>
        if length s' <? length s
        then star_loop m greedy k fuel' prev' s' else None in
      if greedy then
        match m prev s again with
        | Some x => Some x
        | None => k prev s
        end
      else
        match k prev s with
        | Some x => Some x
        | None => m prev s again
        end
  end.

Fixpoint rmatch (r : regex) (prev : option jschar) (s : jsstring)
         (k : cont) {struct r} : option R :=
  match r with
  | Eps => k prev s
  | Cls p =>
      match s with
      | c :: s' => if p c then k (Some c) s' else None
      | [] => None
      end
  | Seq a b => rmatch a prev s (fun prev' s' => rmatch b prev' s' k)
  | Alt a b =>
      match rmatch a prev s k with
      | Some x => Some x
      | None => rmatch b prev s k
      end
  | Star greedy a => star_loop (rmatch a) greedy k (length s) prev s
  | Bol => match prev with None => k prev s | Some _ => None end
  | Eol => match s with [] => k prev s | _ :: _ => None end
  | WordB => if xorb (word_before prev) (word_after s) then k prev s else None
  end.
End Matcher.

(** A match at the current position: the unit before the end of the match
    and the input left after it. *)
Definition match_here (r : regex) (prev : option jschar) (s : jsstring)
  : option (option jschar * jsstring) :=
  rmatch r prev s (fun prev' s' => Some (prev', s')).

(** Leftmost match at or after the current position: the skipped prefix
    and the match. *)
Fixpoint rsearch (r : regex) (prev : option jschar) (s : jsstring)
  : option (jsstring * (option jschar * jsstring)) :=
  match match_here r prev s with
  | Some m => Some ([], m)
  | None =>
      match s with
      | [] => None
      | c :: s' =>
          match rsearch r (Some c) s' with
          | Some (pre, m) => Some (c :: pre, m)
          | None => None
          end
      end
  end.

(** [re.test(s)]. *)
Definition rtest (r : regex) (s : jsstring) : bool :=
  match rsearch r None s with Some _ => true | None => false end.

(** [s.replace(re, repl)] for a global [re] and a replacement without
    [$] patterns.  After an empty match the scan advances by one unit. *)
Fixpoint replace_from (fuel : nat) (r : regex) (repl : jsstring)
         (prev : option jschar) (s : jsstring) : jsstring :=
  match fuel with
  | O => s
  | S fuel' =>
      match rsearch r prev s with
      | None => s
      | Some (pre, (prev', rest)) =>
          if length rest + length pre <? length s
          then pre ++ repl ++ replace_from fuel' r repl prev' rest
          else match rest with
               | [] => pre ++ repl
               | c :: rest' =>
                   pre ++ repl ++ c :: replace_from fuel' r repl (Some c) rest'
               end
      end
  end.

Definition replaceAll (r : regex) (repl : jsstring) (s : jsstring) : jsstring :=
  replace_from (S (length s)) r repl None s.

(** Regex building blocks. *)
Definition chr (c : jschar) : regex := Cls (fun x => (x =? c)%N).
(** A letter under the [i] flag (without the [u] flag only the two ASCII
    cases of a letter are equivalent to it). *)
Definition chr_ci (c : jschar) : regex :=
  Cls (fun x => (lower_char x =? lower_char c)%N).
Definition any_char : regex := Cls (fun _ => true).
Definition not_space : regex := Cls (fun c => negb (is_space c)).
Definition space_cls : regex := Cls is_space.
Definition Plus (g : bool) (a : regex) : regex := Seq a (Star g a).
Definition Opt (a : regex) : regex := Alt a Eps.
Fixpoint lit (s : jsstring) : regex :=
  match s with
  | [] => Eps
  | c :: s' => Seq (chr c) (lit s')
  end.
Fixpoint lit_ci (s : jsstring) : regex :=
  match s with
  | [] => Eps
  | c :: s' => Seq (chr_ci c) (lit_ci s')
  end.
(** [a{n}] and [a{n,}]. *)
Fixpoint Rep (n : nat) (a : regex) : regex :=
  match n with
  | O => Eps
  | S n' => Seq a (Rep n' a)
  end.
Definition RepMin (n : nat) (a : regex) : regex := Seq (Rep n a) (Star true a).
(** [a{0,n}], greedy. *)
Fixpoint RepMax (n : nat) (a : regex) : regex :=
  match n with
  | O => Eps
  | S n' => Opt (Seq a (RepMax n' a))
  end.
Fixpoint alts (rs : list regex) : regex :=
  match rs with
  | [] => Cls (fun _ => false)
  | [r] => r
  | r :: rs' => Alt r (alts rs')
  end.

(* ================================================================== *)
(** * Text cleaning shared by both files *)
(* ================================================================== *)

(** [removeScriptAndStyle]:
    [html.replace(/<(script|style|noscript)[^>]*>[\s\S]*?<\/\1>/gi, ' ')].
    The back-reference repeats the tag name matched by the group (up to
    case, under the [i] flag), so the pattern is the ordered alternation
    of its three instances. *)
Definition re_block (tag : jsstring) : regex :=
  Seq (chr 60) (Seq (lit_ci tag)
    (Seq (Star true (Cls (fun c => negb (c =? 62)%N)))
      (Seq (chr 62) (Seq (Star false any_char)
        (Seq (lit (js "</")) (Seq (lit_ci tag) (chr 62))))))).
Definition re_script_style : regex :=
  alts [re_block (js "script"); re_block (js "style"); re_block (js "noscript")].
Definition removeScriptAndStyle (html : jsstring) : jsstring :=
  replaceAll re_script_style [SPACE] html.

(** [normalizeWhitespace]:
    [text.replace(/[ \t]+/g, ' ').replace(/\n+/g, '\n').trim()]. *)
Definition is_blank (c : jschar) : bool := (c =? SPACE)%N || (c =? TAB)%N.
Definition is_lf (c : jschar) : bool := (c =? LF)%N.
Definition re_blank_run : regex := Plus true (Cls is_blank).
Definition re_newline_run : regex := Plus true (Cls is_lf).
Definition normalizeWhitespace (text : jsstring) : jsstring :=
  trim (replaceAll re_newline_run [LF] (replaceAll re_blank_run [SPACE] text)).

(** [decodeHTMLEntities].  The first pattern is U+00C2 followed by U+00A0,
    under the [i] flag (U+00E2 is the other case of U+00C2); the four
    others replace a character by itself in the source as it stands. *)
Definition re_mojibake_nbsp : regex :=
  Seq (Cls (fun c => (c =? 194)%N || (c =? 226)%N)) (chr 160).
Definition decodeHTMLEntities (text : jsstring) : jsstring :=
  replaceAll (chr 62) [62%N]
    (replaceAll (chr 60) [60%N]
      (replaceAll (chr 34) [34%N]
        (replaceAll (chr 38) [38%N]
          (replaceAll re_mojibake_nbsp [SPACE] text)))).

(** The three contact-information patterns:
    [/\b[A-Za-z0-9._%+-]+@[A-Za-z0-9.-]+\.[A-Z]{2,}\b/i],
    [/\b\d{3}-\d{3}-\d{4}\b/] and [/https?:\/\/[^\s]+/]. *)
Definition is_local_part (c : jschar) : bool :=
  is_alpha c || is_digit c || (c =? 46)%N || (c =? 95)%N || (c =? 37)%N
  || (c =? 43)%N || (c =? 45)%N.
Definition is_domain_part (c : jschar) : bool :=
  is_alpha c || is_digit c || (c =? 46)%N || (c =? 45)%N.
Definition re_email : regex :=
  Seq WordB (Seq (Plus true (Cls is_local_part)) (Seq (chr 64)
    (Seq (Plus true (Cls is_domain_part)) (Seq (chr 46)
      (Seq (RepMin 2 (Cls is_alpha)) WordB))))).
Definition re_phone : regex :=
  Seq WordB (Seq (Rep 3 (Cls is_digit)) (Seq (chr 45)
    (Seq (Rep 3 (Cls is_digit)) (Seq (chr 45)
      (Seq (Rep 4 (Cls is_digit)) WordB))))).
Definition re_http : regex :=
  Seq (lit (js "http")) (Seq (Opt (chr 115)) (lit (js "://"))).
Definition re_url : regex := Seq re_http (Plus true not_space).

Definition has_contact_info (line : jsstring) : bool :=
  rtest re_email line || rtest re_phone line || rtest re_url line.

(** The signature test of [cleanPlainText], on a trimmed line:
    [trimmed.startsWith('--') ||
     /^[\s]*(Best regards|Sincerely|Cheers|Thanks),?[\s]*$/i.test(trimmed)]. *)
Definition re_salutation : regex :=
  Seq Bol (Seq (Star true space_cls)
    (Seq (alts [lit_ci (js "Best regards"); lit_ci (js "Sincerely");
                lit_ci (js "Cheers"); lit_ci (js "Thanks")])
      (Seq (Opt (chr COMMA)) (Seq (Star true space_cls) Eol)))).
Definition is_signature_line (trimmed : jsstring) : bool :=
  startsWith trimmed (js "--") || rtest re_salutation trimmed.

(** The backward loop [for (i = lines.length - 1; i >= 0; i--)]: [Some i]
    for the index it breaks at, [None] for [signatureStart === -1].
    [scan_back lines n] visits the indices [n - 1] down to [0]. *)
Fixpoint scan_back (lines : list jsstring) (n : nat) : option nat :=
  match n with
  | O => None
  | S i =>
      if is_signature_line (trim (nth i lines [])) then Some i
      else scan_back lines i
  end.
Definition signatureStart (lines : list jsstring) : option nat :=
  scan_back lines (length lines).
(** [lines.splice(signatureStart)] when a signature was found. *)
Definition drop_signature (lines : list jsstring) : list jsstring :=
  match signatureStart lines with
  | Some i => firstn i lines
  | None => lines
  end.

(* ================================================================== *)
(** * The document tree handled through Cheerio

    [removeBoilerplate] mutates the tree that [cheerio.load] built.  Nodes
    have identity, so every element carries an identifier, and the
    document is passed explicitly from one statement to the next.  A
    document is the list of children of the root. *)
(* ================================================================== *)

#[warnings="-register-all"]
Inductive node : Type :=
| TextNode (data : jsstring)
| Comment (data : jsstring)
| Element (nid : nat) (name : jsstring)
          (attribs : list (jsstring * jsstring)) (children : list node).

Definition Document := list node.

Definition is_element (n : node) : bool :=
  match n with Element _ _ _ _ => true | _ => false end.
Definition has_id (i : nat) (n : node) : bool :=
  match n with Element j _ _ _ => j =? i | _ => false end.
Definition has_name (nm : jsstring) (n : node) : bool :=
  match n with Element _ x _ _ => str_eqb x nm | _ => false end.
Definition node_id (n : node) : list nat :=
  match n with Element i _ _ _ => [i] | _ => [] end.

Fixpoint attr (key : jsstring) (attribs : list (jsstring * jsstring))
  : option jsstring :=
  match attribs with
  | [] => None
  | (k, v) :: rest => if str_eqb k key then Some v else attr key rest
  end.

(** [$(el).text()]: the text of the descendants, in document order;
    comments contribute nothing. *)
Fixpoint text (n : node) : jsstring :=
  match n with
  | TextNode d => d
  | Comment _ => []
  | Element _ _ _ cs =>
      (fix go (l : list node) : jsstring :=
         match l with
         | [] => []
         | c :: l' => text c ++ go l'
         end) cs
  end.

(** The matches of a selector, in document order. *)
Fixpoint select_in (p : node -> bool) (n : node) : list node :=
  match n with
  | Element _ _ _ cs =>
      (if p n then [n] else []) ++
      (fix go (l : list node) : list node :=
         match l with
         | [] => []
         | c :: l' => select_in p c ++ go l'
         end) cs
  | _ => []
  end.
Definition select (p : node -> bool) (d : Document) : list node :=
  flat_map (select_in p) d.

Definition ids (ns : list node) : list nat := flat_map node_id ns.

(** The elements attached to the document, by identifier. *)
Definition doc_ids (d : Document) : list nat := ids (select is_element d).

(** Detaching the elements that satisfy [p] from their parents. *)
Fixpoint prune (p : node -> bool) (n : node) : node :=
  match n with
  | Element i nm at_ cs =>
      Element i nm at_
        ((fix go (l : list node) : list node :=
            match l with
            | [] => []
            | c :: l' => if p c then go l' else prune p c :: go l'
            end) cs)
  | _ => n
  end.
Fixpoint prune_doc (p : node -> bool) (d : Document) : Document :=
  match d with
  | [] => []
  | c :: d' => if p c then prune_doc p d' else prune p c :: prune_doc p d'
  end.

(** [$(el).remove()] for one element and for a selection. *)
Definition remove (i : nat) (d : Document) : Document := prune_doc (has_id i) d.
Definition remove_all (sel : list nat) (d : Document) : Document :=
  fold_left (fun d' i => remove i d') sel d.

(** The element with a given identifier, when it is still attached. *)
Definition find_node (i : nat) (d : Document) : option node :=
  hd_error (select (has_id i) d).

(** [.parent()]: the parents that are elements (the root is none). *)
Fixpoint parents_in (p : node -> bool) (n : node) : list node :=
  match n with
  | Element _ _ _ cs =>
      (if existsb p cs then [n] else []) ++
      (fix go (l : list node) : list node :=
         match l with
         | [] => []
         | c :: l' => parents_in p c ++ go l'
         end) cs
  | _ => []
  end.
Definition parents (p : node -> bool) (d : Document) : list node :=
  flat_map (parents_in p) d.

(** [.nextAll()]: the element siblings that follow a match of [p]; text
    and comment siblings are no part of it. *)
Fixpoint after_first (p : node -> bool) (l : list node) : list node :=
  match l with
  | [] => []
  | c :: l' => if p c then filter is_element l' else after_first p l'
  end.
Fixpoint nextAll_in (p : node -> bool) (n : node) : list node :=
  match n with
  | Element _ _ _ cs =>
      after_first p cs ++
      (fix go (l : list node) : list node :=
         match l with
         | [] => []
         | c :: l' => nextAll_in p c ++ go l'
         end) cs
  | _ => []
  end.
Definition nextAll (p : node -> bool) (d : Document) : list node :=
  after_first p d ++ flat_map (nextAll_in p) d.

(** Class selector: one of the whitespace-separated tokens of the [class]
    attribute. *)
Fixpoint tokens_from (cur : jsstring) (s : jsstring) : list jsstring :=
  match s with
  | [] => [rev cur]
  | c :: s' => if is_space c then rev cur :: tokens_from [] s'
               else tokens_from (c :: cur) s'
  end.
Definition class_list (n : node) : list jsstring :=
  match n with
  | Element _ _ at_ _ =>
      match attr (js "class") at_ with
      | Some v => tokens_from [] v
      | None => []
      end
  | _ => []
  end.
Definition has_class (c : jsstring) (n : node) : bool :=
  existsb (str_eqb c) (class_list n).

(** [a[href*="..."]]. *)
Definition link_to (sub : jsstring) (n : node) : bool :=
  match n with
  | Element _ nm at_ _ =>
      str_eqb nm (js "a") &&
      match attr (js "href") at_ with
      | Some v => includes v sub
      | None => false
      end
  | _ => false
  end.

Definition footer_classes : list jsstring :=
  [js "footer"; js "email-footer"; js "signature"; js "legal";
   js "disclaimer"; js "footer-container"; js "email-bottom";
   js "message-signature"; js "legal-notice"].
Definition footer_class (n : node) : bool :=
  existsb (fun c => has_class c n) footer_classes.

Definition element_keywords : list jsstring :=
  [js "unsubscribe"; js "privacy policy"; js "terms and conditions";
   js "you received this email because"; js "view in browser";
   js "sent from my"; js "this email was sent by"; js "copyright";
   js "all rights reserved"].
Definition footer_link (n : node) : bool :=
  link_to (js "unsubscribe") n || link_to (js "privacy") n
  || link_to (js "terms") n.
Definition is_hr (n : node) : bool := has_name (js "hr") n.

Section RemoveBoilerplate.
(** [String.prototype.toLowerCase], with its Unicode case tables. *)
Variable toLowerCase : jsstring -> jsstring.

Definition mentions_keyword (n : node) : bool :=
  existsb (includes (toLowerCase (text n))) element_keywords.

(** One round of the callback of [$('*').each]: [el] is an element of
    the selection taken before the loop.  When an ancestor was removed
    earlier in the loop, removing [el] changes nothing in the
    document. *)
Definition remove_if_keyword (d : Document) (el : node) : Document :=
  match el with
  | Element i _ _ _ =>
      match find_node i d with
      | Some e => if mentions_keyword e then remove i d else d
      | None => d
      end
  | _ => d
  end.

(** The last two statements: [$('hr').nextAll().remove(); $('hr').remove()]. *)
Definition remove_after_hr (d : Document) : Document :=
  let d1 := remove_all (ids (nextAll is_hr d)) d in
  remove_all (ids (select is_hr d1)) d1.

(** The statements before them: the footer classes, the [$('*').each]
    loop and the parents of the footer links. *)
Definition remove_footer_elements (d : Document) : Document :=
  let d1 := remove_all (ids (select footer_class d)) d in
  let d2 := fold_left remove_if_keyword (select is_element d1) d1 in
  remove_all (ids (parents footer_link d2)) d2.

Definition removeBoilerplate (d : Document) : Document :=
  remove_after_hr (remove_footer_elements d).
End RemoveBoilerplate.

(* ================================================================== *)
(** * Patterns of [enhancedCleanEmailContent] *)
(* ================================================================== *)

(** [/https?:\/\/[^\s]+?(?:\?utm_[^\s]+|click[^\s]+|link\.[^\s]+)/g] *)
Definition re_tracking_param : regex :=
  Seq re_http (Seq (Plus false not_space)
    (alts [Seq (lit (js "?utm_")) (Plus true not_space);
           Seq (lit (js "click")) (Plus true not_space);
           Seq (lit (js "link.")) (Plus true not_space)])).
(** [/https?:\/\/[^\s]{50,}/g] *)
Definition re_long_url : regex := Seq re_http (RepMin 50 not_space).
(** [/https?:\/\/[^\/\s]+\/(track|click|open|view)[^\s]*/g] *)
Definition re_tracking_path : regex :=
  Seq re_http
    (Seq (Plus true (Cls (fun c => negb ((c =? 47)%N || is_space c))))
      (Seq (chr 47)
        (Seq (alts [lit (js "track"); lit (js "click"); lit (js "open");
                    lit (js "view")])
          (Star true not_space)))).
(** [/https?:\/\/[^\s]+\/(e|t)\/[a-zA-Z0-9]{5,}[^\s]*/g] *)
Definition re_hash_link : regex :=
  Seq re_http (Seq (Plus true not_space) (Seq (chr 47)
    (Seq (Alt (chr 101) (chr 116)) (Seq (chr 47)
      (Seq (RepMin 5 (Cls (fun c => is_alpha c || is_digit c)))
        (Star true not_space)))))).
(** [/\[\s*\[\s*\[/g] and [/\]\s*\]\s*\]/g] *)
Definition re_bracket_run (b : jschar) : regex :=
  Seq (chr b) (Seq (Star true space_cls) (Seq (chr b)
    (Seq (Star true space_cls) (chr b)))).
(** [/\u200c|\u200b|\u200d|\u200e|\u200f|\u2060|\ufeff/g] *)
Definition re_invisible : regex :=
  alts [chr 8204; chr 8203; chr 8205; chr 8206; chr 8207; chr 8288;
        chr 65279].
(** [/[\u200B-\u200D\u2060\uFEFF\u00A0\u1680\u180E\u2000-\u200A\u202F\u205F\u3000]+/g] *)
Definition is_odd_space (c : jschar) : bool :=
  in_range 8203 8205 c || (c =? 8288)%N || (c =? 65279)%N || (c =? 160)%N
  || (c =? 5760)%N || (c =? 6158)%N || in_range 8192 8202 c
  || (c =? 8239)%N || (c =? 8287)%N || (c =? 12288)%N.
Definition re_odd_spaces : regex := Plus true (Cls is_odd_space).
(** [/\n{3,}/g] *)
Definition re_blank_lines : regex := RepMin 3 (chr LF).
(** [/\d+\s+[A-Za-z\s]+,\s+[A-Za-z\s]+,\s+[A-Z]{2}\s+\d{5}(-\d{4})?/g] *)
Definition is_alpha_space (c : jschar) : bool := is_alpha c || is_space c.
Definition re_postal_address : regex :=
  Seq (Plus true (Cls is_digit)) (Seq (Plus true space_cls)
    (Seq (Plus true (Cls is_alpha_space)) (Seq (chr COMMA)
      (Seq (Plus true space_cls) (Seq (Plus true (Cls is_alpha_space))
        (Seq (chr COMMA) (Seq (Plus true space_cls)
          (Seq (Rep 2 (Cls is_upper)) (Seq (Plus true space_cls)
            (Seq (Rep 5 (Cls is_digit))
              (Opt (Seq (chr 45) (Rep 4 (Cls is_digit)))))))))))))).

(** The duplicated-content step: when half the length exceeds 100, a
    text whose second half contains the first [n] units of its first half
    is cut to its first half. *)
Definition drop_duplicate (n : nat) (text : jsstring) : jsstring :=
  let halfLength := Nat.div2 (length text) in
  if 100 <? halfLength then
    let firstHalf := substring 0 halfLength text in
    let secondHalf := skipn halfLength text in
    if includes secondHalf (substring 0 n firstHalf) then firstHalf else text
  else text.

(** The libraries and built-ins the pipeline calls. *)
Section Pipeline.
Variable toLowerCase : jsstring -> jsstring.
(** [cheerio.load] and [$.html()]. *)
Variable cheerio_load : jsstring -> Document.
Variable cheerio_html : Document -> jsstring.
(** [convert] of [html-to-text] with the options of
    [convertHTMLToText]. *)
Variable convert : jsstring -> jsstring.

Definition convertHTMLToText (html : jsstring) : jsstring := convert html.

(** The statements both files share, up to [convertHTMLToText] and
    [decodeHTMLEntities]. *)
Definition flatten_html (html : jsstring) : jsstring :=
  let cleanedHtml := removeScriptAndStyle html in
  let d := removeBoilerplate toLowerCase (cheerio_load cleanedHtml) in
  decodeHTMLEntities (convertHTMLToText (cheerio_html d)).
End Pipeline.

(* ================================================================== *)
(** * [src/email-processor.js] *)
(* ================================================================== *)

Module EmailProcessor.

Definition footerKeywords : list jsstring :=
  [js "unsubscribe"; js "privacy policy"; js "terms and conditions";
   js "contact us"; js "view in browser"; js "sent from my";
   js "this email was sent by"; js "copyright"; js "all rights reserved"].

Section WithBuiltins.
Variable toLowerCase : jsstring -> jsstring.
Variable cheerio_load : jsstring -> Document.
Variable cheerio_html : Document -> jsstring.
Variable convert : jsstring -> jsstring.

(** The callback of [.filter] in [filterBoilerplateLines]. *)
Definition keep_line (line : jsstring) : bool :=
  if length line <? 5 then false
  else
    let lowerLine := toLowerCase line in
    if existsb (includes lowerLine) footerKeywords then false
    else if rtest re_email line then false
    else if rtest re_phone line then false
    else if rtest re_url line then false
    else true.

Definition filterBoilerplateLines (text : jsstring) : jsstring :=
  trim (join [LF] (filter keep_line (map trim (split LF text)))).

Definition truncate (text : jsstring) : jsstring :=
  if 2000 <? length text then substring 0 2000 text ++ js "..."
  else text.

(** The value of [text] before the [// Truncate if too long] step. *)
Definition cleaned_text (html : jsstring) : jsstring :=
  let text := flatten_html toLowerCase cheerio_load cheerio_html
                           convert html in
  let text := filterBoilerplateLines text in
  let text := replaceAll re_tracking_param [] text in
  let text := replaceAll re_long_url [] text in
  let text := replaceAll re_tracking_path [] text in
  let text := replaceAll re_hash_link [] text in
  let text := replaceAll (re_bracket_run 91) [] text in
  let text := replaceAll (re_bracket_run 93) [] text in
  let text := replaceAll re_invisible [] text in
  let text := normalizeWhitespace text in
  let text := replaceAll re_odd_spaces [] text in
  let text := replaceAll re_blank_lines [LF; LF] text in
  let text := replaceAll re_postal_address [] text in
  drop_duplicate 80 text.

Definition enhancedCleanEmailContent (html : jsstring) : jsstring :=
  match html with
  | [] => []
  | _ :: _ => truncate (cleaned_text html)
  end.
End WithBuiltins.

Definition cleanPlainText (text : jsstring) : jsstring :=
  match text with
  | [] => []
  | _ :: _ =>
      let lines := drop_signature (split LF text) in
      let cleanedLines :=
        filter (fun line => negb (has_contact_info (trim line))) lines in
      normalizeWhitespace (join [LF] cleanedLines)
  end.

End EmailProcessor.

(* ================================================================== *)
(** * The pipeline of [src/gmail-auth.js] *)
(* ================================================================== *)

Module GmailAuth.

Definition footerKeywords : list jsstring :=
  [js "unsubscribe"; js "privacy policy"; js "terms and conditions";
   js "view in browser"; js "sent from my"; js "this email was sent by";
   js "copyright"; js "all rights reserved"].

(** [/^[^a-zA-Z]*(\w+\s+){0,4}(unsubscribe|privacy|copyright)/] *)
Definition re_footer_prefix : regex :=
  Seq Bol (Seq (Star true (Cls (fun c => negb (is_alpha c))))
    (Seq (RepMax 4 (Seq (Plus true (Cls is_word)) (Plus true space_cls)))
      (alts [lit (js "unsubscribe"); lit (js "privacy");
             lit (js "copyright")]))).

Section WithBuiltins.
Variable toLowerCase : jsstring -> jsstring.
Variable cheerio_load : jsstring -> Document.
Variable cheerio_html : Document -> jsstring.
Variable convert : jsstring -> jsstring.

(** The callback of [.filter] in [filterBoilerplateLines]. *)
Definition keep_line (line : jsstring) : bool :=
  if length line <? 5 then false
  else
    let lowerLine := toLowerCase line in
    if existsb (includes lowerLine) footerKeywords then
      (100 <? length line) || negb (rtest re_footer_prefix lowerLine)
    else true.

Definition filterBoilerplateLines (text : jsstring) : jsstring :=
  join [LF] (filter keep_line (map trim (split LF text))).

Definition enhancedCleanEmailContent (html : jsstring) : jsstring :=
  match html with
  | [] => []
  | _ :: _ =>
      let text := flatten_html toLowerCase cheerio_load cheerio_html
                               convert html in
      let text := filterBoilerplateLines text in
      let text := replaceAll re_tracking_param [] text in
      let text := replaceAll re_tracking_path [] text in
      let text := replaceAll re_hash_link [] text in
      let text := replaceAll (re_bracket_run 91) [] text in
      let text := replaceAll (re_bracket_run 93) [] text in
      let text := replaceAll re_invisible [] text in
      let text := normalizeWhitespace text in
      let text := replaceAll re_odd_spaces [] text in
      let text := replaceAll re_blank_lines [LF; LF] text in
      drop_duplicate 150 text
  end.
End WithBuiltins.

Definition cleanPlainText (text : jsstring) : jsstring :=
  match text with
  | [] => []
  | _ :: _ =>
      let lines := drop_signature (split LF text) in
      let cleanedLines :=
        filter (fun line => 0 <? length (trim line)) lines in
      normalizeWhitespace (join [LF] cleanedLines)
  end.

End GmailAuth.

(* ================================================================== *)
(** * [decodeEmailBody] *)
(* ================================================================== *)

(** The outcome of a JavaScript call: a value, or a thrown [TypeError]. *)
Inductive outcome (A : Type) : Type :=
| Ok (a : A)
| Throw.
Arguments Ok {A} a.
Arguments Throw {A}.

Definition bind {A B : Type} (m : outcome A) (f : A -> outcome B) : outcome B :=
  match m with
  | Ok a => f a
  | Throw => Throw
  end.

Notation "x <- m ;; k" := (bind m (fun x => k))
  (at level 61, m at next level, right associativity).

(** A Gmail [MessagePart]; every field may be absent. *)
Record MessagePartBody : Type := mkBody { data : option jsstring }.

#[warnings="-register-all"]
Inductive MessagePart : Type :=
| mkPart (mimeType : option jsstring) (body : option MessagePartBody)
         (parts : option (list MessagePart)).

Definition mimeType (p : MessagePart) : option jsstring :=
  match p with mkPart m _ _ => m end.
Definition body (p : MessagePart) : option MessagePartBody :=
  match p with mkPart _ b _ => b end.
Definition parts (p : MessagePart) : option (list MessagePart) :=
  match p with mkPart _ _ ps => ps end.

(** Reading [.data] of the value of [part.body]: a [TypeError] when that
    value is [undefined]. *)
Definition read_data (b : option MessagePartBody) : outcome (option jsstring) :=
  match b with
  | Some b' => Ok (data b')
  | None => Throw
  end.

(** Truthiness of a value that is a string or [undefined]. *)
Definition truthy (v : option jsstring) : bool :=
  match v with
  | Some (_ :: _) => true
  | _ => false
  end.

(** [part.body && part.body.data]: the right operand is evaluated only
    when [part.body] is an object. *)
Definition body_and_data (p : MessagePart) : outcome (option jsstring) :=
  match body p with
  | None => Ok None
  | Some _ => read_data (body p)
  end.

Definition has_type (t : jsstring) (p : MessagePart) : bool :=
  match mimeType p with
  | Some m => str_eqb m t
  | None => false
  end.

Definition text_plain := Eval cbv in js "text/plain".
Definition text_html := Eval cbv in js "text/html".
Definition multipart_alternative := Eval cbv in js "multipart/alternative".

(** The callback of [.filter] on the decoded children:
    [text && text.trim().length > 0]. *)
Definition nonblank (t : jsstring) : bool :=
  match t with
  | [] => false
  | _ :: _ => 0 <? length (trim t)
  end.

Section Decode.
(** [Buffer.from(data, 'base64').toString('utf-8')] on a string. *)
Variable base64_utf8 : jsstring -> jsstring.
Variable cleanPlainText : jsstring -> jsstring.
Variable enhancedCleanEmailContent : jsstring -> jsstring.

(** [Buffer.from] throws on [undefined]. *)
Definition buffer_from (d : option jsstring) : outcome jsstring :=
  match d with
  | Some s => Ok (base64_utf8 s)
  | None => Throw
  end.

(** [part.mimeType === t && part.body && part.body.data]. *)
Definition leaf_data (t : jsstring) (part : MessagePart)
  : outcome (option jsstring) :=
  if has_type t part then body_and_data part else Ok None.

(** [decodeEmailBody] on an object.  [first] is [parts.find(...)]
    followed by the recursive call on what it found, and [each] is
    [parts.map(p => decodeEmailBody(p))]. *)
Fixpoint decodePart (part : MessagePart) : outcome jsstring :=
  c1 <- leaf_data text_plain part ;;
  if truthy c1 then
    d <- read_data (body part) ;;
    plain <- buffer_from d ;;
    Ok (cleanPlainText plain)
  else
    c2 <- leaf_data text_html part ;;
    if truthy c2 then
      d <- read_data (body part) ;;
      html <- buffer_from d ;;
      Ok (enhancedCleanEmailContent html)
    else
      match part with
      | mkPart _ _ (Some ps) =>
          let first :=
            fix first (t : jsstring) (l : list MessagePart)
              : option (outcome jsstring) :=
              match l with
              | [] => None
              | p :: l' => if has_type t p then Some (decodePart p)
                           else first t l'
              end in
          let each :=
            fix each (l : list MessagePart) : outcome (list jsstring) :=
              match l with
              | [] => Ok []
              | p :: l' =>
                  t <- decodePart p ;; ts <- each l' ;; Ok (t :: ts)
              end in
          if has_type multipart_alternative part then
            match first text_plain ps with
            | Some r => r
            | None =>
                match first text_html ps with
                | Some r => r
                | None => ts <- each ps ;; Ok (join [LF] ts)
                end
            end
          else
            ts <- each ps ;; Ok (join [LF] (filter nonblank ts))
      | mkPart _ _ None => Ok []
      end.

(** [decodeEmailBody(part)]; [None] is [null] or [undefined]. *)
Definition decodeEmailBody (part : option MessagePart) : outcome jsstring :=
  match part with
  | None => Ok []
  | Some p => decodePart p
  end.

(** [parts.map(p => decodeEmailBody(p))]. *)
Fixpoint decode_each (l : list MessagePart) : outcome (list jsstring) :=
  match l with
  | [] => Ok []
  | p :: l' => t <- decodePart p ;; ts <- decode_each l' ;; Ok (t :: ts)
  end.
(** The decoded form of the first child of a given type, when there is
    one: [parts.find(p => p.mimeType === t)] and the recursive call. *)
Definition decode_first (t : jsstring) (ps : list MessagePart)
  : option (outcome jsstring) :=
  option_map decodePart (find (has_type t) ps).

(** The branches of [decodeEmailBody'] below the two leaf cases. *)
Definition decode_children (part : MessagePart) : outcome jsstring :=
  match parts part with
  | Some ps =>
      if has_type multipart_alternative part then
        match decode_first text_plain ps with
        | Some r => r
        | None =>
            match decode_first text_html ps with
            | Some r => r
            | None => ts <- decode_each ps ;; Ok (join [LF] ts)
            end
        end
      else ts <- decode_each ps ;; Ok (join [LF] (filter nonblank ts))
  | None => Ok []
  end.

End Decode.

(** [Array.prototype.map] with a callback that may throw. *)
Fixpoint map_outcome {A B : Type} (f : A -> outcome B) (l : list A)
  : outcome (list B) :=
  match l with
  | [] => Ok []
  | x :: l' => y <- f x ;; ys <- map_outcome f l' ;; Ok (y :: ys)
  end.

Section DecodeOnStack.
Variable base64_utf8 : jsstring -> jsstring.
Variable cleanPlainText : jsstring -> jsstring.
Variable enhancedCleanEmailContent : jsstring -> jsstring.

(** [decodeEmailBody] with the call stack in view.  The function calls
    itself on the children of a part and nothing bounds the nesting, so
    a call can find the stack full: [frames] is the number of nested
    calls of [decodeEmailBody] the stack has room for (with what each of
    them calls in turn), and a call made when none is left throws a
    [RangeError], which nothing in the function catches. *)
Fixpoint decodeEmailBody_on_stack (frames : nat) (part : option MessagePart)
  : outcome jsstring :=
  match frames with
  | 0 => Throw
  | S frames' =>
      match part with
      | None => Ok []
      | Some part =>
          c1 <- leaf_data text_plain part ;;
          if truthy c1 then
            d <- read_data (body part) ;;
            plain <- buffer_from base64_utf8 d ;;
            Ok (cleanPlainText plain)
          else
            c2 <- leaf_data text_html part ;;
            if truthy c2 then
              d <- read_data (body part) ;;
              html <- buffer_from base64_utf8 d ;;
              Ok (enhancedCleanEmailContent html)
            else
              match parts part with
              | Some ps =>
                  if has_type multipart_alternative part then
                    match find (has_type text_plain) ps with
                    | Some p => decodeEmailBody_on_stack frames' (Some p)
                    | None =>
                        match find (has_type text_html) ps with
                        | Some p => decodeEmailBody_on_stack frames' (Some p)
                        | None =>
                            ts <- map_outcome
                                    (fun p => decodeEmailBody_on_stack
                                                frames' (Some p)) ps ;;
                            Ok (join [LF] ts)
                        end
                    end
                  else
                    ts <- map_outcome
                            (fun p => decodeEmailBody_on_stack
                                        frames' (Some p)) ps ;;
                    Ok (join [LF] (filter nonblank ts))
              | None => Ok []
              end
      end
  end.
End DecodeOnStack.

Module EmailProcessorDecode.
Definition decodeEmailBody toLowerCase cheerio_load cheerio_html convert
           base64_utf8 : option MessagePart -> outcome jsstring :=
  decodeEmailBody base64_utf8 EmailProcessor.cleanPlainText
    (EmailProcessor.enhancedCleanEmailContent
       toLowerCase cheerio_load cheerio_html convert).
End EmailProcessorDecode.

Module GmailAuthDecode.
Definition decodeEmailBody toLowerCase cheerio_load cheerio_html convert
           base64_utf8 : option MessagePart -> outcome jsstring :=
  decodeEmailBody base64_utf8 GmailAuth.cleanPlainText
    (GmailAuth.enhancedCleanEmailContent
       toLowerCase cheerio_load cheerio_html convert).
End GmailAuthDecode.

(* ================================================================== *)
(** * CSV serialization *)
(* ================================================================== *)

(** What the callers pass to [escapeCSVField]. *)
Inductive field : Type :=
| FNull
| FUndefined
| FString (s : jsstring)
| FNumber (n : nat).

(** [String(n)] for a natural number. *)
Definition string_of_nat (n : nat) : jsstring :=
  js (DecimalString.NilZero.string_of_uint (Nat.to_uint n)).

Definition is_special (c : jschar) : bool :=
  (c =? DQUOTE)%N || (c =? COMMA)%N || (c =? LF)%N.

(** [escapeCSVField]: [/[",\n]/.test(str)] and [str.replace(/"/g, '""')]. *)
Definition escape_string (str : jsstring) : jsstring :=
  if rtest (Cls is_special) str
  then [DQUOTE] ++ replaceAll (chr DQUOTE) [DQUOTE; DQUOTE] str ++ [DQUOTE]
  else str.
Definition escapeCSVField (f : field) : jsstring :=
  match f with
  | FNull | FUndefined => []
  | FString s => escape_string s
  | FNumber n => escape_string (string_of_nat n)
  end.

(** A processed message. *)
Record Email : Type := mkEmail {
  email_id : jsstring;
  email_threadId : jsstring;
  email_date : jsstring;
  email_from : jsstring;
  email_to : jsstring;
  email_subject : jsstring;
  email_body : jsstring
}.

(** The file system: the content of each path, when the file exists. *)
Definition filesystem := jsstring -> option jsstring.

Definition writeFileSync (path data : jsstring) (fs : filesystem) : filesystem :=
  fun p => if str_eqb p path then Some data else fs p.
Definition appendFileSync (path data : jsstring) (fs : filesystem) : filesystem :=
  fun p => if str_eqb p path
           then Some (match fs p with Some old => old ++ data | None => data end)
           else fs p.

Definition flat_columns (e : Email) : list field :=
  [FString (email_id e); FString (email_threadId e); FString (email_date e);
   FString (email_from e); FString (email_to e); FString (email_subject e);
   FString (email_body e)].
Definition thread_columns (threadId : jsstring) (index : nat) (e : Email)
  : list field :=
  [FString threadId; FNumber (index + 1); FString (email_id e);
   FString (email_date e); FString (email_from e); FString (email_to e);
   FString (email_subject e); FString (email_body e)].

(** [[...].join(',') + '\n']. *)
Definition csvRow (columns : list field) : jsstring :=
  join [COMMA] (map escapeCSVField columns) ++ [LF].

Definition flat_header : jsstring :=
  Eval cbv in js "Message ID,Thread ID,Date,From,To,Subject,Body" ++ [LF].
Definition thread_header : jsstring :=
  Eval cbv in
    js "Thread ID,Thread Position,Message ID,Date,From,To,Subject,Body" ++ [LF].

(** The body of the row loops: append the row to the buffer and flush the
    buffer when it is longer than the limit. *)
Definition buffer_row (limit : Z) (csvFilePath : jsstring)
           (st : filesystem * jsstring) (row : jsstring)
  : filesystem * jsstring :=
  let (fs, csvData) := st in
  let csvData := csvData ++ row in
  if (limit <? Z.of_nat (length csvData))%Z
  then (appendFileSync csvFilePath csvData fs, [])
  else (fs, csvData).

(** The final [if (csvData.length > 0)] flush. *)
Definition flush (csvFilePath : jsstring) (st : filesystem * jsstring)
  : filesystem :=
  let (fs, csvData) := st in
  if 0 <? length csvData then appendFileSync csvFilePath csvData fs else fs.

(** The write of a header and of a sequence of rows with a flush limit. *)
Definition write_rows (limit : Z) (csvFilePath header : jsstring)
           (rows : list jsstring) (fs : filesystem) : filesystem :=
  let fs := writeFileSync csvFilePath header fs in
  flush csvFilePath (fold_left (buffer_row limit csvFilePath) rows (fs, [])).

Definition CHUNK_LIMIT : Z := 1000000.

(** The [// Write to CSV] part of [processEmailsToCSV], the same in both
    files. *)
Definition processEmailsToCSV_write (csvFilePath : jsstring)
           (processedEmails : list Email) (fs : filesystem) : filesystem :=
  write_rows CHUNK_LIMIT csvFilePath flat_header
    (map (fun e => csvRow (flat_columns e)) processedEmails) fs.

(** ** A reference CSV reader

    The reader the round-trip properties are stated against: RFC 4180
    fields (a quoted field ends at a quote that is not doubled), records
    ended by a line feed as the serializer writes them.  [cur] and [acc]
    hold the field and the record read so far, in reverse. *)
Inductive reader_state : Type := FieldStart | Unquoted | Quoted | QuoteSeen.

Definition end_row (cur : jsstring) (acc : list jsstring) : list jsstring :=
  rev (rev cur :: acc).

Fixpoint csv_read (st : reader_state) (cur : jsstring) (acc : list jsstring)
         (s : jsstring) : option (list (list jsstring)) :=
  match s with
  | [] =>
      match st with
      | FieldStart =>
          match acc with
          | [] => Some []
          | _ :: _ => Some [end_row cur acc]
          end
      | Unquoted | QuoteSeen => Some [end_row cur acc]
      | Quoted => None
      end
  | c :: s' =>
      match st with
      | FieldStart =>
          if (c =? DQUOTE)%N then csv_read Quoted [] acc s'
          else if (c =? COMMA)%N then csv_read FieldStart [] ([] :: acc) s'
          else if (c =? LF)%N
               then option_map (cons (end_row [] acc)) (csv_read FieldStart [] [] s')
          else csv_read Unquoted [c] acc s'
      | Unquoted =>
          if (c =? DQUOTE)%N then None
          else if (c =? COMMA)%N then csv_read FieldStart [] (rev cur :: acc) s'
          else if (c =? LF)%N
               then option_map (cons (end_row cur acc)) (csv_read FieldStart [] [] s')
          else csv_read Unquoted (c :: cur) acc s'
      | Quoted =>
          if (c =? DQUOTE)%N then csv_read QuoteSeen cur acc s'
          else csv_read Quoted (c :: cur) acc s'
      | QuoteSeen =>
          if (c =? DQUOTE)%N then csv_read Quoted (c :: cur) acc s'
          else if (c =? COMMA)%N then csv_read FieldStart [] (rev cur :: acc) s'
          else if (c =? LF)%N
               then option_map (cons (end_row cur acc)) (csv_read FieldStart [] [] s')
          else None
      end
  end.

Definition parse_csv (s : jsstring) : option (list (list jsstring)) :=
  csv_read FieldStart [] [] s.

(** ** A reader with universal newlines

    The readers in use (the [csv] module of Python, spreadsheet imports)
    end a record, outside quotes, at a carriage return as well as at a
    line feed, and take a carriage return followed by a line feed as one
    ending; inside quotes both are data.  [after_cr] tells that the
    record before ended at a carriage return. *)
Fixpoint csv_read_lines (st : reader_state) (after_cr : bool) (cur : jsstring)
         (acc : list jsstring) (s : jsstring)
  : option (list (list jsstring)) :=
  match s with
  | [] =>
      match st with
      | FieldStart =>
          match acc with
          | [] => Some []
          | _ :: _ => Some [end_row cur acc]
          end
      | Unquoted | QuoteSeen => Some [end_row cur acc]
      | Quoted => None
      end
  | c :: s' =>
      match st with
      | FieldStart =>
          if after_cr && (c =? LF)%N
          then csv_read_lines FieldStart false [] acc s'
          else if (c =? DQUOTE)%N then csv_read_lines Quoted false [] acc s'
          else if (c =? COMMA)%N
               then csv_read_lines FieldStart false [] ([] :: acc) s'
          else if (c =? LF)%N || (c =? CR)%N
               then option_map (cons (end_row [] acc))
                      (csv_read_lines FieldStart (c =? CR)%N [] [] s')
          else csv_read_lines Unquoted false [c] acc s'
      | Unquoted =>
          if (c =? DQUOTE)%N then None
          else if (c =? COMMA)%N
               then csv_read_lines FieldStart false [] (rev cur :: acc) s'
          else if (c =? LF)%N || (c =? CR)%N
               then option_map (cons (end_row cur acc))
                      (csv_read_lines FieldStart (c =? CR)%N [] [] s')
          else csv_read_lines Unquoted false (c :: cur) acc s'
      | Quoted =>
          if (c =? DQUOTE)%N then csv_read_lines QuoteSeen false cur acc s'
          else csv_read_lines Quoted false (c :: cur) acc s'
      | QuoteSeen =>
          if (c =? DQUOTE)%N then csv_read_lines Quoted false (c :: cur) acc s'
          else if (c =? COMMA)%N
               then csv_read_lines FieldStart false [] (rev cur :: acc) s'
          else if (c =? LF)%N || (c =? CR)%N
               then option_map (cons (end_row cur acc))
                      (csv_read_lines FieldStart (c =? CR)%N [] [] s')
          else None
      end
  end.

Definition parse_csv_lines (s : jsstring) : option (list (list jsstring)) :=
  csv_read_lines FieldStart false [] [] s.

(** The text a field stands for in a written row. *)
Definition field_text (f : field) : jsstring :=
  match f with
  | FNull | FUndefined => []
  | FString s => s
  | FNumber n => string_of_nat n
  end.

(* ================================================================== *)
(** * [organizeEmailsByThread] and the thread export *)
(* ================================================================== *)

(** [Array.prototype.sort(comparefn)].  ECMAScript requires the sort to be
    stable and treats a [NaN] result of the comparator as [0]; it leaves
    the order open when the comparator is not consistent.  The model is
    the stable insertion sort, whose result is the only stable sorted
    arrangement when the comparator is consistent. *)
Section Sort.
Variable A : Type.
Variable cmp : A -> A -> Z.

Fixpoint insert_from_right (acc_rev : list A) (x : A) : list A :=
  match acc_rev with
  | [] => [x]
  | y :: rest =>
      if (cmp x y <? 0)%Z then y :: insert_from_right rest x
      else x :: acc_rev
  end.

(** Each element in turn is moved left past the elements it compares
    below; the sorted prefix is kept in reverse. *)
Definition js_sort (l : list A) : list A :=
  rev (fold_left insert_from_right l []).
End Sort.

(** The own properties of the object [threads], in creation order. *)
Definition threads_object := list (jsstring * list Email).

(** The properties a plain object inherits from [Object.prototype]. *)
Definition object_prototype_keys : list jsstring :=
  [js "constructor"; js "__proto__"; js "hasOwnProperty";
   js "isPrototypeOf"; js "propertyIsEnumerable"; js "toLocaleString";
   js "toString"; js "valueOf"; js "__defineGetter__";
   js "__defineSetter__"; js "__lookupGetter__"; js "__lookupSetter__"].
Definition inherited (k : jsstring) : bool :=
  existsb (str_eqb k) object_prototype_keys.

Fixpoint own (k : jsstring) (o : threads_object) : option (list Email) :=
  match o with
  | [] => None
  | (k', v) :: o' => if str_eqb k' k then Some v else own k o'
  end.

(** [threads[k].push(email)] on an own property. *)
Fixpoint push (k : jsstring) (email : Email) (o : threads_object)
  : threads_object :=
  match o with
  | [] => []
  | (k', v) :: o' =>
      if str_eqb k' k then (k', v ++ [email]) :: o'
      else (k', v) :: push k email o'
  end.

(** The callback of [emails.forEach].  [threads[k]] is the own array, or
    an inherited value, or [undefined]; an inherited value is truthy and
    has no [push] method, so the call throws. *)
Definition add_email (o : threads_object) (email : Email)
  : outcome threads_object :=
  let k := email_threadId email in
  match own k o with
  | Some _ => Ok (push k email o)
  | None =>
      if inherited k then Throw
      else Ok (push k email (o ++ [(k, [])]))
  end.

Fixpoint add_emails (o : threads_object) (emails : list Email)
  : outcome threads_object :=
  match emails with
  | [] => Ok o
  | email :: rest => o' <- add_email o email ;; add_emails o' rest
  end.

(** Array indices: the canonical numeric strings up to [2^32 - 2]. *)
Fixpoint digits_value (acc : N) (s : jsstring) : option N :=
  match s with
  | [] => Some acc
  | c :: s' =>
      if is_digit c then digits_value (acc * 10 + (c - 48))%N s' else None
  end.
Definition array_index (k : jsstring) : option N :=
  match k with
  | [] => None
  | c :: rest =>
      if (c =? 48)%N && (0 <? length rest) then None
      else match digits_value 0 k with
           | Some v => if (v <=? 4294967294)%N then Some v else None
           | None => None
           end
  end.
Definition is_index (k : jsstring) : bool :=
  match array_index k with Some _ => true | None => false end.
Definition index_value (k : jsstring) : Z :=
  match array_index k with Some v => Z.of_N v | None => 0 end.

(** [Object.entries(o)] (and [Object.values], [Object.keys]): the array
    indices in ascending numeric order, then the other keys in creation
    order. *)
Definition compare_index (a b : jsstring * list Email) : Z :=
  (index_value (fst a) - index_value (fst b))%Z.
Definition Object_entries (o : threads_object) : threads_object :=
  js_sort compare_index (filter (fun kv => is_index (fst kv)) o)
  ++ filter (fun kv => negb (is_index (fst kv))) o.
Definition Object_keys (o : threads_object) : list jsstring :=
  map fst (Object_entries o).

Definition same_time (a b : option Z) : bool :=
  match a, b with
  | Some x, Some y => (x =? y)%Z
  | None, None => true
  | _, _ => false
  end.

Section Organize.
(** The time value of [new Date(s)]: [None] stands for [NaN]
    (Invalid Date). *)
Variable parseDate : jsstring -> option Z.

(** [new Date(a.date) - new Date(b.date)]: [None] is [NaN].  Time values
    are integers of magnitude at most 8.64e15, so the sign of the
    floating-point difference is the sign of the exact one. *)
Definition date_difference (a b : Email) : option Z :=
  match parseDate (email_date a), parseDate (email_date b) with
  | Some x, Some y => Some (x - y)%Z
  | _, _ => None
  end.

(** The comparator as the sort uses it: [NaN] counts as [0]. *)
Definition compare_dates (a b : Email) : Z :=
  match date_difference a b with
  | Some v => v
  | None => 0%Z
  end.

Definition sort_thread (kv : jsstring * list Email) : jsstring * list Email :=
  (fst kv, js_sort compare_dates (snd kv)).

Definition organizeEmailsByThread (emails : list Email)
  : outcome threads_object :=
  threads <- add_emails [] emails ;;
  Ok (map sort_thread threads).

(** The rows of the thread export, in the order of
    [Object.entries(threadedEmails)] and of [emails.forEach]. *)
Fixpoint thread_rows (threadId : jsstring) (index : nat) (emails : list Email)
  : list jsstring :=
  match emails with
  | [] => []
  | e :: rest =>
      csvRow (thread_columns threadId index e)
      :: thread_rows threadId (S index) rest
  end.

(** Step 4 of [processThreadsToCSV]. *)
Definition processThreadsToCSV_write (csvFilePath : jsstring)
           (processedEmails : list Email) (fs : filesystem)
  : outcome filesystem :=
  threadedEmails <- organizeEmailsByThread processedEmails ;;
  Ok (write_rows CHUNK_LIMIT csvFilePath thread_header
        (flat_map (fun kv => thread_rows (fst kv) 0 (snd kv))
                  (Object_entries threadedEmails)) fs).

(** The records whose date parses to [d] ([None]: does not parse). *)
Definition dated (d : option Z) (e : Email) : bool :=
  same_time (parseDate (email_date e)) d.
Definition parses (e : Email) : Prop := parseDate (email_date e) <> None.
Definition time_value (e : Email) : Z :=
  match parseDate (email_date e) with Some z => z | None => 0%Z end.
End Organize.

(** The statements of step 4 of [processThreadsToCSV] that follow the
    grouping: the header, then the rows of
    [Object.entries(threadedEmails)]. *)
Definition write_threads (csvFilePath : jsstring)
           (threadedEmails : threads_object) (fs : filesystem) : filesystem :=
  write_rows CHUNK_LIMIT csvFilePath thread_header
    (flat_map (fun kv => thread_rows (fst kv) 0 (snd kv))
              (Object_entries threadedEmails)) fs.

(* ================================================================== *)
(** * Messages, headers and file names *)
(* ================================================================== *)

(** [s.replace(pattern, replacement)] for a string pattern and a
    replacement without [$] patterns: the first occurrence only. *)
Fixpoint replace_first (pat repl s : jsstring) : jsstring :=
  if startsWith s pat then repl ++ skipn (length pat) s
  else match s with
       | [] => []
       | c :: s' => c :: replace_first pat repl s'
       end.

(** [String.prototype.endsWith]. *)
Definition endsWith (s suffix : jsstring) : bool :=
  startsWith (rev s) (rev suffix).

(** [new Date().toISOString().replace(/[:.]/g, '-')]. *)
Definition is_colon_or_dot (c : jschar) : bool := (c =? 58)%N || (c =? 46)%N.
Definition file_timestamp (iso : jsstring) : jsstring :=
  replaceAll (Cls is_colon_or_dot) [45%N] iso.

(** The file names given to [path.join(CSV_DIR, ...)] by
    [processEmailsToCSV] and [processThreadsToCSV]. *)
Definition csv_file_name (userEmail iso : jsstring) : jsstring :=
  replace_first (js "@") (js "_at_") userEmail ++ js "_"
  ++ file_timestamp iso ++ js ".csv".
Definition threads_file_name (userEmail iso : jsstring) : jsstring :=
  replace_first (js "@") (js "_at_") userEmail ++ js "_threads_"
  ++ file_timestamp iso ++ js ".csv".

(** A header of a message; [name] may be absent. *)
Record Header : Type := mkHeader {
  header_name : option jsstring;
  header_value : jsstring
}.

(** A message of the Gmail API: [payload] is the root part together with
    its [headers]. *)
Record Payload : Type := mkPayload {
  payload_headers : option (list Header);
  payload_part : MessagePart
}.
Record Message : Type := mkMessage {
  message_id : option jsstring;
  message_threadId : option jsstring;
  message_payload : option Payload
}.

(** The own properties of the object [headers]. *)
Definition headers_object := list (jsstring * jsstring).

(** [headers[k] = v].  Assigning a string to [__proto__] goes to the
    inherited setter, which ignores it. *)
Fixpoint set_property (k v : jsstring) (o : headers_object) : headers_object :=
  match o with
  | [] => [(k, v)]
  | (k', v') :: o' =>
      if str_eqb k' k then (k', v) :: o' else (k', v') :: set_property k v o'
  end.
Definition assign (k v : jsstring) (o : headers_object) : headers_object :=
  if str_eqb k (js "__proto__") then o else set_property k v o.

Fixpoint get_property (k : jsstring) (o : headers_object) : option jsstring :=
  match o with
  | [] => None
  | (k', v) :: o' => if str_eqb k' k then Some v else get_property k o'
  end.

(** [headers.date || ''] and the like, for a name that [Object.prototype]
    does not define. *)
Definition header_or_empty (k : jsstring) (o : headers_object) : jsstring :=
  match get_property k o with
  | Some v => v
  | None => []
  end.

(** [x || 'unknown']. *)
Definition or_unknown (x : option jsstring) : jsstring :=
  match x with
  | Some (c :: s) => c :: s
  | _ => js "unknown"
  end.

Section Messages.
Variable toLowerCase : jsstring -> jsstring.
(** [decodeEmailBody] of the file. *)
Variable decode : option MessagePart -> outcome jsstring.

(** The callback of [headers.forEach]: [header.name.toLowerCase()] throws
    when the name is absent. *)
Definition add_header (o : headers_object) (h : Header)
  : outcome headers_object :=
  match header_name h with
  | Some n => Ok (assign (toLowerCase n) (header_value h) o)
  | None => Throw
  end.

Fixpoint add_headers (o : headers_object) (hs : list Header)
  : outcome headers_object :=
  match hs with
  | [] => Ok o
  | h :: hs' => o' <- add_header o h ;; add_headers o' hs'
  end.

(** The record built from the headers object and the other fields. *)
Definition email_of (id threadId : jsstring) (headers : headers_object)
           (body : jsstring) : Email :=
  mkEmail id threadId
    (header_or_empty (js "date") headers)
    (header_or_empty (js "from") headers)
    (header_or_empty (js "to") headers)
    (header_or_empty (js "subject") headers)
    body.

(** The callback of [messages.map] in [processEmailsToCSV], in
    [src/email-processor.js] and in the copy of [src/gmail-auth.js]:
    optional chaining on [msg] and [msg.payload]. *)
Definition processMessage (msg : option Message) : outcome Email :=
  headers <-
    match msg with
    | Some m =>
        match message_payload m with
        | Some p =>
            match payload_headers p with
            | Some hs => add_headers [] hs
            | None => Ok []
            end
        | None => Ok []
        end
    | None => Ok []
    end ;;
  body <-
    match msg with
    | Some m =>
        match message_payload m with
        | Some p => decode (Some (payload_part p))
        | None => Ok []
        end
    | None => Ok []
    end ;;
  Ok (email_of
        (or_unknown (match msg with Some m => message_id m | None => None end))
        (or_unknown (match msg with Some m => message_threadId m | None => None end))
        headers body).

Fixpoint processMessages (msgs : list (option Message))
  : outcome (list Email) :=
  match msgs with
  | [] => Ok []
  | m :: ms =>
      e <- processMessage m ;; es <- processMessages ms ;; Ok (e :: es)
  end.
End Messages.

(* ================================================================== *)
(** * The server part of [src/gmail-auth.js] *)
(* ================================================================== *)

Module Server.

(** The first [escapeCSVField] of the file, written with [includes]. *)
Definition escape_string (stringField : jsstring) : jsstring :=
  if includes stringField [DQUOTE] || includes stringField [COMMA]
     || includes stringField [LF]
  then [DQUOTE] ++ replaceAll (chr DQUOTE) [DQUOTE; DQUOTE] stringField
       ++ [DQUOTE]
  else stringField.
Definition escapeCSVField (f : field) : jsstring :=
  match f with
  | FNull | FUndefined => []
  | FString s => escape_string s
  | FNumber n => escape_string (string_of_nat n)
  end.

Section Decode.
Variable base64_utf8 : jsstring -> jsstring.

(** [p && p.body && p.body.data] followed by the decoding, for the part
    that [find] returned; [None] when the condition is falsy. *)
Definition found_data (found : option MessagePart)
  : outcome (option jsstring) :=
  match found with
  | Some p =>
      d <- body_and_data p ;;
      if truthy d then
        d' <- read_data (body p) ;;
        s <- buffer_from base64_utf8 d' ;; Ok (Some s)
      else Ok None
  | None => Ok None
  end.

(** The first [decodeEmailBody] of the file, on an object: body data
    first, whatever the type; then the data of a plain-text or HTML
    child; then the concatenation of the decoded children. *)
Fixpoint decodePart (part : MessagePart) : outcome jsstring :=
  d <- body_and_data part ;;
  if truthy d then
    d' <- read_data (body part) ;; buffer_from base64_utf8 d'
  else
    match part with
    | mkPart _ _ (Some ps) =>
        plain <- found_data (find (has_type text_plain) ps) ;;
        match plain with
        | Some s => Ok s
        | None =>
            html <- found_data (find (has_type text_html) ps) ;;
            match html with
            | Some s => Ok s
            | None =>
                (fix each (l : list MessagePart) : outcome jsstring :=
                   match l with
                   | [] => Ok []
                   | p :: l' =>
                       t <- decodePart p ;; ts <- each l' ;; Ok (t ++ ts)
                   end) ps
            end
        end
    | mkPart _ _ None => Ok []
    end.

Definition decodeEmailBody (part : option MessagePart) : outcome jsstring :=
  match part with
  | None => Ok []
  | Some p => decodePart p
  end.

(** The loop [for (const subPart of part.parts) body += f(subPart)]. *)
Fixpoint append_each (f : MessagePart -> outcome jsstring)
         (l : list MessagePart) : outcome jsstring :=
  match l with
  | [] => Ok []
  | p :: l' => t <- f p ;; ts <- append_each f l' ;; Ok (t ++ ts)
  end.

(** The same function with the call stack in view: it calls itself on
    every child and nothing bounds the nesting; a call made when the
    stack has no room left ([frames] is [0]) throws a [RangeError]. *)
Fixpoint decodeEmailBody_on_stack (frames : nat) (part : option MessagePart)
  : outcome jsstring :=
  match frames with
  | 0 => Throw
  | S frames' =>
      match part with
      | None => Ok []
      | Some part =>
          d <- body_and_data part ;;
          if truthy d then
            d' <- read_data (body part) ;; buffer_from base64_utf8 d'
          else
            match parts part with
            | Some ps =>
                plain <- found_data (find (has_type text_plain) ps) ;;
                match plain with
                | Some s => Ok s
                | None =>
                    html <- found_data (find (has_type text_html) ps) ;;
                    match html with
                    | Some s => Ok s
                    | None =>
                        append_each
                          (fun p => decodeEmailBody_on_stack frames' (Some p))
                          ps
                    end
                end
            | None => Ok []
            end
      end
  end.
End Decode.

Section Messages.
Variable toLowerCase : jsstring -> jsstring.
(** [decodeEmailBody], the first of the file. *)
Variable decode : option MessagePart -> outcome jsstring.

(** The body of the [for (const msg of messages)] loop of the first
    [processEmailsToCSV]: [msg.payload.headers.forEach] without a guard,
    and the row written from [msg.id] and [msg.threadId] as they are. *)
Definition message_row (msg : option Message) : outcome jsstring :=
  match msg with
  | Some m =>
      match message_payload m with
      | Some p =>
          match payload_headers p with
          | Some hs =>
              headers <- add_headers toLowerCase [] hs ;;
              body <- decode (Some (payload_part p)) ;;
              Ok (join [COMMA]
                    [escapeCSVField
                       (match message_id m with
                        | Some s => FString s | None => FUndefined end);
                     escapeCSVField
                       (match message_threadId m with
                        | Some s => FString s | None => FUndefined end);
                     escapeCSVField (FString (header_or_empty (js "date") headers));
                     escapeCSVField (FString (header_or_empty (js "from") headers));
                     escapeCSVField (FString (header_or_empty (js "to") headers));
                     escapeCSVField (FString (header_or_empty (js "subject") headers));
                     escapeCSVField (FString body)]
                  ++ [LF])
          | None => Throw
          end
      | None => Throw
      end
  | None => Throw
  end.
End Messages.

(** The names of the token files: [`${userEmail}.json`], the filter
    [file.endsWith('.json')] on the directory listing and
    [file.replace('.json', '')]. *)
Definition token_file_name (userEmail : jsstring) : jsstring :=
  userEmail ++ js ".json".
Definition tokenFiles (files : list jsstring) : list jsstring :=
  filter (fun file => endsWith file (js ".json")) files.
Definition user_of_token_file (file : jsstring) : jsstring :=
  replace_first (js ".json") [] file.

End Server.

(* ================================================================== *)
(** * Vocabulary of the statements and sample inputs *)
(* ================================================================== *)

Unset Implicit Arguments.

Definition accept : cont (option jschar * jsstring) :=
  fun prev s => Some (prev, s).

(** What [replace(/[class]/g, repl)] computes. *)
Definition subst_chars (p : jschar -> bool) (repl s : jsstring) : jsstring :=
  flat_map (fun c => if p c then repl else [c]) s.

(** What [replace(/[class]+/g, repl)] computes; [in_run] tells that the
    unit before belongs to a run already replaced. *)
Fixpoint collapse (p : jschar -> bool) (repl : jsstring) (in_run : bool)
         (s : jsstring) : jsstring :=
  match s with
  | [] => []
  | c :: s' =>
      if p c then (if in_run then [] else repl) ++ collapse p repl true s'
      else c :: collapse p repl false s'
  end.

(** Texts on which a run replacement changes nothing.
    [tidy p r0 b s]: every unit of [s] in the class [p] is [r0] and no
    two of them are adjacent; [b] tells that the unit before [s] is in
    the class. *)
Fixpoint tidy (p : jschar -> bool) (r0 : jschar) (b : bool) (s : jsstring)
  : bool :=
  match s with
  | [] => true
  | c :: s' =>
      if p c then negb b && (c =? r0)%N && tidy p r0 true s'
      else tidy p r0 false s'
  end.

Definition is_dquote (c : jschar) : bool := (c =? DQUOTE)%N.

(** The quoted form of a field: wrapped in double quotes, every quote
    doubled. *)
Definition quoted (s : jsstring) : jsstring :=
  [DQUOTE] ++ subst_chars is_dquote [DQUOTE; DQUOTE] s ++ [DQUOTE].

(** A separator after a field: a comma or the line feed that ends the
    row. *)
Definition after_field (sep : jschar) (s : jsstring) (acc : list jsstring)
           (rest : jsstring) : option (list (list jsstring)) :=
  if (sep =? COMMA)%N then csv_read FieldStart [] (s :: acc) rest
  else option_map (cons (rev (s :: acc))) (csv_read FieldStart [] [] rest).

(** A written row: the escaped fields joined by commas, then a line
    feed. *)
Definition row_text (fields : list jsstring) : jsstring :=
  join [COMMA] (map escape_string fields) ++ [LF].

(** A field that the serializer writes without a bare carriage return:
    it has none, or it is quoted. *)
Definition is_cr (c : jschar) : bool := (c =? CR)%N.
Definition no_bare_CR (s : jsstring) : bool :=
  existsb is_special s || negb (existsb is_cr s).

(** A separator after a field, for the reader with universal
    newlines. *)
Definition after_field_lines (sep : jschar) (s : jsstring)
           (acc : list jsstring) (rest : jsstring)
  : option (list (list jsstring)) :=
  if (sep =? COMMA)%N then csv_read_lines FieldStart false [] (s :: acc) rest
  else option_map (cons (rev (s :: acc)))
         (csv_read_lines FieldStart false [] [] rest).

(** A field with a carriage return and nothing that makes the serializer
    quote it, and one with a carriage return and a comma. *)
Definition bare_cr_field : jsstring := js "a" ++ [CR] ++ js "b".
Definition quoted_cr_field : jsstring := js "a" ++ [CR] ++ js ",b".

(** The field [a,"b"\nc] of the specification. *)
Definition sample_field : jsstring :=
  js "a," ++ [DQUOTE] ++ js "b" ++ [DQUOTE; LF] ++ js "c".

Definition flat_header_fields : list jsstring :=
  [js "Message ID"; js "Thread ID"; js "Date"; js "From"; js "To";
   js "Subject"; js "Body"].

Definition email_fields (e : Email) : list jsstring :=
  [email_id e; email_threadId e; email_date e; email_from e; email_to e;
   email_subject e; email_body e].

(** The delimiter of the specification: a line that is exactly [--], or a
    closing salutation. *)
Definition is_spec_delimiter (trimmed : jsstring) : bool :=
  str_eqb trimmed (js "--") || rtest re_salutation trimmed.

(** A text that passes through: blank lines removed, whitespace
    normalized. *)
Definition pass_through (text : jsstring) : jsstring :=
  normalizeWhitespace
    (join [LF] (filter (fun line => 0 <? length (trim line)) (split LF text))).

Definition signed_mail : jsstring :=
  js "Hi team" ++ [LF; LF] ++ js "Best regards," ++ [LF] ++ js "John"
  ++ [LF] ++ js "555-123-4567".

Definition dashed_mail : jsstring :=
  js "Hello" ++ [LF] ++ js "--verbose is the flag to use" ++ [LF]
  ++ js "See you".

Definition contact_mail : jsstring :=
  js "Hello" ++ [LF] ++ js "write to bob@example.com" ++ [LF] ++ js "See you".

Definition keyword_amid_content : jsstring :=
  js "As discussed in the meeting yesterday, the design documents are protected by copyright and must stay inside the team".

(** A selector that looks at the tag and the attributes of an element
    only. *)
Definition shallow (p : node -> bool) : Prop :=
  forall i nm at_ cs cs', p (Element i nm at_ cs) = p (Element i nm at_ cs').

(** What is selected after a removal was selected before, and is not the
    removed element. *)
Definition survives (p : node -> bool) (i : nat) (n : node) : Prop :=
  forall j, has_id i n = false ->
            In j (ids (select_in p (prune (has_id i) n))) ->
            j <> i /\ In j (ids (select_in p n)).

(** Documents as [cheerio.load] builds them.
    [cheerio.load] parses a fragment as a whole document: the markup ends
    up under [html > body], next to an empty [head]. *)
Definition page (i : nat) (content : list node) : Document :=
  [Element i (js "html") []
     [Element (i + 1) (js "head") [] [];
      Element (i + 2) (js "body") [] content]].
Definition el (i : nat) (name : string) (content : list node) : node :=
  Element i (js name) [] content.
Definition txt (s : string) : node := TextNode (js s).

(** [<p>Hello</p><hr><p>Unsubscribe here</p>], the example of the
    specification. *)
Definition separator_html : jsstring :=
  js "<p>Hello</p><hr><p>Unsubscribe here</p>".
Definition separator_doc : Document :=
  page 0 [el 3 "p" [txt "Hello"]; el 4 "hr" [];
          el 5 "p" [txt "Unsubscribe here"]].

(** [<p>Hello</p><hr><p>Bye for now</p>]. *)
Definition plain_separator_doc : Document :=
  page 0 [el 3 "p" [txt "Hello"]; el 4 "hr" []; el 5 "p" [txt "Bye for now"]].

(** [<div><p>Hello</p><hr></div><p>Kind words after</p>]. *)
Definition nested_separator_doc : Document :=
  page 0 [el 3 "div" [el 4 "p" [txt "Hello"]; el 5 "hr" []];
          el 6 "p" [txt "Kind words after"]].

(** [<div>Hello<hr>Regards from John</div>]. *)
Definition text_after_separator_doc : Document :=
  page 0 [el 3 "div" [txt "Hello"; el 4 "hr" []; txt "Regards from John"]].

(** A text of 2399 units that no step of the pipeline changes: the
    numbers from 100 to 699, separated by single spaces. *)
Definition numbered_text : jsstring :=
  Eval vm_compute in
    trim (flat_map (fun n => string_of_nat n ++ [SPACE]) (seq 100 600)).

(** An alternative holding an HTML child before a plain-text one. *)
Definition sample_alternative (plain html : jsstring) : MessagePart :=
  mkPart (Some multipart_alternative) None
    (Some [mkPart (Some text_html) (Some (mkBody (Some html))) None;
           mkPart (Some text_plain) (Some (mkBody (Some plain))) None]).

(** The distinct identifiers of a sequence, in first-seen order. *)
Definition see (acc : list jsstring) (k : jsstring) : list jsstring :=
  if existsb (str_eqb k) acc then acc else acc ++ [k].
Definition first_seen (ks : list jsstring) : list jsstring :=
  fold_left see ks [].

(** The records of one thread, in input order. *)
Definition thread_of (k : jsstring) (emails : list Email) : list Email :=
  filter (fun e => str_eqb (email_threadId e) k) emails.

Definition mail (i t d : string) : Email :=
  mkEmail (js i) (js t) (js d) [] [] [] [].

(** The time values of the built-in date parser on the dates of the
    samples; the empty string gives an invalid date. *)
Definition sample_dates (s : jsstring) : option Z :=
  if str_eqb s (js "2024-01-01") then Some 1704067200000%Z
  else if str_eqb s (js "2024-01-02") then Some 1704153600000%Z
  else None.

(** The fields of the rows of the thread export: the thread identifier,
    the position counted from 1, and the fields of the record. *)
Definition thread_header_fields : list jsstring :=
  [js "Thread ID"; js "Thread Position"; js "Message ID"; js "Date";
   js "From"; js "To"; js "Subject"; js "Body"].
Fixpoint thread_fields (threadId : jsstring) (index : nat)
         (emails : list Email) : list (list jsstring) :=
  match emails with
  | [] => []
  | e :: rest =>
      [threadId; string_of_nat (index + 1); email_id e; email_date e;
       email_from e; email_to e; email_subject e; email_body e]
      :: thread_fields threadId (S index) rest
  end.

(** A pattern whose matches all start with the text [w]. *)
Definition starts_with_text (w : jsstring) (r : regex) : Prop :=
  forall (R : Type) prev s (k : cont R),
    startsWith s w = false -> rmatch r prev s k = None.

(** Headers whose lowercased name is [k], and headers without a name. *)
Definition named (toLowerCase : jsstring -> jsstring) (k : jsstring)
           (h : Header) : bool :=
  match header_name h with
  | Some n => str_eqb (toLowerCase n) k
  | None => false
  end.
Definition nameless (h : Header) : bool :=
  match header_name h with
  | Some _ => false
  | None => true
  end.

(** The headers of a message, when [msg?.payload?.headers] is there. *)
Definition headers_of (msg : option Message) : option (list Header) :=
  match msg with
  | Some m =>
      match message_payload m with
      | Some p => payload_headers p
      | None => None
      end
  | None => None
  end.
Definition nameless_header (msg : option Message) : bool :=
  match headers_of msg with
  | Some hs => existsb nameless hs
  | None => false
  end.
Definition id_of (msg : option Message) : option jsstring :=
  match msg with
  | Some m => message_id m
  | None => None
  end.

(** The nesting of a part tree: the number of nested calls the decoders
    need for it. *)
Fixpoint height (p : MessagePart) : nat :=
  match p with
  | mkPart _ _ ps =>
      S (match ps with
         | Some l =>
             (fix deepest (l : list MessagePart) : nat :=
                match l with
                | [] => 0
                | c :: l' => Nat.max (height c) (deepest l')
                end) l
         | None => 0
         end)
  end.
Definition depth (part : option MessagePart) : nat :=
  match part with
  | Some p => height p
  | None => 1
  end.

(** A part nested [n] times in parts that hold nothing else. *)
Fixpoint nested (n : nat) : MessagePart :=
  match n with
  | 0 => mkPart None None None
  | S n' => mkPart None None (Some [nested n'])
  end.

(** The payload of a message, when there is one, is nested no deeper
    than [frames]. *)
Definition payload_within (frames : nat) (msg : option Message) : Prop :=
  match msg with
  | Some m =>
      match message_payload m with
      | Some p => height (payload_part p) <= frames
      | None => True
      end
  | None => True
  end.

(** Some part of the tree has body data. *)
Fixpoint has_data (p : MessagePart) : bool :=
  match p with
  | mkPart _ b ps =>
      truthy (match b with Some b' => data b' | None => None end)
      || match ps with
         | Some l =>
             (fix any (l : list MessagePart) : bool :=
                match l with
                | [] => false
                | c :: l' => has_data c || any l'
                end) l
         | None => false
         end
  end.

Definition sample_headers : list Header :=
  [mkHeader (Some (js "Subject")) (js "first");
   mkHeader (Some (js "From")) (js "ann@example.com");
   mkHeader (Some (js "SUBJECT")) (js "second")].
Definition sample_message : Message :=
  mkMessage (Some (js "m1")) None
    (Some (mkPayload (Some sample_headers)
             (mkPart (Some text_plain) (Some (mkBody (Some (js "aGk=")))) None))).
Definition empty_tree : MessagePart :=
  mkPart (Some (js "multipart/mixed")) None
    (Some [mkPart (Some text_plain) (Some (mkBody None)) None;
           mkPart (Some text_html) None None]).

(** A message without [payload] or without [payload.headers]. *)
Definition no_headers (msg : option Message) : bool :=
  match headers_of msg with
  | Some _ => false
  | None => true
  end.

Definition attachment (d : jsstring) : MessagePart :=
  mkPart (Some (js "application/pdf")) (Some (mkBody (Some d))) None.

(** What the time stamp of a file name does to one unit. *)
Definition dash (c : jschar) : jschar :=
  if is_colon_or_dot c then 45%N else c.

(** An element with a child that satisfies [p]. *)
Definition has_child (p : node -> bool) (n : node) : bool :=
  match n with
  | Element _ _ _ cs => existsb p cs
  | _ => false
  end.

(** A selector that an element keeps satisfying when the descendants
    that were detached are put back. *)
Definition fading (q : node -> bool) : Prop :=
  forall r i nm at_ cs,
    q (Element i nm at_ (prune_doc r cs)) = true ->
    q (Element i nm at_ cs) = true.

(** The fields of the rows of one group: the thread identifier, the
    position counted from 1 and the fields of the record. *)
Definition numbered_fields (threadId : jsstring) (emails : list Email)
  : list (list jsstring) :=
  map (fun je => [threadId; string_of_nat (fst je); email_id (snd je);
                  email_date (snd je); email_from (snd je);
                  email_to (snd je); email_subject (snd je);
                  email_body (snd je)])
      (combine (seq 1 (length emails)) emails).

(** A record whose fields are written without a bare carriage return. *)
Definition readable (e : Email) : Prop :=
  Forall (fun f => no_bare_CR f = true)
         [email_id e; email_date e; email_from e; email_to e;
          email_subject e; email_body e].

(* ================================================================== *)
(** * Properties *)
(* ================================================================== *)

(** ** The regex engine on single-class patterns *)

Lemma rsearch_cons r prev c s :
  rsearch r prev (c :: s) =
  match match_here r prev (c :: s) with
  | Some m => Some ([], m)
  | None =>
      match rsearch r (Some c) s with
      | Some (pre, m) => Some (c :: pre, m)
      | None => None
      end
  end.
Proof. reflexivity. Qed.

Lemma subst_chars_none p repl s :
  existsb p s = false -> subst_chars p repl s = s.
Proof.
  induction s as [|c s IH]; simpl; intros H; [reflexivity|].
  apply orb_false_iff in H as [Hc Hs]. rewrite Hc. simpl.
  now rewrite IH.
Qed.

Lemma subst_chars_app p repl a b :
  subst_chars p repl (a ++ b) = subst_chars p repl a ++ subst_chars p repl b.
Proof. apply flat_map_app. Qed.

Lemma rsearch_cls_spec p s : forall prev,
  match rsearch (Cls p) prev s with
  | None => existsb p s = false
  | Some (pre, (prev', rest)) =>
      exists c, s = pre ++ c :: rest /\ p c = true /\ existsb p pre = false
  end.
Proof.
  induction s as [|c s IH]; intros prev.
  - reflexivity.
  - rewrite rsearch_cons. unfold match_here. simpl.
    destruct (p c) eqn:Hc.
    + exists c. repeat split; assumption.
    + specialize (IH (Some c)).
      destruct (rsearch (Cls p) (Some c) s) as [[pre [prev' rest]]|].
      * destruct IH as (c' & -> & Hc' & Hpre).
        exists c'. simpl. rewrite Hc. repeat split; assumption.
      * exact IH.
Qed.

Lemma rtest_cls p s : rtest (Cls p) s = existsb p s.
Proof.
  unfold rtest. pose proof (rsearch_cls_spec p s None) as H.
  destruct (rsearch (Cls p) None s) as [[pre [prev' rest]]|].
  - destruct H as (c & -> & Hc & _). symmetry.
    rewrite existsb_app. simpl. rewrite Hc. apply orb_true_r.
  - now rewrite H.
Qed.

Lemma replace_from_cls p repl fuel : forall prev s,
  length s < fuel ->
  replace_from fuel (Cls p) repl prev s = subst_chars p repl s.
Proof.
  induction fuel as [|fuel IH]; intros prev s Hlen; [lia|].
  simpl. pose proof (rsearch_cls_spec p s prev) as H.
  destruct (rsearch (Cls p) prev s) as [[pre [prev' rest]]|].
  - destruct H as (c & -> & Hc & Hpre).
    rewrite length_app in *. simpl in *.
    replace (length rest + length pre <? length pre + S (length rest)) with true
      by (symmetry; apply Nat.ltb_lt; lia).
    rewrite IH by lia.
    rewrite subst_chars_app, (@subst_chars_none p repl pre Hpre).
    simpl. rewrite Hc. reflexivity.
  - now rewrite subst_chars_none.
Qed.

Lemma replaceAll_cls p repl s :
  replaceAll (Cls p) repl s = subst_chars p repl s.
Proof. unfold replaceAll. apply replace_from_cls. lia. Qed.

(** *** Runs of a class *)

Lemma star_loop_cls (p : jschar -> bool)
      (m : matcher (option jschar * jsstring)) fuel :
  (forall prev s k,
      m prev s k = match s with
                   | c :: s' => if p c then k (Some c) s' else None
                   | [] => None
                   end) ->
  forall prev s,
  length s <= fuel ->
  exists prev',
    star_loop m true accept fuel prev s = Some (prev', dropWhile p s).
Proof.
  intros Hm. induction fuel as [|fuel IH]; intros prev s Hlen.
  - destruct s; [|simpl in Hlen; lia]. exists prev. reflexivity.
  - destruct s as [|c s].
    + exists prev. cbn [star_loop]. now rewrite Hm.
    + simpl in Hlen. cbn [star_loop]. rewrite Hm.
      cbn [dropWhile]. destruct (p c).
      * cbn [length].
        replace (length s <? S (length s)) with true
          by (symmetry; apply Nat.ltb_lt; lia).
        destruct (IH (Some c) s ltac:(lia)) as [prev' ->].
        exists prev'. reflexivity.
      * exists prev. reflexivity.
Qed.

Lemma match_here_run p prev s :
  match s with
  | c :: s' =>
      if p c
      then exists prev',
          match_here (Plus true (Cls p)) prev s = Some (prev', dropWhile p s')
      else match_here (Plus true (Cls p)) prev s = None
  | [] => match_here (Plus true (Cls p)) prev s = None
  end.
Proof.
  destruct s as [|c s]; [reflexivity|].
  unfold match_here, Plus. cbn [rmatch]. destruct (p c); [|reflexivity].
  apply star_loop_cls with (p := p); [reflexivity|lia].
Qed.

Lemma dropWhile_suffix p s : exists pre, s = pre ++ dropWhile p s.
Proof.
  induction s as [|c s [pre IH]]; simpl.
  - exists []. reflexivity.
  - destruct (p c).
    + exists (c :: pre). simpl. now rewrite <- IH.
    + exists []. reflexivity.
Qed.

Lemma dropWhile_length p s : length (dropWhile p s) <= length s.
Proof.
  destruct (dropWhile_suffix p s) as [pre H].
  rewrite H at 2. rewrite length_app. lia.
Qed.

Lemma collapse_in_run p repl s :
  collapse p repl true s = collapse p repl false (dropWhile p s).
Proof.
  induction s as [|c s IH]; simpl; [reflexivity|].
  destruct (p c) eqn:Hc; simpl.
  - exact IH.
  - now rewrite Hc.
Qed.

Lemma replace_from_run p repl fuel : forall prev s,
  length s < fuel ->
  replace_from fuel (Plus true (Cls p)) repl prev s = collapse p repl false s.
Proof.
  induction fuel as [|fuel IH]; intros prev s Hlen; [lia|].
  revert prev. induction s as [|c s IHs]; intros prev.
  - reflexivity.
  - cbn [replace_from]. rewrite rsearch_cons.
    pose proof (match_here_run p prev (c :: s)) as H. cbn beta iota in H.
    simpl in Hlen. cbn [collapse]. destruct (p c) eqn:Hc.
    + destruct H as [prev' ->].
      pose proof (dropWhile_length p s) as Hd.
      cbn [length app]. rewrite Nat.add_0_r.
      replace (length (dropWhile p s) <? S (length s)) with true
        by (symmetry; apply Nat.ltb_lt; lia).
      rewrite IH by lia. now rewrite collapse_in_run.
    + rewrite H.
      specialize (IHs ltac:(lia) (Some c)). cbn [replace_from] in IHs.
      destruct (rsearch (Plus true (Cls p)) (Some c) s)
        as [[pre [prev' rest]]|] eqn:Hs.
      * cbn [length app] in *.
        destruct (length rest + length pre <? length s) eqn:Hlt.
        -- replace (length rest + S (length pre) <? S (length s)) with true
             by (symmetry; apply Nat.ltb_lt; apply Nat.ltb_lt in Hlt; lia).
           now rewrite <- IHs.
        -- replace (length rest + S (length pre) <? S (length s)) with false
             by (symmetry; apply Nat.ltb_ge; apply Nat.ltb_ge in Hlt; lia).
           destruct rest; now rewrite <- IHs.
      * now rewrite <- IHs.
Qed.

Lemma replaceAll_run p repl s :
  replaceAll (Plus true (Cls p)) repl s = collapse p repl false s.
Proof. unfold replaceAll. apply replace_from_run. lia. Qed.

(** ** The regex engine on the patterns of the source *)

Example salutation_matches :
  map (rtest re_salutation)
      [js "Thanks,"; js "best regards"; js "CHEERS"; js "Sincerely, ";
       js "Thanks a lot"; js "Best  regards"; js "Many thanks"]
  = [true; true; true; true; false; false; false].
Proof. vm_compute. reflexivity. Qed.

Example contact_patterns :
  map has_contact_info
      [js "mail bob@example.com today"; js "call 555-123-4567";
       js "see http://a.io/x"; js "a@b"; js "1555-123-45678";
       js "no contact here"]
  = [true; true; true; false; false; false].
Proof. vm_compute. reflexivity. Qed.

Example script_blocks_removed :
  removeScriptAndStyle
    (js "<p>a</p><SCRIPT type=x>var s = '</style>';</script><p>b</p>")
  = js "<p>a</p> <p>b</p>".
Proof. vm_compute. reflexivity. Qed.

Example tracking_links_removed :
  replaceAll re_tracking_param []
    (js "see https://x.io/a?utm_source=mail now, not https://x.io/b")
  = js "see  now, not https://x.io/b"
  /\ replaceAll re_tracking_path []
       (js "open https://x.io/track/123 and https://x.io/docs")
     = js "open  and https://x.io/docs"
  /\ replaceAll re_hash_link [] (js "go https://x.io/n/e/Ab12345 ok")
     = js "go  ok".
Proof. repeat split; vm_compute; reflexivity. Qed.

Example normalizeWhitespace_sample :
  normalizeWhitespace ([SPACE; SPACE] ++ js "a" ++ [SPACE; TAB; SPACE]
                       ++ js "b" ++ [LF; LF; LF] ++ js "c" ++ [SPACE])
  = js "a b" ++ [LF] ++ js "c".
Proof. vm_compute. reflexivity. Qed.

Example footer_prefix_samples :
  map (rtest GmailAuth.re_footer_prefix)
      [js "unsubscribe here"; js "* click to unsubscribe";
       js "our privacy policy"; js "2024 copyright acme";
       js "we talked about the new privacy policy of the client"]
  = [true; true; true; true; false].
Proof. vm_compute. reflexivity. Qed.

(** ** [trim] *)

Lemma dropWhile_idem p s : dropWhile p (dropWhile p s) = dropWhile p s.
Proof.
  induction s as [|c s IH]; simpl; [reflexivity|].
  destruct (p c) eqn:Hc; [exact IH|]. simpl. now rewrite Hc.
Qed.

Lemma dropWhile_snoc p w h :
  p h = false -> dropWhile p (w ++ [h]) = dropWhile p w ++ [h].
Proof.
  intros Hh. induction w as [|c w IH]; simpl.
  - now rewrite Hh.
  - destruct (p c); [exact IH|reflexivity].
Qed.

Lemma trimEnd_cons h t :
  is_space h = false -> trimEnd (h :: t) = h :: trimEnd t.
Proof.
  intros Hh. unfold trimEnd. simpl.
  rewrite dropWhile_snoc by assumption.
  rewrite rev_app_distr. reflexivity.
Qed.

Lemma trimEnd_idem s : trimEnd (trimEnd s) = trimEnd s.
Proof. unfold trimEnd. now rewrite rev_involutive, dropWhile_idem. Qed.

Lemma trimEnd_prefix s : exists t, s = trimEnd s ++ t.
Proof.
  unfold trimEnd. destruct (dropWhile_suffix is_space (rev s)) as [pre H].
  exists (rev pre). rewrite <- rev_app_distr, <- H. now rewrite rev_involutive.
Qed.

Lemma trim_head s :
  match trim s with
  | [] => True
  | c :: _ => is_space c = false
  end.
Proof.
  unfold trim, trimStart. induction s as [|c s IH]; simpl.
  - exact I.
  - destruct (is_space c) eqn:Hc; [exact IH|].
    now rewrite trimEnd_cons.
Qed.

Lemma trim_idem s : trim (trim s) = trim s.
Proof.
  pose proof (trim_head s) as H. unfold trim at 1.
  destruct (trim s) as [|c t] eqn:E; [reflexivity|].
  unfold trimStart. simpl. rewrite H.
  rewrite <- E. unfold trim. apply trimEnd_idem.
Qed.

Lemma trim_infix s : exists a b, s = a ++ trim s ++ b.
Proof.
  unfold trim. destruct (dropWhile_suffix is_space s) as [a Ha].
  destruct (trimEnd_prefix (trimStart s)) as [b Hb].
  exists a, b. unfold trimStart in *. now rewrite <- Hb.
Qed.

Lemma tidy_weaken p r0 b s : tidy p r0 b s = true -> tidy p r0 false s = true.
Proof.
  destruct s as [|c s]; simpl; [reflexivity|].
  destruct (p c); [|tauto]. destruct b; simpl; [discriminate|tauto].
Qed.

Lemma tidy_collapse_fix p r0 s : forall b,
  tidy p r0 b s = true ->
  collapse p [r0] false s = s /\ (b = true -> collapse p [r0] true s = s).
Proof.
  induction s as [|c s IH]; intros b H; simpl in *; [tauto|].
  destruct (p c) eqn:Hc.
  - apply andb_true_iff in H as [H Hs]. apply andb_true_iff in H as [Hb Heq].
    apply N.eqb_eq in Heq. subst c.
    destruct (IH true Hs) as [_ IH2]. rewrite (IH2 eq_refl).
    split; [reflexivity|]. intros ->. discriminate.
  - destruct (IH false H) as [IH1 _]. rewrite IH1. tauto.
Qed.

Lemma collapse_fix p r0 s :
  tidy p r0 false s = true -> collapse p [r0] false s = s.
Proof. intros H. apply (tidy_collapse_fix _ _ _ _ H). Qed.

Lemma collapse_tidy p r0 s : forall b,
  tidy p r0 b (collapse p [r0] b s) = true.
Proof.
  induction s as [|c s IH]; intros b; simpl; [reflexivity|].
  destruct (p c) eqn:Hc.
  - destruct b; simpl.
    + apply IH.
    + destruct (p r0).
      * rewrite N.eqb_refl. simpl. apply IH.
      * apply tidy_weaken with (b := true). apply IH.
  - simpl. rewrite Hc. apply IH.
Qed.

Lemma tidy_app_l p r0 s t : forall b,
  tidy p r0 b (s ++ t) = true -> tidy p r0 b s = true.
Proof.
  induction s as [|c s IH]; intros b H; simpl in *; [reflexivity|].
  destruct (p c).
  - apply andb_true_iff in H as [H Hs]. rewrite H. simpl. now apply IH.
  - now apply IH.
Qed.

Lemma tidy_app_r p r0 s t : forall b,
  tidy p r0 b (s ++ t) = true -> tidy p r0 false t = true.
Proof.
  induction s as [|c s IH]; intros b H; simpl in *.
  - now apply tidy_weaken with (b := b).
  - destruct (p c).
    + apply andb_true_iff in H as [_ Hs]. now apply IH with (b := true).
    + now apply IH with (b := false).
Qed.

Lemma tidy_trim p r0 s :
  tidy p r0 false s = true -> tidy p r0 false (trim s) = true.
Proof.
  intros H. destruct (trim_infix s) as (a & b & E). rewrite E in H.
  apply tidy_app_r in H. now apply tidy_app_l in H.
Qed.

(** Replacing the runs of a class [q] leaves a text tidy for a disjoint
    class [p]: one unit of every run stays, so no two units of [p]
    become adjacent. *)
Lemma tidy_collapse_other p r0 q q0 :
  (forall c, p c = true -> q c = false) ->
  p q0 = false ->
  forall s b f,
  (f = true -> b = false) ->
  tidy p r0 b s = true ->
  tidy p r0 b (collapse q [q0] f s) = true.
Proof.
  intros Hdisj Hq0. induction s as [|c s IH]; intros b f Hfb H; simpl in *.
  - reflexivity.
  - destruct (p c) eqn:Hp.
    + rewrite (Hdisj c Hp). simpl. rewrite Hp.
      apply andb_true_iff in H as [H Hs]. rewrite H. simpl.
      apply IH; [discriminate|assumption].
    + destruct (q c) eqn:Hq.
      * destruct f; simpl.
        -- rewrite (Hfb eq_refl). apply IH; [reflexivity|assumption].
        -- rewrite Hq0. apply IH; [reflexivity|assumption].
      * simpl. rewrite Hp. apply IH; [discriminate|assumption].
Qed.

(** ** [normalizeWhitespace] *)

Lemma normalizeWhitespace_eq text :
  normalizeWhitespace text
  = trim (collapse is_lf [LF] false (collapse is_blank [SPACE] false text)).
Proof.
  unfold normalizeWhitespace, re_newline_run, re_blank_run.
  now rewrite !replaceAll_run.
Qed.

Lemma blank_not_lf c : is_blank c = true -> is_lf c = false.
Proof.
  unfold is_blank, is_lf, SPACE, TAB, LF. intros H.
  apply orb_true_iff in H as [H|H]; apply N.eqb_eq in H; subst; reflexivity.
Qed.

Lemma normalizeWhitespace_tidy text :
  tidy is_blank SPACE false (normalizeWhitespace text) = true
  /\ tidy is_lf LF false (normalizeWhitespace text) = true.
Proof.
  rewrite normalizeWhitespace_eq. split; apply tidy_trim.
  - apply tidy_collapse_other.
    + exact blank_not_lf.
    + reflexivity.
    + discriminate.
    + apply collapse_tidy.
  - apply collapse_tidy.
Qed.

(** C9: the text normalizer is idempotent:
    [normalizeWhitespace (normalizeWhitespace x) = normalizeWhitespace x]
    for every string [x]. *)
Theorem normalizeWhitespace_idempotent (x : jsstring) :
  normalizeWhitespace (normalizeWhitespace x) = normalizeWhitespace x.
Proof.
  destruct (normalizeWhitespace_tidy x) as [Hb Hl].
  rewrite (normalizeWhitespace_eq (normalizeWhitespace x)).
  rewrite (collapse_fix _ _ _ Hb), (collapse_fix _ _ _ Hl).
  rewrite normalizeWhitespace_eq. apply trim_idem.
Qed.

(** ** CSV fields *)

Lemma escape_string_eq s :
  escape_string s = if existsb is_special s then quoted s else s.
Proof.
  unfold escape_string, quoted, chr. rewrite rtest_cls, replaceAll_cls.
  reflexivity.
Qed.

Lemma escapeCSVField_text f : escapeCSVField f = escape_string (field_text f).
Proof. destruct f; reflexivity. Qed.

Lemma read_quoted s : forall cur acc rest,
  csv_read Quoted cur acc
    (subst_chars is_dquote [DQUOTE; DQUOTE] s ++ DQUOTE :: rest)
  = csv_read QuoteSeen (rev s ++ cur) acc rest.
Proof.
  induction s as [|c s IH]; intros cur acc rest; simpl.
  - reflexivity.
  - unfold is_dquote at 1. destruct (c =? DQUOTE)%N eqn:Hc.
    + apply N.eqb_eq in Hc. subst c. simpl.
      rewrite IH, <- app_assoc. reflexivity.
    + simpl. rewrite Hc, IH, <- app_assoc. reflexivity.
Qed.

Lemma read_unquoted s : forall cur acc rest,
  existsb is_special s = false ->
  csv_read Unquoted cur acc (s ++ rest)
  = csv_read Unquoted (rev s ++ cur) acc rest.
Proof.
  induction s as [|c s IH]; intros cur acc rest H; simpl in *.
  - reflexivity.
  - apply orb_false_iff in H as [Hc Hs]. unfold is_special in Hc.
    apply orb_false_iff in Hc as [Hc Hlf].
    apply orb_false_iff in Hc as [Hq Hcomma].
    rewrite Hq, Hcomma, Hlf, IH, <- app_assoc by assumption. reflexivity.
Qed.

Lemma read_field sep s acc rest :
  sep = COMMA \/ sep = LF ->
  csv_read FieldStart [] acc (escape_string s ++ sep :: rest)
  = after_field sep s acc rest.
Proof.
  intros Hsep. rewrite escape_string_eq. unfold after_field, end_row.
  destruct (existsb is_special s) eqn:Hs.
  - unfold quoted. cbn [app csv_read]. rewrite N.eqb_refl.
    rewrite <- app_assoc. cbn [app]. rewrite read_quoted, app_nil_r.
    destruct Hsep as [-> | ->]; cbn; now rewrite rev_involutive.
  - destruct s as [|c s].
    + destruct Hsep as [-> | ->]; reflexivity.
    + pose proof Hs as Hs'. simpl in Hs.
      apply orb_false_iff in Hs as [Hc Hs]. unfold is_special in Hc.
      apply orb_false_iff in Hc as [Hc Hlf].
      apply orb_false_iff in Hc as [Hq Hcomma].
      cbn [app csv_read]. rewrite Hq, Hcomma, Hlf.
      rewrite read_unquoted by assumption.
      replace (rev s ++ [c]) with (rev (c :: s)) by reflexivity.
      destruct Hsep as [-> | ->]; cbn [csv_read]; unfold end_row;
        rewrite ?N.eqb_refl, ?rev_involutive; reflexivity.
Qed.

Lemma join_cons2 sep (a b : jsstring) l :
  join sep (a :: b :: l) = a ++ sep ++ join sep (b :: l).
Proof. reflexivity. Qed.

Lemma read_row fields : forall acc rest,
  fields <> [] ->
  csv_read FieldStart [] acc (row_text fields ++ rest)
  = option_map (cons (rev acc ++ fields)) (csv_read FieldStart [] [] rest).
Proof.
  unfold row_text.
  induction fields as [|f fields IH]; intros acc rest Hne; [congruence|].
  destruct fields as [|g fields].
  - cbn [map join]. rewrite <- app_assoc. cbn [app].
    rewrite read_field by (now right). reflexivity.
  - change (map escape_string (f :: g :: fields))
      with (escape_string f :: escape_string g :: map escape_string fields).
    rewrite join_cons2.
    change (escape_string g :: map escape_string fields)
      with (map escape_string (g :: fields)).
    rewrite <- !app_assoc. cbn [app].
    rewrite read_field by (now left). unfold after_field.
    rewrite N.eqb_refl. change (LF :: rest) with ([LF] ++ rest).
    rewrite app_assoc, IH by discriminate.
    cbn [rev]. rewrite <- app_assoc. reflexivity.
Qed.

Lemma read_rows rows :
  Forall (fun r => r <> []) rows ->
  parse_csv (concat (map row_text rows)) = Some rows.
Proof.
  unfold parse_csv. induction 1 as [|r rows Hr _ IH]; [reflexivity|].
  cbn [map concat]. rewrite read_row by assumption. now rewrite IH.
Qed.

Lemma csvRow_text columns : csvRow columns = row_text (map field_text columns).
Proof.
  unfold csvRow, row_text. rewrite map_map. f_equal. f_equal.
  apply map_ext. exact escapeCSVField_text.
Qed.

(** *** Reading with universal newlines *)

Lemma read_quoted_lines s : forall cur acc rest,
  csv_read_lines Quoted false cur acc
    (subst_chars is_dquote [DQUOTE; DQUOTE] s ++ DQUOTE :: rest)
  = csv_read_lines QuoteSeen false (rev s ++ cur) acc rest.
Proof.
  induction s as [|c s IH]; intros cur acc rest; simpl.
  - reflexivity.
  - unfold is_dquote at 1. destruct (c =? DQUOTE)%N eqn:Hc.
    + apply N.eqb_eq in Hc. subst c. simpl.
      rewrite IH, <- app_assoc. reflexivity.
    + simpl. rewrite Hc, IH, <- app_assoc. reflexivity.
Qed.

Lemma read_unquoted_lines s : forall cur acc rest,
  existsb is_special s = false ->
  existsb is_cr s = false ->
  csv_read_lines Unquoted false cur acc (s ++ rest)
  = csv_read_lines Unquoted false (rev s ++ cur) acc rest.
Proof.
  induction s as [|c s IH]; intros cur acc rest H Hcr; simpl in *.
  - reflexivity.
  - apply orb_false_iff in H as [Hc Hs]. unfold is_special in Hc.
    apply orb_false_iff in Hc as [Hc Hlf].
    apply orb_false_iff in Hc as [Hq Hcomma].
    apply orb_false_iff in Hcr as [Hr Hcr]. unfold is_cr in Hr.
    rewrite Hq, Hcomma, Hlf, Hr. cbn [orb].
    rewrite IH, <- app_assoc by assumption. reflexivity.
Qed.

Lemma read_field_lines sep s acc rest :
  sep = COMMA \/ sep = LF ->
  no_bare_CR s = true ->
  csv_read_lines FieldStart false [] acc (escape_string s ++ sep :: rest)
  = after_field_lines sep s acc rest.
Proof.
  intros Hsep Hsafe. rewrite escape_string_eq.
  unfold after_field_lines, end_row, no_bare_CR in *.
  destruct (existsb is_special s) eqn:Hs.
  - unfold quoted. cbn [app csv_read_lines andb]. rewrite N.eqb_refl.
    rewrite <- app_assoc. cbn [app]. rewrite read_quoted_lines, app_nil_r.
    destruct Hsep as [-> | ->]; cbn; now rewrite rev_involutive.
  - cbn [orb] in Hsafe. apply negb_true_iff in Hsafe.
    destruct s as [|c s].
    + destruct Hsep as [-> | ->]; reflexivity.
    + pose proof Hs as Hs'. simpl in Hs, Hsafe.
      apply orb_false_iff in Hs as [Hc Hs]. unfold is_special in Hc.
      apply orb_false_iff in Hc as [Hc Hlf].
      apply orb_false_iff in Hc as [Hq Hcomma].
      apply orb_false_iff in Hsafe as [Hr Hcr]. unfold is_cr in Hr.
      cbn [app csv_read_lines andb]. rewrite Hq, Hcomma, Hlf, Hr. cbn [orb].
      rewrite read_unquoted_lines by assumption.
      replace (rev s ++ [c]) with (rev (c :: s)) by reflexivity.
      destruct Hsep as [-> | ->]; cbn [csv_read_lines]; unfold end_row;
        rewrite ?N.eqb_refl, ?rev_involutive; reflexivity.
Qed.

Lemma read_row_lines fields : forall acc rest,
  fields <> [] ->
  Forall (fun f => no_bare_CR f = true) fields ->
  csv_read_lines FieldStart false [] acc (row_text fields ++ rest)
  = option_map (cons (rev acc ++ fields))
      (csv_read_lines FieldStart false [] [] rest).
Proof.
  unfold row_text.
  induction fields as [|f fields IH]; intros acc rest Hne Hsafe; [congruence|].
  inversion Hsafe as [|? ? Hf Hfields]; subst.
  destruct fields as [|g fields].
  - cbn [map join]. rewrite <- app_assoc. cbn [app].
    rewrite read_field_lines by (auto). reflexivity.
  - change (map escape_string (f :: g :: fields))
      with (escape_string f :: escape_string g :: map escape_string fields).
    rewrite join_cons2.
    change (escape_string g :: map escape_string fields)
      with (map escape_string (g :: fields)).
    rewrite <- !app_assoc. cbn [app].
    rewrite read_field_lines by (auto). unfold after_field_lines.
    rewrite N.eqb_refl. change (LF :: rest) with ([LF] ++ rest).
    rewrite app_assoc, IH by (discriminate || assumption).
    cbn [rev]. rewrite <- app_assoc. reflexivity.
Qed.

Lemma read_rows_lines rows :
  Forall (fun r => r <> [] /\ Forall (fun f => no_bare_CR f = true) r) rows ->
  parse_csv_lines (concat (map row_text rows)) = Some rows.
Proof.
  unfold parse_csv_lines.
  induction 1 as [|r rows [Hr Hsafe] _ IH]; [reflexivity|].
  cbn [map concat]. rewrite read_row_lines by assumption. now rewrite IH.
Qed.




(** ** The buffered writer *)

Lemma str_eqb_eq a : forall b, str_eqb a b = true <-> a = b.
Proof.
  induction a as [|x a IH]; intros [|y b]; simpl; try (split; congruence).
  rewrite andb_true_iff, N.eqb_eq, IH. split.
  - intros [-> ->]. reflexivity.
  - intros E. injection E as -> ->. tauto.
Qed.

Lemma str_eqb_refl a : str_eqb a a = true.
Proof. now apply str_eqb_eq. Qed.

Lemma buffered_rows limit path rows :
  forall (fs : filesystem) (buf written : jsstring),
  fs path = Some written ->
  exists written',
    fst (fold_left (buffer_row limit path) rows (fs, buf)) path = Some written'
    /\ written' ++ snd (fold_left (buffer_row limit path) rows (fs, buf))
       = written ++ buf ++ concat rows
    /\ forall q, str_eqb q path = false ->
         fst (fold_left (buffer_row limit path) rows (fs, buf)) q = fs q.
Proof.
  induction rows as [|row rows IH]; intros fs buf written Hfs.
  - exists written. simpl. rewrite app_nil_r. auto.
  - cbn [fold_left concat].
    replace (buffer_row limit path (fs, buf) row)
      with (if (limit <? Z.of_nat (length (buf ++ row)))%Z
            then (appendFileSync path (buf ++ row) fs, [])
            else (fs, buf ++ row)) by reflexivity.
    destruct (limit <? Z.of_nat (length (buf ++ row)))%Z.
    + destruct (IH (appendFileSync path (buf ++ row) fs) [] (written ++ buf ++ row))
        as (w & H1 & H2 & H3).
      { unfold appendFileSync. now rewrite str_eqb_refl, Hfs. }
      exists w. split; [exact H1|]. split.
      * etransitivity; [exact H2|]. now rewrite <- !app_assoc.
      * intros q Hq. etransitivity; [exact (H3 q Hq)|].
        unfold appendFileSync. now rewrite Hq.
    + destruct (IH fs (buf ++ row) written Hfs) as (w & H1 & H2 & H3).
      exists w. split; [exact H1|]. split; [|exact H3].
      etransitivity; [exact H2|]. now rewrite <- !app_assoc.
Qed.

Lemma write_rows_content limit path header rows fs :
  write_rows limit path header rows fs path = Some (header ++ concat rows)
  /\ forall q, str_eqb q path = false ->
       write_rows limit path header rows fs q = fs q.
Proof.
  destruct (@buffered_rows limit path rows
              (writeFileSync path header fs) [] header)
    as (w & H1 & H2 & H3).
  { unfold writeFileSync. now rewrite str_eqb_refl. }
  set (st := fold_left _ _ _) in *.
  change (write_rows limit path header rows fs) with (flush path st).
  destruct st as [fs' buf]. unfold flush.
  cbn [fst snd app] in *. split.
  - destruct buf as [|c buf]; cbn [length Nat.ltb Nat.leb].
    + rewrite H1, <- H2, app_nil_r. reflexivity.
    + unfold appendFileSync. rewrite str_eqb_refl, H1, H2. reflexivity.
  - intros q Hq.
    assert (Hfs : fs' q = fs q).
    { rewrite (H3 q Hq). unfold writeFileSync. now rewrite Hq. }
    destruct buf; cbn [length Nat.ltb Nat.leb]; [exact Hfs|].
    unfold appendFileSync. now rewrite Hq.
Qed.

(** C8: the flat export writes one header row followed by exactly one row
    per record, in input order: whatever the flush limit (so wherever the
    flushes fall), the file holds the header and the rows of the records
    in sequence, other files are untouched, and the CSV reader finds in it
    the header and the [N] records, [N + 1] rows in all. *)
Theorem processEmailsToCSV_rows (csvFilePath : jsstring)
        (processedEmails : list Email) (fs : filesystem) :
  let rows := map (fun e => csvRow (flat_columns e)) processedEmails in
  let content := flat_header ++ concat rows in
  processEmailsToCSV_write csvFilePath processedEmails fs csvFilePath
  = Some content
  /\ (forall limit : Z,
        write_rows limit csvFilePath flat_header rows fs csvFilePath
        = Some content)
  /\ (forall q, str_eqb q csvFilePath = false ->
        processEmailsToCSV_write csvFilePath processedEmails fs q = fs q)
  /\ parse_csv content
     = Some (flat_header_fields :: map email_fields processedEmails)
  /\ option_map (@length _) (parse_csv content)
     = Some (1 + length processedEmails).
Proof.
  intros rows content.
  assert (Hparse : parse_csv content
            = Some (flat_header_fields :: map email_fields processedEmails)).
  { subst content rows.
    change flat_header with (row_text flat_header_fields).
    rewrite map_ext with (g := fun e => row_text (email_fields e))
      by (intros e; apply csvRow_text).
    rewrite <- map_map.
    change (row_text flat_header_fields
            ++ concat (map row_text (map email_fields processedEmails)))
      with (concat (map row_text
                      (flat_header_fields :: map email_fields processedEmails))).
    apply read_rows. constructor; [discriminate|].
    apply Forall_forall. intros r Hr. apply in_map_iff in Hr as (e & <- & _).
    discriminate. }
  split; [apply write_rows_content|].
  split; [intros limit; apply write_rows_content|].
  split; [apply write_rows_content|].
  split; [exact Hparse|].
  rewrite Hparse. cbn. now rewrite length_map.
Qed.

(** ** [cleanPlainText] *)

Lemma scan_back_spec lines : forall n,
  n <= length lines ->
  match scan_back lines n with
  | Some i =>
      i < n
      /\ is_signature_line (trim (nth i lines [])) = true
      /\ forall j, i < j < n ->
           is_signature_line (trim (nth j lines [])) = false
  | None =>
      forall j, j < n -> is_signature_line (trim (nth j lines [])) = false
  end.
Proof.
  induction n as [|n IH]; intros Hn; simpl.
  - intros j Hj. lia.
  - destruct (is_signature_line (trim (nth n lines []))) eqn:Hsig.
    + split; [lia|]. split; [exact Hsig|]. intros j Hj. lia.
    + specialize (IH ltac:(lia)).
      destruct (scan_back lines n) as [i|].
      * destruct IH as (Hi & Hs & Hlater). split; [lia|].
        split; [exact Hs|]. intros j Hj.
        destruct (Nat.eq_dec j n) as [->|Hne]; [exact Hsig|].
        apply Hlater. lia.
      * intros j Hj.
        destruct (Nat.eq_dec j n) as [->|Hne]; [exact Hsig|].
        apply IH. lia.
Qed.

(** C6, as stated, fails: the text [dashed_mail] has no line that is
    exactly [--] and no closing salutation, yet both files cut it at the
    line that starts with [--]; and in [src/email-processor.js] the text
    [contact_mail], without any delimiter, loses the line holding an
    e-mail address. *)
Lemma cleanPlainText_not_exact_delimiter :
  forallb (fun line => negb (is_spec_delimiter (trim line)))
          (split LF dashed_mail) = true
  /\ pass_through dashed_mail = dashed_mail
  /\ GmailAuth.cleanPlainText dashed_mail = js "Hello"
  /\ EmailProcessor.cleanPlainText dashed_mail = js "Hello"
  /\ GmailAuth.cleanPlainText dashed_mail <> pass_through dashed_mail
  /\ forallb (fun line => negb (is_signature_line (trim line)))
             (split LF contact_mail) = true
  /\ pass_through contact_mail = contact_mail
  /\ EmailProcessor.cleanPlainText contact_mail
     = js "Hello" ++ [LF] ++ js "See you".
Proof.
  repeat split; try (vm_compute; reflexivity).
  vm_compute. discriminate.
Qed.

(** C6, amended: for every plain-text input, [cleanPlainText] marks the
    signature start at the last line (the first one met scanning backward
    from the end) whose trimmed text starts with [--] or matches the
    closing-salutation pattern, and drops that line and everything after
    it; the lines that remain are joined and normalized after the blank
    lines are removed ([src/gmail-auth.js]) or after the lines holding an
    e-mail address, a phone number or a URL are removed
    ([src/email-processor.js]); with no such delimiter line no line is
    dropped as signature.  [Hi team\n\nBest regards,\nJohn\n555-123-4567]
    cleans to [Hi team] in both files. *)
Theorem cleanPlainText_signature (text : jsstring) :
  let lines := split LF text in
  match signatureStart lines with
  | Some i =>
      i < length lines
      /\ is_signature_line (trim (nth i lines [])) = true
      /\ (forall j, i < j < length lines ->
            is_signature_line (trim (nth j lines [])) = false)
      /\ drop_signature lines = firstn i lines
  | None =>
      (forall j, j < length lines ->
         is_signature_line (trim (nth j lines [])) = false)
      /\ drop_signature lines = lines
      /\ GmailAuth.cleanPlainText text = pass_through text
  end
  /\ GmailAuth.cleanPlainText text
     = normalizeWhitespace
         (join [LF] (filter (fun line => 0 <? length (trim line))
                            (drop_signature lines)))
  /\ EmailProcessor.cleanPlainText text
     = normalizeWhitespace
         (join [LF] (filter (fun line => negb (has_contact_info (trim line)))
                            (drop_signature lines)))
  /\ GmailAuth.cleanPlainText signed_mail = js "Hi team"
  /\ EmailProcessor.cleanPlainText signed_mail = js "Hi team".
Proof.
  intros lines.
  assert (HG : GmailAuth.cleanPlainText text
               = normalizeWhitespace
                   (join [LF] (filter (fun line => 0 <? length (trim line))
                                      (drop_signature lines)))).
  { destruct text; [vm_compute|]; reflexivity. }
  split; [|split; [exact HG|split; [|split; vm_compute; reflexivity]]].
  - pose proof (scan_back_spec lines (length lines) (le_n _)) as H.
    unfold drop_signature in *. fold (signatureStart lines) in H.
    destruct (signatureStart lines) as [i|].
    + destruct H as (H1 & H2 & H3). auto.
    + split; [exact H|]. split; [reflexivity|]. exact HG.
  - destruct text; [vm_compute|]; reflexivity.
Qed.

(** ** [filterBoilerplateLines] *)

(** C7, as stated, fails for [src/email-processor.js]: a line of 116
    characters that mentions [copyright] amid real content, and does not
    match the prefix pattern, is dropped there; [src/gmail-auth.js] keeps
    it. *)
Lemma filterBoilerplateLines_drops_content :
  length keyword_amid_content = 116
  /\ rtest GmailAuth.re_footer_prefix (ascii_toLowerCase keyword_amid_content)
     = false
  /\ EmailProcessor.filterBoilerplateLines ascii_toLowerCase keyword_amid_content
     = []
  /\ GmailAuth.filterBoilerplateLines ascii_toLowerCase keyword_amid_content
     = keyword_amid_content.
Proof. repeat split; vm_compute; reflexivity. Qed.

(** C7, amended: in [src/gmail-auth.js] the line filter drops a line that
    contains a boilerplate keyword only when the line is shorter than 5
    characters, or at most 100 characters long and matching the prefix
    pattern; every line of at least 5 characters that is longer than 100
    characters or does not match the prefix pattern is preserved in the
    output, which is the kept lines joined by line feeds.  In
    [src/email-processor.js] every line that contains a keyword is
    dropped. *)
Theorem filterBoilerplateLines_keeps_content
        (toLowerCase : jsstring -> jsstring) (text line : jsstring) :
  In line (map trim (split LF text)) ->
  let lowerLine := toLowerCase line in
  let kept := filter (GmailAuth.keep_line toLowerCase)
                     (map trim (split LF text)) in
  (existsb (includes lowerLine) GmailAuth.footerKeywords = true ->
   GmailAuth.keep_line toLowerCase line = false ->
   length line < 5
   \/ (length line <= 100
       /\ rtest GmailAuth.re_footer_prefix lowerLine = true))
  /\ (5 <= length line ->
      100 < length line
      \/ rtest GmailAuth.re_footer_prefix lowerLine = false ->
      In line kept)
  /\ GmailAuth.filterBoilerplateLines toLowerCase text = join [LF] kept
  /\ (existsb (includes lowerLine) EmailProcessor.footerKeywords = true ->
      EmailProcessor.keep_line toLowerCase line = false).
Proof.
  intros Hin lowerLine kept.
  split; [|split; [|split; [reflexivity|]]].
  - intros Hkw Hdrop. unfold GmailAuth.keep_line in Hdrop.
    fold lowerLine in Hdrop.
    destruct (length line <? 5) eqn:H5.
    + left. now apply Nat.ltb_lt.
    + right. rewrite Hkw in Hdrop.
      apply orb_false_iff in Hdrop as [Hlong Hpre].
      apply Nat.ltb_ge in Hlong. apply negb_false_iff in Hpre. auto.
  - intros H5 Hcase. apply filter_In. split; [exact Hin|].
    unfold GmailAuth.keep_line. fold lowerLine.
    replace (length line <? 5) with false
      by (symmetry; apply Nat.ltb_ge; lia).
    destruct (existsb (includes lowerLine) GmailAuth.footerKeywords);
      [|reflexivity].
    destruct Hcase as [Hlong|Hpre].
    + apply Nat.ltb_lt in Hlong. rewrite Hlong. reflexivity.
    + rewrite Hpre. apply orb_true_r.
  - intros Hkw. unfold EmailProcessor.keep_line. fold lowerLine.
    rewrite Hkw. destruct (length line <? 5); reflexivity.
Qed.

(** The filter of [src/gmail-auth.js] on the line of the sample. *)
Lemma filterBoilerplateLines_keeps_content_witness :
  In keyword_amid_content (map trim (split LF keyword_amid_content))
  /\ In keyword_amid_content
        (filter (GmailAuth.keep_line ascii_toLowerCase)
                (map trim (split LF keyword_amid_content))).
Proof.
  assert (Hin : In keyword_amid_content
                   (map trim (split LF keyword_amid_content))).
  { vm_compute. left. reflexivity. }
  split; [exact Hin|].
  apply (filterBoilerplateLines_keeps_content
           ascii_toLowerCase keyword_amid_content keyword_amid_content Hin).
  - vm_compute. lia.
  - left. vm_compute. lia.
Defined.

(** ** The document tree *)

Lemma node_induction (P : node -> Prop) :
  (forall d, P (TextNode d)) ->
  (forall d, P (Comment d)) ->
  (forall i nm at_ cs, Forall P cs -> P (Element i nm at_ cs)) ->
  forall n, P n.
Proof.
  intros Ht Hc He.
  fix IH 1. intros [d|d|i nm at_ cs].
  - apply Ht.
  - apply Hc.
  - apply He. induction cs as [|c cs IHcs]; constructor.
    + apply IH.
    + exact IHcs.
Qed.

Lemma prune_element q i nm at_ cs :
  prune q (Element i nm at_ cs) = Element i nm at_ (prune_doc q cs).
Proof.
  cbn [prune]. f_equal. induction cs as [|c cs IH]; [reflexivity|].
  cbn [prune_doc]. destruct (q c); now rewrite IH.
Qed.

Lemma select_in_element p i nm at_ cs :
  select_in p (Element i nm at_ cs)
  = (if p (Element i nm at_ cs) then [Element i nm at_ cs] else [])
    ++ select p cs.
Proof.
  reflexivity.
Qed.

Lemma nextAll_in_element p i nm at_ cs :
  nextAll_in p (Element i nm at_ cs) = nextAll p cs.
Proof.
  reflexivity.
Qed.

Lemma ids_app a b : ids (a ++ b) = ids a ++ ids b.
Proof. apply flat_map_app. Qed.

Lemma is_hr_shallow : shallow is_hr.
Proof. intros i nm at_ cs cs'. reflexivity. Qed.

Lemma is_element_shallow : shallow is_element.
Proof. intros i nm at_ cs cs'. reflexivity. Qed.

Lemma survives_doc p i cs :
  Forall (survives p i) cs ->
  forall j, In j (ids (select p (prune_doc (has_id i) cs))) ->
            j <> i /\ In j (ids (select p cs)).
Proof.
  induction 1 as [|c cs Hc _ IH]; intros j Hj; [simpl in Hj; tauto|].
  cbn [prune_doc] in Hj. cbn [select flat_map]. rewrite ids_app.
  destruct (has_id i c) eqn:Hic.
  - destruct (IH j Hj) as [? ?]. split; [assumption|].
    apply in_or_app. now right.
  - cbn [select flat_map] in Hj. rewrite ids_app in Hj.
    apply in_app_or in Hj as [Hj|Hj].
    + destruct (Hc j Hic Hj) as [? ?]. split; [assumption|].
      apply in_or_app. now left.
    + destruct (IH j Hj) as [? ?]. split; [assumption|].
      apply in_or_app. now right.
Qed.

Lemma survives_node p i : shallow p -> forall n, survives p i n.
Proof.
  intros Hp.
  induction n as [d|d|k nm at_ cs IHcs] using node_induction;
    intros j Hk Hj; try (simpl in Hj; tauto).
  rewrite prune_element, select_in_element in Hj.
  rewrite select_in_element. rewrite ids_app in *.
  rewrite (Hp k nm at_ _ cs) in Hj.
  apply in_app_or in Hj as [Hj|Hj].
  - destruct (p (Element k nm at_ cs)); [|simpl in Hj; tauto].
    simpl in Hj. destruct Hj as [<-|[]].
    simpl in Hk. apply Nat.eqb_neq in Hk.
    split; [exact Hk|]. apply in_or_app. left. simpl. tauto.
  - destruct (survives_doc p i cs IHcs j Hj) as [? ?].
    split; [assumption|]. apply in_or_app. now right.
Qed.

Lemma select_after_remove p i :
  shallow p ->
  forall d j,
  In j (ids (select p (remove i d))) -> j <> i /\ In j (ids (select p d)).
Proof.
  intros Hp d. unfold remove. apply survives_doc.
  apply Forall_forall. intros n _. now apply survives_node.
Qed.

Lemma select_after_remove_all p :
  shallow p ->
  forall sel d j,
  In j (ids (select p (remove_all sel d))) ->
  ~ In j sel /\ In j (ids (select p d)).
Proof.
  intros Hp. unfold remove_all.
  induction sel as [|i sel IH]; intros d j Hj; simpl in *; [tauto|].
  destruct (IH _ _ Hj) as [Hsel Hd].
  destruct (select_after_remove p i Hp d j Hd) as [Hne Hin].
  split; [|exact Hin]. intros [->|H]; tauto.
Qed.

Lemma select_ids_nil p d : ids (select p d) = [] -> select p d = [].
Proof.
  assert (Hn : forall n, Forall (fun e => is_element e = true) (select_in p n)).
  { induction n as [t|t|k nm at_ cs IHcs] using node_induction;
      try constructor.
    rewrite select_in_element. apply Forall_app. split.
    - destruct (p _); constructor; [reflexivity|constructor].
    - unfold select. induction IHcs; simpl; [constructor|].
      apply Forall_app. now split. }
  assert (Hd : Forall (fun e => is_element e = true) (select p d)).
  { unfold select. induction d; simpl; [constructor|].
    apply Forall_app. split; [apply Hn|assumption]. }
  destruct (select p d) as [|e l]; [reflexivity|].
  inversion Hd as [|? ? He _]; subst. destruct e; discriminate.
Qed.

Lemma remove_selected p d :
  shallow p -> select p (remove_all (ids (select p d)) d) = [].
Proof.
  intros Hp. apply select_ids_nil.
  destruct (ids (select p (remove_all (ids (select p d)) d)))
    as [|j l] eqn:E; [reflexivity|].
  assert (Hj : In j (ids (select p (remove_all (ids (select p d)) d)))).
  { rewrite E. now left. }
  apply (select_after_remove_all p Hp) in Hj as [H1 H2]. contradiction.
Qed.

(** After the two [hr] statements no [hr] element is attached, and no
    element that followed an [hr] among its siblings. *)
Lemma remove_after_hr_spec d :
  select is_hr (remove_after_hr d) = []
  /\ forall j, In j (ids (nextAll is_hr d)) ->
       ~ In j (doc_ids (remove_after_hr d)).
Proof.
  unfold remove_after_hr. split.
  - apply remove_selected. exact is_hr_shallow.
  - intros j Hj Hin. unfold doc_ids in Hin.
    apply (select_after_remove_all is_element is_element_shallow) in Hin
      as [_ Hin].
    apply (select_after_remove_all is_element is_element_shallow) in Hin
      as [Hnot _].
    contradiction.
Qed.

(** C5, as stated, fails.  Content that comes after an [hr] in document
    order stays when it is outside the parent of the [hr], or when it is
    text and no element; and the example of the specification does not
    clean to [Hello]: the word [unsubscribe] is in the text of the [html]
    element itself, so the [$('*').each] loop detaches the whole document
    before the [hr] statements run, and the result is empty once the
    libraries serialize and convert the empty document to the empty
    string. *)
Lemma hr_not_a_hard_delimiter :
  removeBoilerplate ascii_toLowerCase nested_separator_doc
  = page 0 [el 3 "div" [el 4 "p" [txt "Hello"]];
            el 6 "p" [txt "Kind words after"]]
  /\ removeBoilerplate ascii_toLowerCase text_after_separator_doc
     = page 0 [el 3 "div" [txt "Hello"; txt "Regards from John"]]
  /\ removeBoilerplate ascii_toLowerCase separator_doc = []
  /\ (forall cheerio_load cheerio_html convert,
        cheerio_load separator_html = separator_doc ->
        cheerio_html [] = [] ->
        convert [] = [] ->
        EmailProcessor.enhancedCleanEmailContent
          ascii_toLowerCase cheerio_load cheerio_html convert separator_html
        = []
        /\ GmailAuth.enhancedCleanEmailContent
             ascii_toLowerCase cheerio_load cheerio_html convert separator_html
           = []).
Proof.
  split; [vm_compute; reflexivity|].
  split; [vm_compute; reflexivity|].
  assert (Hdoc : removeBoilerplate ascii_toLowerCase separator_doc = [])
    by (vm_compute; reflexivity).
  split; [exact Hdoc|].
  intros cheerio_load cheerio_html convert Hload Hhtml Hconvert.
  assert (Hflat : flatten_html ascii_toLowerCase cheerio_load cheerio_html
                               convert separator_html = []).
  { unfold flatten_html, convertHTMLToText.
    replace (removeScriptAndStyle separator_html) with separator_html
      by (vm_compute; reflexivity).
    rewrite Hload, Hdoc, Hhtml, Hconvert. vm_compute. reflexivity. }
  unfold EmailProcessor.enhancedCleanEmailContent,
    EmailProcessor.cleaned_text, GmailAuth.enhancedCleanEmailContent.
  change separator_html with (60%N :: tl separator_html).
  cbv beta iota.
  change (60%N :: tl separator_html) with separator_html.
  rewrite Hflat. split; vm_compute; reflexivity.
Qed.

(** C5, amended: [removeBoilerplate] ends by detaching every
    horizontal-rule element, not only the first, together with every
    element that follows one among its siblings; no [hr] element is left
    in the document it returns.  [<p>Hello</p><hr><p>Bye for now</p>] is
    left with the paragraph [Hello] alone. *)
Theorem removeBoilerplate_hr (toLowerCase : jsstring -> jsstring)
        (d : Document) :
  let before := remove_footer_elements toLowerCase d in
  removeBoilerplate toLowerCase d = remove_after_hr before
  /\ select is_hr (removeBoilerplate toLowerCase d) = []
  /\ (forall j, In j (ids (nextAll is_hr before)) ->
                ~ In j (doc_ids (removeBoilerplate toLowerCase d)))
  /\ removeBoilerplate ascii_toLowerCase plain_separator_doc
     = page 0 [el 3 "p" [txt "Hello"]].
Proof.
  intros before. unfold removeBoilerplate. fold before.
  destruct (remove_after_hr_spec before) as [Hnone Hnext].
  split; [reflexivity|]. split; [exact Hnone|].
  split; [exact Hnext|vm_compute; reflexivity].
Qed.

(** ** The length cap of [src/email-processor.js] *)

Lemma truncate_length text : length (EmailProcessor.truncate text) <= 2003.
Proof.
  unfold EmailProcessor.truncate.
  destruct (2000 <? length text) eqn:H.
  - unfold substring. rewrite length_app, length_firstn.
    change (length (js "...")) with 3. lia.
  - apply Nat.ltb_ge in H. lia.
Qed.

(** C10: in [src/email-processor.js], [enhancedCleanEmailContent] ends by
    cutting every result longer than 2000 characters to its first 2000
    characters followed by [...], so its output is never longer than 2003
    characters, whatever the HTML input; the pipeline of
    [src/gmail-auth.js] has no such cap (a flattened text of 2399
    characters comes out whole, and is cut to 2003 by the other file). *)
Theorem enhancedCleanEmailContent_capped
        (toLowerCase : jsstring -> jsstring)
        (cheerio_load : jsstring -> Document)
        (cheerio_html : Document -> jsstring)
        (convert : jsstring -> jsstring) (html : jsstring) :
  length (EmailProcessor.enhancedCleanEmailContent
            toLowerCase cheerio_load cheerio_html convert html) <= 2003
  /\ (html <> [] ->
      EmailProcessor.enhancedCleanEmailContent
        toLowerCase cheerio_load cheerio_html convert html
      = EmailProcessor.truncate
          (EmailProcessor.cleaned_text
             toLowerCase cheerio_load cheerio_html convert html))
  /\ (forall text,
        EmailProcessor.truncate text
        = if 2000 <? length text then firstn 2000 text ++ js "..." else text)
  /\ GmailAuth.enhancedCleanEmailContent
       ascii_toLowerCase (fun _ => []) (fun _ => []) (fun _ => numbered_text)
       (js "<p>x</p>")
     = numbered_text
  /\ length numbered_text = 2399
  /\ EmailProcessor.enhancedCleanEmailContent
       ascii_toLowerCase (fun _ => []) (fun _ => []) (fun _ => numbered_text)
       (js "<p>x</p>")
     = firstn 2000 numbered_text ++ js "...".
Proof.
  split; [|split; [|split; [|split; [|split]]]].
  - unfold EmailProcessor.enhancedCleanEmailContent.
    destruct html; [simpl; lia|]. apply truncate_length.
  - destruct html; [congruence|reflexivity].
  - intros text. reflexivity.
  - vm_compute. reflexivity.
  - vm_compute. reflexivity.
  - vm_compute. reflexivity.
Qed.

(** ** [decodeEmailBody] *)

Lemma MessagePart_induction (P : MessagePart -> Prop) :
  (forall m b, P (mkPart m b None)) ->
  (forall m b ps, Forall P ps -> P (mkPart m b (Some ps))) ->
  forall p, P p.
Proof.
  intros Hleaf Hnode.
  fix IH 1. intros [m b [ps|]].
  - apply Hnode. induction ps as [|p ps IHps]; constructor.
    + apply IH.
    + exact IHps.
  - apply Hleaf.
Qed.

Section DecodeFacts.
Variable base64_utf8 : jsstring -> jsstring.
Variable cleanPlainText : jsstring -> jsstring.
Variable enhancedCleanEmailContent : jsstring -> jsstring.

Abbreviation decodePart' :=
  (decodePart base64_utf8 cleanPlainText enhancedCleanEmailContent).
Abbreviation decodeEmailBody' :=
  (decodeEmailBody base64_utf8 cleanPlainText enhancedCleanEmailContent).
Abbreviation decode_each' :=
  (decode_each base64_utf8 cleanPlainText enhancedCleanEmailContent).
Abbreviation decode_first' :=
  (decode_first base64_utf8 cleanPlainText enhancedCleanEmailContent).
Abbreviation decode_children' :=
  (decode_children base64_utf8 cleanPlainText enhancedCleanEmailContent).

Lemma decodePart_eq part :
  decodePart' part =
  (c1 <- leaf_data text_plain part ;;
   if truthy c1 then
     d <- read_data (body part) ;;
     plain <- buffer_from base64_utf8 d ;;
     Ok (cleanPlainText plain)
   else
     c2 <- leaf_data text_html part ;;
     if truthy c2 then
       d <- read_data (body part) ;;
       html <- buffer_from base64_utf8 d ;;
       Ok (enhancedCleanEmailContent html)
     else decode_children' part).
Proof.
  destruct part as [m b [ps|]]; [|reflexivity].
  cbn [decodePart]. unfold decode_children. cbn [parts].
  assert (Hfirst : forall t l,
    (fix first (t : jsstring) (l : list MessagePart)
       : option (outcome jsstring) :=
       match l with
       | [] => None
       | p :: l' => if has_type t p then Some (decodePart' p) else first t l'
       end) t l = decode_first' t l).
  { intros t l. unfold decode_first.
    induction l as [|p l IH]; [reflexivity|].
    cbn [find]. destruct (has_type t p); [reflexivity|exact IH]. }
  rewrite !Hfirst. reflexivity.
Qed.

Lemma leaf_data_ok t part :
  exists c, leaf_data t part = Ok c
            /\ (truthy c = true ->
                read_data (body part) = Ok c /\ exists s, c = Some s).
Proof.
  unfold leaf_data, body_and_data.
  destruct (has_type t part).
  - destruct (body part) as [[d]|]; simpl.
    + exists d. split; [reflexivity|]. intros Hd. split; [reflexivity|].
      destruct d; [eauto|discriminate].
    + exists None. split; [reflexivity|]. discriminate.
  - exists None. split; [reflexivity|]. discriminate.
Qed.

Lemma decode_each_total ps :
  Forall (fun p => exists s, decodePart' p = Ok s) ps ->
  exists ts, decode_each' ps = Ok ts.
Proof.
  induction 1 as [|p ps [s Hs] _ [ts IH]]; [exists []; reflexivity|].
  exists (s :: ts). cbn [decode_each]. rewrite Hs, IH. reflexivity.
Qed.

Lemma decode_first_total t ps :
  Forall (fun p => exists s, decodePart' p = Ok s) ps ->
  match decode_first' t ps with
  | Some r => exists s, r = Ok s
  | None => True
  end.
Proof.
  unfold decode_first. induction 1 as [|p ps Hp _ IH]; [exact I|].
  cbn [find]. destruct (has_type t p); [exact Hp|exact IH].
Qed.

Lemma decodePart_total part : exists s, decodePart' part = Ok s.
Proof.
  induction part as [m b|m b ps IH] using MessagePart_induction;
    rewrite decodePart_eq;
    set (part := mkPart m b _);
    destruct (leaf_data_ok text_plain part) as (c1 & -> & H1);
    destruct (leaf_data_ok text_html part) as (c2 & E2 & H2);
    cbn [bind].
  1, 2: destruct (truthy c1);
    [destruct (H1 eq_refl) as (-> & s & ->); cbn; eauto|].
  1, 2: rewrite E2; cbn [bind]; destruct (truthy c2);
    [destruct (H2 eq_refl) as (-> & s & ->); cbn; eauto|].
  - exists []. reflexivity.
  - unfold decode_children. cbn [parts part].
    destruct (decode_each_total ps IH) as [ts Hts].
    pose proof (decode_first_total text_plain ps IH) as Hp.
    pose proof (decode_first_total text_html ps IH) as Hh.
    destruct (has_type multipart_alternative part).
    + destruct (decode_first' text_plain ps); [exact Hp|].
      destruct (decode_first' text_html ps); [exact Hh|].
      rewrite Hts. cbn. eauto.
    + rewrite Hts. cbn. eauto.
Qed.

Lemma decodePart_empty_leaf m b :
  truthy (match b with Some b' => data b' | None => None end) = false ->
  decodePart' (mkPart m b None) = Ok [].
Proof.
  intros Hd. rewrite decodePart_eq.
  unfold leaf_data, body_and_data, decode_children. cbn [body parts].
  destruct b as [[d]|]; cbn [data read_data] in *.
  - destruct (has_type text_plain _), (has_type text_html _);
      cbn [bind]; rewrite ?Hd; reflexivity.
  - destruct (has_type text_plain _), (has_type text_html _); reflexivity.
Qed.

(** *** The call stack *)

Abbreviation decodeEmailBody_on_stack' :=
  (decodeEmailBody_on_stack base64_utf8 cleanPlainText
     enhancedCleanEmailContent).

Lemma height_pos p : 1 <= height p.
Proof. destruct p. cbn [height]. lia. Qed.

Lemma height_child m b ps c :
  In c ps -> height c < height (mkPart m b (Some ps)).
Proof.
  cbn [height]. induction ps as [|p ps IH]; intros H; [destruct H|].
  destruct H as [->|H]; [lia|]. specialize (IH H). lia.
Qed.

Lemma map_outcome_each (f : MessagePart -> outcome jsstring) ps :
  (forall p, In p ps -> f p = decodePart' p) ->
  map_outcome f ps = decode_each' ps.
Proof.
  induction ps as [|p ps IH]; intros H; [reflexivity|].
  cbn [map_outcome decode_each].
  rewrite (H p (or_introl eq_refl)), IH; [reflexivity|].
  intros q Hq. apply H. now right.
Qed.

(** On a stack with room for the nesting of the tree, the function
    returns what the structural recursion computes. *)
Lemma decodeEmailBody_on_stack_fits frames : forall part,
  depth part <= frames ->
  decodeEmailBody_on_stack' frames part = decodeEmailBody' part.
Proof.
  induction frames as [|frames IH]; intros part H.
  - destruct part as [p|]; cbn [depth] in H; [|lia].
    pose proof (height_pos p). lia.
  - destruct part as [part|]; [|reflexivity].
    cbn [decodeEmailBody_on_stack decodeEmailBody depth] in *.
    rewrite decodePart_eq.
    assert (Hkids : forall ps, parts part = Some ps ->
              forall p, In p ps ->
              decodeEmailBody_on_stack' frames (Some p) = decodePart' p).
    { intros ps Hps p Hp. rewrite IH; [reflexivity|]. cbn [depth].
      destruct part as [m b ps']. cbn [parts] in Hps. subst ps'.
      pose proof (height_child m b ps p Hp). lia. }
    destruct (leaf_data text_plain part) as [c1|]; cbn [bind]; [|reflexivity].
    destruct (truthy c1); [reflexivity|].
    destruct (leaf_data text_html part) as [c2|]; cbn [bind]; [|reflexivity].
    destruct (truthy c2); [reflexivity|].
    unfold decode_children, decode_first.
    destruct (parts part) as [ps|]; [|reflexivity].
    specialize (Hkids ps eq_refl).
    rewrite (map_outcome_each _ ps Hkids).
    destruct (has_type multipart_alternative part); [|reflexivity].
    destruct (find (has_type text_plain) ps) as [p|] eqn:E1.
    { cbn [option_map]. apply Hkids. now apply find_some in E1 as [? _]. }
    destruct (find (has_type text_html) ps) as [p|] eqn:E2.
    { cbn [option_map]. apply Hkids. now apply find_some in E2 as [? _]. }
    reflexivity.
Qed.

Lemma nested_throws frames :
  decodeEmailBody_on_stack' frames (Some (nested frames)) = Throw.
Proof.
  induction frames as [|frames IH]; [reflexivity|].
  cbn [nested decodeEmailBody_on_stack leaf_data has_type mimeType parts
       bind truthy map_outcome].
  rewrite IH. reflexivity.
Qed.

(** C2, amended: for every [MessagePart] tree, [null] included,
    whatever fields are absent, that is nested no deeper than the call
    stack has room for, [decodeEmailBody] returns a string: it does not
    throw, and it returns what the recursion over the tree computes; a
    part without children whose body or body data is absent (or empty)
    decodes to the empty string. *)
Theorem decodeEmailBody_within_stack (frames : nat)
        (part : option MessagePart) :
  depth part <= frames ->
  (exists s : jsstring, decodeEmailBody_on_stack' frames part = Ok s)
  /\ decodeEmailBody_on_stack' frames part = decodeEmailBody' part
  /\ decodeEmailBody_on_stack' frames None = Ok []
  /\ (forall m b,
        truthy (match b with Some b' => data b' | None => None end) = false ->
        decodeEmailBody_on_stack' frames (Some (mkPart m b None)) = Ok []).
Proof.
  intros H.
  assert (Hpos : 1 <= frames).
  { destruct part as [p|]; cbn [depth] in H; [|exact H].
    pose proof (height_pos p). lia. }
  split; [|split; [now apply decodeEmailBody_on_stack_fits|split]].
  - rewrite decodeEmailBody_on_stack_fits by exact H.
    destruct part as [p|]; [apply decodePart_total|exists []; reflexivity].
  - destruct frames; [lia|reflexivity].
  - intros m b Hd. rewrite decodeEmailBody_on_stack_fits by exact Hpos.
    now apply decodePart_empty_leaf.
Qed.

Lemma has_type_alternative b ps t :
  str_eqb multipart_alternative t = false ->
  leaf_data t (mkPart (Some multipart_alternative) b (Some ps)) = Ok None.
Proof.
  intros Ht. unfold leaf_data, has_type. cbn [mimeType]. now rewrite Ht.
Qed.

Lemma decodePart_leaf t clean part s :
  (t = text_plain /\ clean = cleanPlainText
   \/ t = text_html /\ clean = enhancedCleanEmailContent) ->
  has_type t part = true ->
  body part = Some (mkBody (Some s)) ->
  s <> [] ->
  decodePart' part = Ok (clean (base64_utf8 s)).
Proof.
  intros Ht Htype Hbody Hs. rewrite decodePart_eq.
  unfold leaf_data, body_and_data. rewrite Hbody. cbn [read_data data].
  assert (Hd : truthy (Some s) = true) by (destruct s; [congruence|reflexivity]).
  destruct Ht as [[-> ->]|[-> ->]].
  - rewrite Htype. cbn [bind]. rewrite Hd. reflexivity.
  - rewrite Htype.
    assert (Hp : has_type text_plain part = false).
    { unfold has_type in *. destruct (mimeType part) as [m|]; [|reflexivity].
      apply str_eqb_eq in Htype. subst m. reflexivity. }
    rewrite Hp. cbn [bind]. change (truthy None) with false. cbv iota.
    rewrite Hd. reflexivity.
Qed.

(** C3: a [multipart/alternative] node with children decodes to what its
    first [text/plain] child decodes to, so with a plain-text child that
    carries body data the result is that child's cleaned text and no HTML
    child is used; without a plain-text child it decodes to what its first
    [text/html] child decodes to; with neither, to the decoded children
    joined by line feeds. *)
Theorem decodeEmailBody_alternative
        (b : option MessagePartBody) (ps : list MessagePart) :
  let part := mkPart (Some multipart_alternative) b (Some ps) in
  decodeEmailBody' (Some part)
  = match find (has_type text_plain) ps with
    | Some plainPart => decodeEmailBody' (Some plainPart)
    | None =>
        match find (has_type text_html) ps with
        | Some htmlPart => decodeEmailBody' (Some htmlPart)
        | None => ts <- decode_each' ps ;; Ok (join [LF] ts)
        end
    end
  /\ (forall plainPart s,
        find (has_type text_plain) ps = Some plainPart ->
        body plainPart = Some (mkBody (Some s)) -> s <> [] ->
        decodeEmailBody' (Some part) = Ok (cleanPlainText (base64_utf8 s)))
  /\ (forall htmlPart s,
        find (has_type text_plain) ps = None ->
        find (has_type text_html) ps = Some htmlPart ->
        body htmlPart = Some (mkBody (Some s)) -> s <> [] ->
        decodeEmailBody' (Some part)
        = Ok (enhancedCleanEmailContent (base64_utf8 s)))
  /\ (forall plain html, plain <> [] ->
        decodeEmailBody' (Some (sample_alternative plain html))
        = Ok (cleanPlainText (base64_utf8 plain))).
Proof.
  intros part.
  assert (Heq : decodeEmailBody' (Some part)
    = match find (has_type text_plain) ps with
      | Some plainPart => decodeEmailBody' (Some plainPart)
      | None =>
          match find (has_type text_html) ps with
          | Some htmlPart => decodeEmailBody' (Some htmlPart)
          | None => ts <- decode_each' ps ;; Ok (join [LF] ts)
          end
      end).
  { cbn [decodeEmailBody]. rewrite decodePart_eq. subst part.
    rewrite !has_type_alternative by reflexivity. cbn [bind truthy].
    unfold decode_children, decode_first, has_type at 1.
    cbn [parts mimeType]. rewrite str_eqb_refl.
    destruct (find (has_type text_plain) ps); [reflexivity|].
    destruct (find (has_type text_html) ps); reflexivity. }
  split; [exact Heq|]. split; [|split].
  - intros plainPart s Hfind Hbody Hs. rewrite Heq, Hfind.
    apply find_some in Hfind as [_ Htype].
    apply (decodePart_leaf text_plain); auto.
  - intros htmlPart s Hnone Hfind Hbody Hs. rewrite Heq, Hnone, Hfind.
    apply find_some in Hfind as [_ Htype].
    apply (decodePart_leaf text_html); auto.
  - intros plain html Hplain.
    cbn [decodeEmailBody]. rewrite decodePart_eq.
    unfold sample_alternative.
    rewrite !has_type_alternative by reflexivity. cbn [bind truthy].
    unfold decode_children, decode_first. cbn -[decodePart].
    apply (decodePart_leaf text_plain); auto.
Qed.

End DecodeFacts.

(** A message with two alternatives, on a stack with room for two nested
    calls. *)
Lemma decodeEmailBody_within_stack_witness :
  depth (Some (sample_alternative (js "aGk=") (js "PGI+"))) <= 2
  /\ decodeEmailBody_on_stack ascii_toLowerCase ascii_toLowerCase
       ascii_toLowerCase 2
       (Some (sample_alternative (js "aGk=") (js "PGI+")))
     = Ok (js "agk=").
Proof.
  assert (H : depth (Some (sample_alternative (js "aGk=") (js "PGI+"))) <= 2).
  { vm_compute. lia. }
  split; [exact H|].
  destruct (decodeEmailBody_within_stack ascii_toLowerCase ascii_toLowerCase
              ascii_toLowerCase 2 _ H) as (_ & -> & _).
  vm_compute. reflexivity.
Defined.

(** C2, as stated, fails: the tree is finite, no field that is read is
    missing, and the call throws.  A part nested as many times as the
    stack has room for nested calls needs one call more, whatever the
    room is: 4001 nested calls for the part nested 4000 times. *)
Lemma decodeEmailBody_deep_tree_throws :
  height (nested 4000) = 4001
  /\ decodeEmailBody_on_stack ascii_toLowerCase ascii_toLowerCase
       ascii_toLowerCase 4000 (Some (nested 4000)) = Throw
  /\ (forall frames base64_utf8 cleanPlainText enhancedCleanEmailContent,
        decodeEmailBody_on_stack base64_utf8 cleanPlainText
          enhancedCleanEmailContent frames (Some (nested frames)) = Throw).
Proof.
  split; [vm_compute; reflexivity|].
  split; [apply nested_throws|].
  intros frames base64_utf8 cleanPlainText enhancedCleanEmailContent.
  apply nested_throws.
Qed.

(** ** The insertion sort behind [Array.prototype.sort] *)

Section SortFacts.
Variable A : Type.
Variable cmp : A -> A -> Z.

Lemma insert_from_right_perm acc x :
  Permutation (insert_from_right cmp acc x) (x :: acc).
Proof.
  induction acc as [|y acc IH]; simpl; [reflexivity|].
  destruct (cmp x y <? 0)%Z; [|reflexivity].
  rewrite IH. apply perm_swap.
Qed.

Lemma fold_insert_perm l : forall acc,
  Permutation (fold_left (insert_from_right cmp) l acc) (rev l ++ acc).
Proof.
  induction l as [|x l IH]; intros acc; simpl; [reflexivity|].
  rewrite IH, insert_from_right_perm, <- app_assoc. simpl.
  apply Permutation_app_head. reflexivity.
Qed.

(** Elements that compare below nothing stay in place. *)
Lemma js_sort_fixed l :
  (forall x y, In x l -> (cmp x y <? 0)%Z = false) -> js_sort cmp l = l.
Proof.
  intros H. unfold js_sort.
  assert (Hfold : forall l' acc,
             (forall x y, In x l' -> (cmp x y <? 0)%Z = false) ->
             fold_left (insert_from_right cmp) l' acc = rev l' ++ acc).
  { induction l' as [|x l' IH]; intros acc Hl'; [reflexivity|].
    cbn [fold_left rev]. rewrite IH by (intros; apply Hl'; now right).
    rewrite <- app_assoc. f_equal.
    destruct acc as [|y acc]; [reflexivity|].
    cbn [insert_from_right app]. rewrite (Hl' x y); [reflexivity|now left]. }
  rewrite (Hfold l [] H), app_nil_r. apply rev_involutive.
Qed.

Lemma js_sort_perm l : Permutation (js_sort cmp l) l.
Proof.
  unfold js_sort. rewrite <- Permutation_rev, fold_insert_perm.
  rewrite app_nil_r. symmetry. apply Permutation_rev.
Qed.

(** *** Stability: elements of one class never pass each other when the
    comparator is negative between different classes only. *)
Variable cls : A -> bool.
Hypothesis cmp_classes :
  forall x y, (cmp x y < 0)%Z -> cls x = true -> cls y = false.

Lemma insert_from_right_filter acc x :
  filter cls (insert_from_right cmp acc x)
  = if cls x then x :: filter cls acc else filter cls acc.
Proof.
  induction acc as [|y acc IH]; simpl.
  - destruct (cls x); reflexivity.
  - destruct (cmp x y <? 0)%Z eqn:Hlt.
    + apply Z.ltb_lt in Hlt. simpl. rewrite IH.
      destruct (cls x) eqn:Hx.
      * now rewrite (cmp_classes x y Hlt Hx).
      * reflexivity.
    + simpl. destruct (cls x); reflexivity.
Qed.

Lemma fold_insert_filter l : forall acc,
  filter cls (fold_left (insert_from_right cmp) l acc)
  = rev (filter cls l) ++ filter cls acc.
Proof.
  induction l as [|x l IH]; intros acc; simpl; [reflexivity|].
  rewrite IH, insert_from_right_filter.
  destruct (cls x); simpl; [|reflexivity].
  now rewrite <- app_assoc.
Qed.

Lemma filter_rev (f : A -> bool) l : filter f (rev l) = rev (filter f l).
Proof.
  induction l as [|x l IH]; simpl; [reflexivity|].
  rewrite filter_app, IH. simpl. destruct (f x); simpl.
  - reflexivity.
  - now rewrite app_nil_r.
Qed.

Lemma js_sort_stable l : filter cls (js_sort cmp l) = filter cls l.
Proof.
  unfold js_sort. rewrite filter_rev, fold_insert_filter.
  simpl. rewrite app_nil_r. apply rev_involutive.
Qed.
End SortFacts.

Section SortedFacts.
Variable A : Type.
Variable cmp : A -> A -> Z.
Variable key : A -> Z.
(** The elements on which the comparator is the difference of the keys. *)
Variable ok : A -> Prop.
Hypothesis cmp_key : forall x y, ok x -> ok y -> cmp x y = (key x - key y)%Z.

Lemma insert_from_right_In acc x y :
  In y (insert_from_right cmp acc x) -> y = x \/ In y acc.
Proof.
  intros H. apply (Permutation_in _ (insert_from_right_perm A cmp acc x)) in H.
  destruct H; auto.
Qed.

Lemma insert_from_right_sorted acc x :
  ok x -> Forall ok acc ->
  StronglySorted Z.ge (map key acc) ->
  StronglySorted Z.ge (map key (insert_from_right cmp acc x)).
Proof.
  intros Hx. induction acc as [|y acc IH]; intros Hok Hs; simpl.
  - constructor; constructor.
  - inversion Hok as [|? ? Hy Hacc]; subst.
    simpl in Hs. inversion Hs as [|? ? Hs' Hall]; subst.
    rewrite (cmp_key x y Hx Hy).
    destruct (key x - key y <? 0)%Z eqn:Hlt.
    + apply Z.ltb_lt in Hlt. simpl. constructor; [now apply IH|].
      apply Forall_forall. intros k Hk. apply in_map_iff in Hk as (z & <- & Hz).
      apply insert_from_right_In in Hz as [->|Hz]; [lia|].
      rewrite Forall_forall in Hall. apply Hall. now apply in_map.
    + apply Z.ltb_ge in Hlt. simpl. constructor; [exact Hs|].
      constructor; [lia|].
      rewrite Forall_forall in Hall |- *. intros k Hk.
      specialize (Hall k Hk). lia.
Qed.

Lemma fold_insert_sorted l : forall acc,
  Forall ok l -> Forall ok acc ->
  StronglySorted Z.ge (map key acc) ->
  StronglySorted Z.ge (map key (fold_left (insert_from_right cmp) l acc)).
Proof.
  induction l as [|x l IH]; intros acc Hl Hacc Hs; simpl; [exact Hs|].
  inversion Hl as [|? ? Hx Hl']; subst.
  apply IH; [exact Hl'| |now apply insert_from_right_sorted].
  apply Forall_forall. intros y Hy.
  apply insert_from_right_In in Hy as [->|Hy]; [exact Hx|].
  rewrite Forall_forall in Hacc. now apply Hacc.
Qed.

Lemma StronglySorted_rev_ge (ks : list Z) :
  StronglySorted Z.ge ks -> StronglySorted Z.le (rev ks).
Proof.
  induction 1 as [|k ks Hs IH Hall]; simpl; [constructor|].
  assert (Happ : forall l, StronglySorted Z.le l ->
                           Forall (fun y => (y <= k)%Z) l ->
                           StronglySorted Z.le (l ++ [k])).
  { induction 1 as [|y l Hl IHl Hy]; intros Hle; simpl.
    - constructor; constructor.
    - inversion Hle as [|? ? Hyk Hle']; subst.
      constructor; [now apply IHl|].
      apply Forall_app. split; [exact Hy|]. constructor; [exact Hyk|constructor]. }
  apply Happ; [exact IH|].
  apply Forall_forall. intros y Hy. apply in_rev in Hy.
  rewrite Forall_forall in Hall. specialize (Hall y Hy). lia.
Qed.

Lemma js_sort_sorted l :
  Forall ok l -> StronglySorted Z.le (map key (js_sort cmp l)).
Proof.
  intros Hl. unfold js_sort. rewrite map_rev. apply StronglySorted_rev_ge.
  apply fold_insert_sorted; [exact Hl|constructor|constructor].
Qed.
End SortedFacts.

(** ** [organizeEmailsByThread] *)

Lemma str_eqb_neq (a b : jsstring) : str_eqb a b = false <-> a <> b.
Proof.
  split.
  - intros H E. apply str_eqb_eq in E. congruence.
  - intros H. destruct (str_eqb a b) eqn:E; [|reflexivity].
    apply str_eqb_eq in E. contradiction.
Qed.

Lemma str_eqb_dec (a b : jsstring) : {a = b} + {a <> b}.
Proof.
  destruct (str_eqb a b) eqn:E.
  - left. now apply str_eqb_eq.
  - right. now apply str_eqb_neq.
Qed.

Lemma existsb_str_eqb k l : existsb (str_eqb k) l = true <-> In k l.
Proof.
  rewrite existsb_exists. split.
  - intros (x & Hx & E). apply str_eqb_eq in E. now subst.
  - intros H. exists k. split; [exact H|apply str_eqb_refl].
Qed.

Lemma own_None k o : own k o = None <-> ~ In k (map fst o).
Proof.
  induction o as [|[k0 v] o IH]; simpl; [tauto|].
  destruct (str_eqb k0 k) eqn:E.
  - apply str_eqb_eq in E. subst. split; [discriminate|tauto].
  - apply str_eqb_neq in E. rewrite IH. tauto.
Qed.

Lemma own_In k v o : NoDup (map fst o) -> In (k, v) o -> own k o = Some v.
Proof.
  induction o as [|[k0 v0] o IH]; simpl; intros Hnd Hin; [tauto|].
  inversion Hnd as [|? ? Hk0 Hnd']; subst.
  destruct Hin as [E|Hin].
  - injection E as -> ->. now rewrite str_eqb_refl.
  - destruct (str_eqb k0 k) eqn:E; [|now apply IH].
    apply str_eqb_eq in E. subst. exfalso. apply Hk0.
    change k with (fst (k, v)). now apply in_map.
Qed.

Lemma push_keys k e o : map fst (push k e o) = map fst o.
Proof.
  induction o as [|[k0 v] o IH]; simpl; [reflexivity|].
  destruct (str_eqb k0 k); simpl; [reflexivity|now rewrite IH].
Qed.

Lemma own_push k e o k' :
  own k' (push k e o)
  = if str_eqb k k' then option_map (fun v => v ++ [e]) (own k o)
    else own k' o.
Proof.
  induction o as [|[k0 v] o IH]; simpl.
  - destruct (str_eqb k k'); reflexivity.
  - destruct (str_eqb_dec k0 k) as [->|Hk].
    + rewrite str_eqb_refl. simpl. destruct (str_eqb k k'); reflexivity.
    + pose proof Hk as Hk'. apply str_eqb_neq in Hk'. rewrite Hk'. simpl.
      rewrite IH. destruct (str_eqb_dec k k') as [->|Hkk].
      * rewrite str_eqb_refl, Hk'. reflexivity.
      * apply str_eqb_neq in Hkk. rewrite Hkk. reflexivity.
Qed.

Lemma own_app k' o k v :
  own k' (o ++ [(k, v)])
  = match own k' o with
    | Some w => Some w
    | None => if str_eqb k k' then Some v else None
    end.
Proof.
  induction o as [|[k0 w] o IH]; simpl; [reflexivity|].
  destruct (str_eqb k0 k'); [reflexivity|exact IH].
Qed.

Lemma add_email_spec o e :
  inherited (email_threadId e) = false ->
  exists o1,
    add_email o e = Ok o1
    /\ map fst o1 = see (map fst o) (email_threadId e)
    /\ forall k,
         own k o1
         = if str_eqb (email_threadId e) k
           then Some (match own (email_threadId e) o with
                      | Some v => v ++ [e]
                      | None => [e]
                      end)
           else own k o.
Proof.
  intros Hinh. unfold add_email, see. rewrite Hinh.
  destruct (own (email_threadId e) o) as [v|] eqn:Hown.
  - eexists. split; [reflexivity|]. split.
    + rewrite push_keys.
      replace (existsb (str_eqb (email_threadId e)) (map fst o)) with true;
        [reflexivity|].
      symmetry. apply existsb_str_eqb.
      destruct (in_dec str_eqb_dec (email_threadId e) (map fst o)) as [H|H];
        [exact H|].
      apply own_None in H. congruence.
    + intros k. rewrite own_push, Hown. reflexivity.
  - eexists. split; [reflexivity|]. split.
    + rewrite push_keys, map_app. simpl.
      replace (existsb (str_eqb (email_threadId e)) (map fst o)) with false;
        [reflexivity|].
      symmetry. apply not_true_is_false. intros H.
      apply existsb_str_eqb in H. now apply own_None in Hown.
    + intros k. rewrite own_push, !own_app, Hown, str_eqb_refl. simpl.
      destruct (str_eqb (email_threadId e) k) eqn:E; [reflexivity|].
      destruct (own k o); reflexivity.
Qed.

Lemma add_emails_spec emails : forall o,
  Forall (fun e => inherited (email_threadId e) = false) emails ->
  exists o',
    add_emails o emails = Ok o'
    /\ map fst o' = fold_left see (map email_threadId emails) (map fst o)
    /\ forall k,
         own k o'
         = match own k o with
           | Some v => Some (v ++ thread_of k emails)
           | None =>
               match thread_of k emails with
               | [] => None
               | g => Some g
               end
           end.
Proof.
  induction emails as [|e emails IH]; intros o Hinh.
  - exists o. split; [reflexivity|]. split; [reflexivity|].
    intros k. simpl. destruct (own k o); [now rewrite app_nil_r|reflexivity].
  - inversion Hinh as [|? ? He Hrest]; subst.
    destruct (add_email_spec o e He) as (o1 & H1 & Hk1 & Hown1).
    destruct (IH o1 Hrest) as (o' & H' & Hk' & Hown').
    exists o'. split; [|split].
    + cbn [add_emails]. rewrite H1. exact H'.
    + cbn [map fold_left]. rewrite <- Hk1. exact Hk'.
    + intros k. rewrite Hown', Hown1. unfold thread_of. cbn [filter].
      destruct (str_eqb (email_threadId e) k) eqn:E.
      * apply str_eqb_eq in E. subst k.
        destruct (own (email_threadId e) o); [|reflexivity].
        now rewrite <- app_assoc.
      * destruct (own k o); reflexivity.
Qed.

Lemma see_In k acc x : In k (see acc x) <-> In k acc \/ k = x.
Proof.
  unfold see. destruct (existsb (str_eqb x) acc) eqn:E.
  - apply existsb_str_eqb in E. split; [tauto|]. intros [H| ->]; assumption.
  - rewrite in_app_iff. simpl. intuition congruence.
Qed.

Lemma see_NoDup acc x : NoDup acc -> NoDup (see acc x).
Proof.
  intros H. unfold see. destruct (existsb (str_eqb x) acc) eqn:E; [exact H|].
  apply NoDup_app; [exact H| repeat constructor; simpl; tauto |].
  intros k Hk [<-|[]]. apply existsb_str_eqb in Hk. congruence.
Qed.

Lemma fold_see ks : forall acc,
  NoDup acc ->
  NoDup (fold_left see ks acc)
  /\ forall k, In k (fold_left see ks acc) <-> In k acc \/ In k ks.
Proof.
  induction ks as [|x ks IH]; intros acc Hnd; simpl.
  - split; [exact Hnd|]. tauto.
  - destruct (IH (see acc x) (see_NoDup acc x Hnd)) as [H1 H2].
    split; [exact H1|]. intros k. rewrite H2, see_In. intuition congruence.
Qed.

Lemma filter_split {A : Type} (p : A -> bool) l :
  Permutation (filter p l ++ filter (fun x => negb (p x)) l) l.
Proof.
  induction l as [|x l IH]; simpl; [constructor|].
  destruct (p x); simpl.
  - now constructor.
  - rewrite <- Permutation_middle. now constructor.
Qed.

Lemma Object_entries_perm o : Permutation (Object_entries o) o.
Proof.
  unfold Object_entries. rewrite js_sort_perm. apply filter_split.
Qed.

Lemma Object_entries_plain o :
  Forall (fun k => is_index k = false) (map fst o) -> Object_entries o = o.
Proof.
  intros H. unfold Object_entries.
  assert (H1 : filter (fun kv => is_index (fst kv)) o = []
               /\ filter (fun kv => negb (is_index (fst kv))) o = o).
  { induction o as [|[k v] o IH]; simpl in *; [tauto|].
    inversion H as [|? ? Hk Ho]; subst. rewrite Hk. simpl.
    destruct (IH Ho) as [-> ->]. tauto. }
  destruct H1 as [-> ->]. reflexivity.
Qed.

(** *** Array indices *)

Lemma is_digit_range c : is_digit c = true -> (48 <= c <= 57)%N.
Proof.
  unfold is_digit, in_range. intros H. apply andb_true_iff in H as [H1 H2].
  apply N.leb_le in H1. apply N.leb_le in H2. lia.
Qed.

Lemma digits_value_bounds s : forall acc v,
  digits_value acc s = Some v ->
  (acc * 10 ^ N.of_nat (length s) <= v
   /\ v < (acc + 1) * 10 ^ N.of_nat (length s))%N.
Proof.
  induction s as [|c s IH]; intros acc v H; cbn [digits_value] in H.
  - injection H as <-. cbn [length]. change (N.of_nat 0) with 0%N.
    rewrite N.pow_0_r. lia.
  - destruct (is_digit c) eqn:Hc; [|discriminate].
    apply is_digit_range in Hc. apply IH in H.
    cbn [length]. rewrite Nat2N.inj_succ, N.pow_succ_r'.
    set (p := (10 ^ N.of_nat (length s))%N) in *.
    set (d := (c - 48)%N) in *. assert (Hd : (d <= 9)%N) by (subst d; lia).
    clearbody d p. nia.
Qed.

Lemma digits_value_same_length s : forall t acc v,
  length s = length t ->
  digits_value acc s = Some v -> digits_value acc t = Some v -> s = t.
Proof.
  induction s as [|c s IH]; intros [|c' t] acc v Hlen Hs Ht;
    try discriminate; [reflexivity|].
  cbn [digits_value] in Hs, Ht. injection Hlen as Hlen.
  destruct (is_digit c) eqn:Hc; [|discriminate].
  destruct (is_digit c') eqn:Hc'; [|discriminate].
  apply is_digit_range in Hc. apply is_digit_range in Hc'.
  pose proof (digits_value_bounds s _ _ Hs) as Bs.
  pose proof (digits_value_bounds t _ _ Ht) as Bt.
  rewrite <- Hlen in Bt.
  set (p := (10 ^ N.of_nat (length s))%N) in *.
  assert (E : (acc * 10 + (c - 48) = acc * 10 + (c' - 48))%N).
  { clearbody p. nia. }
  assert (Ec : c = c') by lia. subst c'.
  f_equal. exact (IH t _ v Hlen Hs Ht).
Qed.

Lemma array_index_inj k k' v :
  array_index k = Some v -> array_index k' = Some v -> k = k'.
Proof.
  assert (Hcanon : forall c r w,
            array_index (c :: r) = Some w ->
            digits_value 0 (c :: r) = Some w
            /\ (48 <= c <= 57)%N
            /\ ((c = 48%N /\ r = [] /\ w = 0%N)
                \/ (c <> 48%N
                    /\ (10 ^ N.of_nat (length r) <= w
                        < 10 * 10 ^ N.of_nat (length r))%N))).
  { intros c r w H. unfold array_index in H.
    destruct ((c =? 48)%N && (0 <? length r)) eqn:E; [discriminate|].
    destruct (digits_value 0 (c :: r)) as [n|] eqn:D; [|discriminate].
    destruct (n <=? 4294967294)%N; [|discriminate]. injection H as ->.
    split; [reflexivity|].
    cbn [digits_value] in D.
    destruct (is_digit c) eqn:Hc; [|discriminate].
    apply is_digit_range in Hc. split; [exact Hc|].
    pose proof (digits_value_bounds r _ _ D) as B.
    set (p := (10 ^ N.of_nat (length r))%N) in *.
    destruct (c =? 48)%N eqn:E48.
    - apply N.eqb_eq in E48. left. cbn [andb] in E.
      apply Nat.ltb_ge in E. destruct r; [|simpl in E; lia].
      subst c. cbn in D. injection D as <-. auto.
    - apply N.eqb_neq in E48. right. split; [exact E48|].
      clearbody p. nia. }
  intros H H'. destruct k as [|c r]; [discriminate|].
  destruct k' as [|c' r']; [discriminate|].
  destruct (Hcanon _ _ _ H) as (D & Hc & Hk).
  destruct (Hcanon _ _ _ H') as (D' & Hc' & Hk').
  assert (Hpos : forall n, (1 <= 10 ^ N.of_nat n)%N).
  { intros n. pose proof (N.pow_nonzero 10 (N.of_nat n)). lia. }
  destruct Hk as [(-> & -> & ->)|(Hne & B)],
           Hk' as [(-> & -> & E0)|(Hne' & B')].
  - reflexivity.
  - pose proof (Hpos (length r')). lia.
  - pose proof (Hpos (length r)). lia.
  - apply (digits_value_same_length _ _ 0%N v); [|exact D|exact D'].
    cbn [length]. f_equal.
    destruct (Nat.lt_trichotomy (length r) (length r')) as [L|[L|L]];
      [exfalso|exact L|exfalso].
    + assert (10 * 10 ^ N.of_nat (length r) <= 10 ^ N.of_nat (length r'))%N.
      { rewrite <- N.pow_succ_r'. apply N.pow_le_mono_r; lia. }
      lia.
    + assert (10 * 10 ^ N.of_nat (length r') <= 10 ^ N.of_nat (length r))%N.
      { rewrite <- N.pow_succ_r'. apply N.pow_le_mono_r; lia. }
      lia.
Qed.

Lemma index_value_inj k k' :
  is_index k = true -> is_index k' = true ->
  index_value k = index_value k' -> k = k'.
Proof.
  unfold is_index, index_value.
  destruct (array_index k) as [v|] eqn:E; [|discriminate].
  destruct (array_index k') as [v'|] eqn:E'; [|discriminate].
  intros _ _ H. apply N2Z.inj in H. subst v'.
  exact (array_index_inj _ _ _ E E').
Qed.

Lemma NoDup_map_in {A B : Type} (f : A -> B) l :
  (forall x y, In x l -> In y l -> f x = f y -> x = y) ->
  NoDup l -> NoDup (map f l).
Proof.
  intros Hinj. induction 1 as [|x l Hx Hl IH]; [constructor|].
  cbn [map]. constructor.
  - intros Hin. apply in_map_iff in Hin as (y & E & Hy).
    apply Hx. rewrite (Hinj x y); [exact Hy|now left|now right|].
    now symmetry.
  - apply IH. intros a b Ha Hb. apply Hinj; now right.
Qed.

Lemma strictly_sorted l :
  StronglySorted Z.le l -> NoDup l -> StronglySorted Z.lt l.
Proof.
  induction 1 as [|x l Hl IH Hx]; intros Hnd; [constructor|].
  inversion Hnd as [|? ? Hnot Hnd']; subst.
  constructor; [now apply IH|].
  rewrite Forall_forall in *. intros y Hy.
  specialize (Hx y Hy). assert (x <> y) by (intros ->; contradiction). lia.
Qed.

Lemma filter_map_fst {V : Type} (p : jsstring -> bool)
      (o : list (jsstring * V)) :
  map fst (filter (fun kv => p (fst kv)) o) = filter p (map fst o).
Proof.
  induction o as [|[k v] o IH]; [reflexivity|].
  cbn [filter map fst]. destruct (p k); cbn [map fst]; now rewrite IH.
Qed.

(** The keys in the order of [Object.entries]: the array indices in
    strictly ascending numeric order, then the other keys in creation
    order. *)
Lemma Object_keys_order o :
  NoDup (map fst o) ->
  exists indices,
    Object_keys o
    = indices ++ filter (fun k => negb (is_index k)) (map fst o)
    /\ Permutation indices (filter is_index (map fst o))
    /\ StronglySorted Z.lt (map index_value indices).
Proof.
  intros Hnd.
  exists (map fst (js_sort compare_index
                     (filter (fun kv => is_index (fst kv)) o))).
  assert (Hperm : Permutation
            (map fst (js_sort compare_index
                        (filter (fun kv => is_index (fst kv)) o)))
            (filter is_index (map fst o))).
  { rewrite <- filter_map_fst. apply Permutation_map. apply js_sort_perm. }
  split; [|split; [exact Hperm|]].
  - unfold Object_keys, Object_entries. rewrite map_app. f_equal.
    apply (filter_map_fst (fun k => negb (is_index k))).
  - apply strictly_sorted.
    + rewrite map_map.
      apply (js_sort_sorted _ compare_index
               (fun kv => index_value (fst kv)) (fun _ => True)).
      * intros x y _ _. reflexivity.
      * apply Forall_forall. intros; exact I.
    + apply NoDup_map_in.
      * intros x y Hx Hy.
        apply (Permutation_in _ Hperm) in Hx.
        apply (Permutation_in _ Hperm) in Hy.
        apply filter_In in Hx as [_ Hx]. apply filter_In in Hy as [_ Hy].
        now apply index_value_inj.
      * apply (Permutation_NoDup (Permutation_sym Hperm)).
        now apply NoDup_filter.
Qed.

Section OrganizeFacts.
Variable parseDate : jsstring -> option Z.

Abbreviation dated' := (dated parseDate).
Abbreviation parses' := (parses parseDate).
Abbreviation time_value' := (time_value parseDate).

Lemma compare_dates_classes d x y :
  (compare_dates parseDate x y < 0)%Z -> dated' d x = true -> dated' d y = false.
Proof.
  unfold compare_dates, date_difference, dated.
  destruct (parseDate (email_date x)) as [a|],
           (parseDate (email_date y)) as [b|]; try lia.
  intros Hlt. destruct d as [c|]; simpl; [|discriminate].
  intros Ha. apply Z.eqb_eq in Ha. subst c. apply Z.eqb_neq. lia.
Qed.

Lemma compare_dates_key x y :
  parses' x -> parses' y ->
  compare_dates parseDate x y = (time_value' x - time_value' y)%Z.
Proof.
  unfold parses, compare_dates, date_difference, time_value.
  destruct (parseDate (email_date x)), (parseDate (email_date y));
    intros; congruence.
Qed.

(** C4, amended: for every list of decoded records none of whose
    [threadId] is a property name that a plain object inherits,
    [organizeEmailsByThread] returns an object with exactly one group per
    distinct [threadId], created in first-seen order; [Object.entries]
    enumerates its groups with the array-index identifiers first, in
    ascending numeric order, then the others in first-seen order, so in
    first-seen order when no identifier is an array index; each group
    holds the records of its thread; a group whose dates all parse is in
    non-decreasing date order, with the records of equal date in their
    original relative order, and a group in which no date parses keeps
    its original order; the sort does not throw. *)
Theorem organizeEmailsByThread_groups (emails : list Email) :
  Forall (fun e => inherited (email_threadId e) = false) emails ->
  exists threads,
    organizeEmailsByThread parseDate emails = Ok threads
    /\ map fst threads = first_seen (map email_threadId emails)
    /\ NoDup (map fst threads)
    /\ (forall k, In k (map fst threads) <-> In k (map email_threadId emails))
    /\ Permutation (Object_entries threads) threads
    /\ (exists indices,
          Object_keys threads
          = indices ++ filter (fun k => negb (is_index k))
                              (first_seen (map email_threadId emails))
          /\ Permutation indices
               (filter is_index (first_seen (map email_threadId emails)))
          /\ StronglySorted Z.lt (map index_value indices))
    /\ (Forall (fun e => is_index (email_threadId e) = false) emails ->
        Object_entries threads = threads)
    /\ forall k g, In (k, g) threads ->
         g <> []
         /\ Permutation g (thread_of k emails)
         /\ (Forall parses' g ->
             StronglySorted Z.le (map time_value' g)
             /\ forall d, filter (dated' d) g
                          = filter (dated' d) (thread_of k emails))
         /\ (Forall (fun e => parseDate (email_date e) = None) g ->
             g = thread_of k emails).
Proof.
  intros Hinh.
  destruct (add_emails_spec emails [] Hinh) as (o & Hadd & Hkeys & Hown).
  destruct (fold_see (map email_threadId emails) [] (NoDup_nil _))
    as [Hnd Hin].
  assert (Hfst : map fst (map (sort_thread parseDate) o) = map fst o).
  { rewrite map_map. apply map_ext. intros [k v]. reflexivity. }
  exists (map (sort_thread parseDate) o).
  split; [unfold organizeEmailsByThread; rewrite Hadd; reflexivity|].
  split; [rewrite Hfst, Hkeys; reflexivity|].
  split; [rewrite Hfst, Hkeys; exact Hnd|].
  split; [intros k; rewrite Hfst, Hkeys, Hin; simpl; tauto|].
  split; [apply Object_entries_perm|].
  split.
  { destruct (Object_keys_order (map (sort_thread parseDate) o))
      as (indices & H1 & H2 & H3).
    - rewrite Hfst, Hkeys. exact Hnd.
    - exists indices. rewrite Hfst, Hkeys in H1, H2. auto. }
  split.
  { intros Hplain. apply Object_entries_plain. rewrite Hfst, Hkeys.
    apply Forall_forall. intros k Hk. apply Hin in Hk as [[]|Hk].
    apply in_map_iff in Hk as (e & <- & He).
    rewrite Forall_forall in Hplain. now apply Hplain. }
  intros k g Hg. apply in_map_iff in Hg as ([k0 g0] & E & Hg0).
  injection E as -> <-. cbn [snd].
  assert (Hthread : thread_of k emails = g0 /\ g0 <> []).
  { assert (Ho : own k o = Some g0).
    { apply own_In; [|exact Hg0]. rewrite Hkeys. exact Hnd. }
    rewrite Hown in Ho. simpl in Ho.
    destruct (thread_of k emails); [discriminate|].
    injection Ho as <-. split; [reflexivity|discriminate]. }
  destruct Hthread as [-> Hne].
  split.
  { intros E. apply Hne. apply Permutation_nil.
    rewrite <- E. apply js_sort_perm. }
  split; [apply js_sort_perm|].
  split.
  { intros Hparse. split.
    - apply (js_sort_sorted _ (compare_dates parseDate) time_value' parses').
      + exact compare_dates_key.
      + apply Forall_forall. intros e He. rewrite Forall_forall in Hparse.
        apply Hparse.
        apply (Permutation_in _ (Permutation_sym (js_sort_perm _ _ g0))).
        exact He.
    - intros d. apply js_sort_stable. intros x y.
      apply compare_dates_classes. }
  intros Hnone. apply js_sort_fixed. intros x y Hx.
  unfold compare_dates, date_difference.
  rewrite Forall_forall in Hnone.
  rewrite (Hnone x); [reflexivity|].
  apply (Permutation_in _ (Permutation_sym (js_sort_perm _ _ g0))).
  exact Hx.
Qed.

End OrganizeFacts.

(** ** [organizeEmailsByThread] on the sample records *)

(** An identifier that names an inherited property makes the grouping
    throw, wherever it is in the list. *)
Lemma add_emails_throws emails : forall o,
  Forall (fun k => inherited k = false) (map fst o) ->
  Exists (fun e => inherited (email_threadId e) = true) emails ->
  add_emails o emails = Throw.
Proof.
  induction emails as [|e emails IH]; intros o Ho Hex.
  - inversion Hex.
  - cbn [add_emails].
    destruct (inherited (email_threadId e)) eqn:He.
    + unfold add_email. rewrite He.
      replace (own (email_threadId e) o) with (@None (list Email));
        [reflexivity|].
      symmetry. apply own_None. intros Hin.
      rewrite Forall_forall in Ho. specialize (Ho _ Hin). congruence.
    + destruct (add_email_spec o e He) as (o1 & -> & Hk1 & _).
      cbn [bind]. apply IH.
      * rewrite Hk1. apply Forall_forall. intros k Hk.
        apply see_In in Hk as [Hk| ->]; [|exact He].
        rewrite Forall_forall in Ho. now apply Ho.
      * inversion Hex as [? ? H|? ? H]; subst; [congruence|exact H].
Qed.

Lemma organizeEmailsByThread_throws parseDate emails :
  Exists (fun e => inherited (email_threadId e) = true) emails ->
  organizeEmailsByThread parseDate emails = Throw.
Proof.
  intros H. unfold organizeEmailsByThread.
  rewrite (add_emails_throws emails [] (Forall_nil _) H). reflexivity.
Qed.

(** The thread export writes its header and then the rows of the groups
    in the order of [Object.entries], whatever the flush limit. *)
Lemma processThreadsToCSV_rows parseDate csvFilePath processedEmails fs threads :
  organizeEmailsByThread parseDate processedEmails = Ok threads ->
  exists fs',
    processThreadsToCSV_write parseDate csvFilePath processedEmails fs = Ok fs'
    /\ fs' csvFilePath
       = Some (thread_header
               ++ concat (flat_map (fun kv => thread_rows (fst kv) 0 (snd kv))
                                   (Object_entries threads))).
Proof.
  intros H. unfold processThreadsToCSV_write. rewrite H. cbn [bind].
  eexists. split; [reflexivity|]. apply write_rows_content.
Qed.

(** C4, as stated, fails.  Thread identifiers that are array indices are
    enumerated in numeric order, not in first-seen order ([20] is seen
    before [7] and comes after it); and a thread identifier that names
    an inherited property, such as [constructor], makes the function
    throw. *)
Lemma organizeEmailsByThread_not_as_specified :
  (organizeEmailsByThread sample_dates
     [mail "m1" "20" "2024-01-01"; mail "m2" "7" "2024-01-02"]
   = Ok [(js "20", [mail "m1" "20" "2024-01-01"]);
         (js "7", [mail "m2" "7" "2024-01-02"])]
   /\ Object_keys [(js "20", [mail "m1" "20" "2024-01-01"]);
                   (js "7", [mail "m2" "7" "2024-01-02"])]
      = [js "7"; js "20"]
   /\ first_seen [js "20"; js "7"] = [js "20"; js "7"])
  /\ organizeEmailsByThread sample_dates [mail "m" "constructor" "2024-01-01"]
     = Throw.
Proof. repeat split; vm_compute; reflexivity. Qed.

(** The grouping on three records of two threads. *)
Lemma organizeEmailsByThread_groups_witness :
  Forall (fun e => inherited (email_threadId e) = false)
         [mail "m1" "t1" "2024-01-02"; mail "m2" "t2" "2024-01-02";
          mail "m3" "t1" "2024-01-01"]
  /\ exists threads,
       organizeEmailsByThread sample_dates
         [mail "m1" "t1" "2024-01-02"; mail "m2" "t2" "2024-01-02";
          mail "m3" "t1" "2024-01-01"] = Ok threads
       /\ map fst threads = [js "t1"; js "t2"].
Proof.
  assert (H : Forall (fun e => inherited (email_threadId e) = false)
                [mail "m1" "t1" "2024-01-02"; mail "m2" "t2" "2024-01-02";
                 mail "m3" "t1" "2024-01-01"]).
  { repeat constructor. }
  split; [exact H|].
  destruct (organizeEmailsByThread_groups sample_dates _ H)
    as (threads & Hok & Hkeys & _).
  exists threads. split; [exact Hok|]. rewrite Hkeys. reflexivity.
Defined.

(* ================================================================== *)
(** * Further properties *)
(* ================================================================== *)

(** ** CSV fields of every kind *)

Lemma includes_single s c :
  includes s [c] = existsb (fun x => (x =? c)%N) s.
Proof.
  induction s as [|x s IH]; [reflexivity|].
  cbn [includes startsWith existsb]. rewrite IH.
  destruct s; rewrite andb_true_r; reflexivity.
Qed.

(** The two [escapeCSVField] functions of [src/gmail-auth.js], the first
    written with [includes] and the second with a regular expression,
    and the one of [src/email-processor.js], return the same text for
    every field. *)
Theorem escapeCSVField_versions_agree (f : field) :
  Server.escapeCSVField f = escapeCSVField f.
Proof.
  assert (H : forall s, Server.escape_string s = escape_string s).
  { intros s. unfold Server.escape_string. rewrite escape_string_eq.
    rewrite !includes_single.
    replace (existsb (fun x => (x =? DQUOTE)%N) s
             || existsb (fun x => (x =? COMMA)%N) s
             || existsb (fun x => (x =? LF)%N) s)
      with (existsb is_special s).
    - unfold quoted, chr. rewrite replaceAll_cls. reflexivity.
    - induction s as [|c s IH]; [reflexivity|].
      cbn [existsb]. rewrite IH. unfold is_special.
      destruct (c =? DQUOTE)%N, (c =? COMMA)%N, (c =? LF)%N,
        (existsb (fun x => (x =? DQUOTE)%N) s),
        (existsb (fun x => (x =? COMMA)%N) s),
        (existsb (fun x => (x =? LF)%N) s); reflexivity. }
  destruct f; cbn; auto.
Qed.

Lemma digits_of_uint d :
  Forall (fun c => is_digit c = true)
         (js (DecimalString.NilEmpty.string_of_uint d)).
Proof.
  induction d; cbn; constructor; try reflexivity; assumption.
Qed.

Lemma string_of_nat_digits n :
  Forall (fun c => is_digit c = true) (string_of_nat n).
Proof.
  unfold string_of_nat, DecimalString.NilZero.string_of_uint.
  destruct (Nat.to_uint n) eqn:E; try apply digits_of_uint.
  repeat constructor.
Qed.

Lemma digit_not_special c : is_digit c = true -> is_special c = false.
Proof.
  unfold is_digit, in_range, is_special, DQUOTE, COMMA, LF. intros H.
  apply andb_true_iff in H as [H1 H2].
  apply N.leb_le in H1. apply N.leb_le in H2.
  repeat (apply orb_false_iff; split); apply N.eqb_neq; lia.
Qed.

(** [escapeCSVField] writes [null] and [undefined] as the empty field
    and a number, such as the position in a thread, as its decimal
    digits, never quoted. *)
Theorem escapeCSVField_not_strings (n : nat) :
  escapeCSVField FNull = []
  /\ escapeCSVField FUndefined = []
  /\ escapeCSVField (FNumber n) = string_of_nat n
  /\ Forall (fun c => is_digit c = true) (escapeCSVField (FNumber n))
  /\ string_of_nat n <> [].
Proof.
  assert (E : escapeCSVField (FNumber n) = string_of_nat n).
  { cbn [escapeCSVField]. rewrite escape_string_eq.
    replace (existsb is_special (string_of_nat n)) with false; [reflexivity|].
    symmetry. apply not_true_is_false. intros H.
    apply existsb_exists in H as (c & Hc & Hs).
    pose proof (string_of_nat_digits n) as Hd. rewrite Forall_forall in Hd.
    rewrite (digit_not_special c (Hd c Hc)) in Hs. discriminate. }
  split; [reflexivity|]. split; [reflexivity|]. split; [exact E|].
  split; [rewrite E; apply string_of_nat_digits|].
  unfold string_of_nat, DecimalString.NilZero.string_of_uint.
  destruct (Nat.to_uint n); discriminate.
Qed.

(** ** Nothing is lost by the grouping *)

Lemma push_perm k e o v :
  own k o = Some v ->
  Permutation (concat (map snd (push k e o))) (e :: concat (map snd o)).
Proof.
  induction o as [|[k0 v0] o IH]; simpl; [discriminate|].
  destruct (str_eqb k0 k).
  - intros _. simpl. rewrite <- app_assoc. simpl.
    symmetry. apply Permutation_middle.
  - intros H. simpl. rewrite (IH H). symmetry. apply Permutation_middle.
Qed.

Lemma add_email_perm o e o1 :
  add_email o e = Ok o1 ->
  Permutation (concat (map snd o1)) (e :: concat (map snd o)).
Proof.
  unfold add_email. destruct (own (email_threadId e) o) as [v|] eqn:Hown.
  - intros E. injection E as <-. now apply push_perm with (v := v).
  - destruct (inherited (email_threadId e)); [discriminate|].
    intros E. injection E as <-.
    rewrite (push_perm _ _ _ []).
    + rewrite map_app, concat_app. simpl. now rewrite app_nil_r.
    + rewrite own_app, Hown, str_eqb_refl. reflexivity.
Qed.

Lemma add_emails_perm emails : forall o o',
  add_emails o emails = Ok o' ->
  Permutation (concat (map snd o')) (concat (map snd o) ++ emails).
Proof.
  induction emails as [|e emails IH]; intros o o' H; simpl in H.
  - injection H as <-. now rewrite app_nil_r.
  - destruct (add_email o e) as [o1|] eqn:E1; [|discriminate].
    cbn [bind] in H. rewrite (IH _ _ H), (add_email_perm _ _ _ E1).
    simpl. apply Permutation_middle.
Qed.

Lemma concat_perm {A : Type} (l l' : list (list A)) :
  Permutation l l' -> Permutation (concat l) (concat l').
Proof.
  induction 1; simpl.
  - reflexivity.
  - now apply Permutation_app_head.
  - rewrite !app_assoc. apply Permutation_app_tail. apply Permutation_app_comm.
  - etransitivity; eassumption.
Qed.

Lemma sorted_groups_perm parseDate o :
  Permutation (concat (map snd (map (sort_thread parseDate) o)))
              (concat (map snd o)).
Proof.
  induction o as [|[k v] o IH]; simpl; [reflexivity|].
  rewrite IH. apply Permutation_app_tail. apply js_sort_perm.
Qed.

Lemma organizeEmailsByThread_groups_perm parseDate emails threads :
  organizeEmailsByThread parseDate emails = Ok threads ->
  Permutation (concat (map snd threads)) emails.
Proof.
  unfold organizeEmailsByThread. intros H.
  destruct (add_emails [] emails) as [o|] eqn:E; [|discriminate].
  cbn [bind] in H. injection H as <-.
  rewrite sorted_groups_perm. exact (add_emails_perm emails [] o E).
Qed.

Lemma organizeEmailsByThread_entries_perm parseDate emails threads :
  organizeEmailsByThread parseDate emails = Ok threads ->
  Permutation (concat (map snd (Object_entries threads))) emails.
Proof.
  intros H. rewrite <- (organizeEmailsByThread_groups_perm _ _ _ H).
  apply concat_perm. apply Permutation_map. apply Object_entries_perm.
Qed.

(** When [organizeEmailsByThread] returns, its groups hold every record
    of the input exactly once, and so do the groups in the order of
    [Object.entries]: no record is dropped or duplicated. *)
Theorem organizeEmailsByThread_keeps_records parseDate emails threads :
  organizeEmailsByThread parseDate emails = Ok threads ->
  Permutation (concat (map snd threads)) emails
  /\ Permutation (concat (map snd (Object_entries threads))) emails
  /\ length (concat (map snd (Object_entries threads))) = length emails.
Proof.
  intros H.
  pose proof (organizeEmailsByThread_groups_perm _ _ _ H) as H1.
  pose proof (organizeEmailsByThread_entries_perm _ _ _ H) as H2.
  split; [exact H1|]. split; [exact H2|].
  now apply Permutation_length.
Qed.

(** The grouping of three records of two threads. *)
Lemma organizeEmailsByThread_keeps_records_witness :
  organizeEmailsByThread sample_dates
    [mail "m1" "t1" "2024-01-02"; mail "m2" "7" "2024-01-02";
     mail "m3" "t1" "2024-01-01"]
  = Ok [(js "t1", [mail "m3" "t1" "2024-01-01"; mail "m1" "t1" "2024-01-02"]);
        (js "7", [mail "m2" "7" "2024-01-02"])]
  /\ length (concat (map snd (Object_entries
        [(js "t1", [mail "m3" "t1" "2024-01-01"; mail "m1" "t1" "2024-01-02"]);
         (js "7", [mail "m2" "7" "2024-01-02"])]))) = 3.
Proof.
  assert (H : organizeEmailsByThread sample_dates
    [mail "m1" "t1" "2024-01-02"; mail "m2" "7" "2024-01-02";
     mail "m3" "t1" "2024-01-01"]
  = Ok [(js "t1", [mail "m3" "t1" "2024-01-01"; mail "m1" "t1" "2024-01-02"]);
        (js "7", [mail "m2" "7" "2024-01-02"])]).
  { vm_compute. reflexivity. }
  split; [exact H|].
  apply (organizeEmailsByThread_keeps_records sample_dates _ _ H).
Defined.

(** [organizeEmailsByThread] throws exactly when some record has a
    [threadId] that names a property inherited from [Object.prototype];
    the thread export then writes no file. *)
Theorem organizeEmailsByThread_throws_iff parseDate emails :
  (organizeEmailsByThread parseDate emails = Throw
   <-> Exists (fun e => inherited (email_threadId e) = true) emails)
  /\ (forall csvFilePath fs,
        Exists (fun e => inherited (email_threadId e) = true) emails ->
        processThreadsToCSV_write parseDate csvFilePath emails fs = Throw).
Proof.
  split; [split|].
  - intros H.
    destruct (Exists_dec (fun e => inherited (email_threadId e) = true) emails)
      as [Hex|Hno]; [intros e; apply bool_dec|exact Hex|].
    exfalso.
    assert (Hall : Forall (fun e => inherited (email_threadId e) = false) emails).
    { apply Forall_forall. intros e He.
      destruct (inherited (email_threadId e)) eqn:Hi; [|reflexivity].
      exfalso. apply Hno. apply Exists_exists. eauto. }
    destruct (add_emails_spec emails [] Hall) as (o & Ho & _).
    unfold organizeEmailsByThread in H. rewrite Ho in H. discriminate.
  - apply organizeEmailsByThread_throws.
  - intros csvFilePath fs H. unfold processThreadsToCSV_write.
    now rewrite (organizeEmailsByThread_throws parseDate emails H).
Qed.

(** ** The thread export *)

Lemma thread_rows_text k emails : forall i,
  thread_rows k i emails = map row_text (thread_fields k i emails).
Proof.
  induction emails as [|e emails IH]; intros i; [reflexivity|].
  cbn [thread_rows thread_fields map]. rewrite IH. reflexivity.
Qed.

Lemma thread_fields_numbered k emails : forall i,
  thread_fields k i emails
  = map (fun je => [k; string_of_nat (fst je); email_id (snd je);
                    email_date (snd je); email_from (snd je);
                    email_to (snd je); email_subject (snd je);
                    email_body (snd je)])
        (combine (seq (i + 1) (length emails)) emails).
Proof.
  induction emails as [|e emails IH]; intros i; [reflexivity|].
  cbn [thread_fields length seq combine map fst snd].
  rewrite (IH (S i)). reflexivity.
Qed.

Lemma digits_no_bare_CR n : no_bare_CR (string_of_nat n) = true.
Proof.
  unfold no_bare_CR. apply orb_true_iff. right. apply negb_true_iff.
  pose proof (string_of_nat_digits n) as H.
  induction H as [|c l Hc _ IH]; [reflexivity|].
  cbn [existsb]. rewrite IH, orb_false_r.
  apply is_digit_range in Hc. unfold is_cr, CR. apply N.eqb_neq. lia.
Qed.



(** ** The buffer of the row loops *)

Lemma buffer_row_step limit path fs buf row :
  buffer_row limit path (fs, buf) row
  = if (limit <? Z.of_nat (length (buf ++ row)))%Z
    then (appendFileSync path (buf ++ row) fs, [])
    else (fs, buf ++ row).
Proof. reflexivity. Qed.

Lemma buffer_rows_state limit path rows :
  forall (fs : filesystem) (buf written : jsstring),
  (0 <= limit)%Z ->
  (Z.of_nat (length buf) <= limit)%Z ->
  fs path = Some written ->
  exists k,
    k <= length rows
    /\ fst (fold_left (buffer_row limit path) rows (fs, buf)) path
       = Some (written ++ match k with
                          | O => []
                          | S _ => buf ++ concat (firstn k rows)
                          end)
    /\ snd (fold_left (buffer_row limit path) rows (fs, buf))
       = match k with O => buf | S _ => [] end ++ concat (skipn k rows)
    /\ (Z.of_nat (length (snd (fold_left (buffer_row limit path) rows
                                         (fs, buf)))) <= limit)%Z.
Proof.
  induction rows as [|row rows IH]; intros fs buf written Hlim Hbuf Hfs.
  - exists 0. simpl. rewrite !app_nil_r. auto.
  - cbn [fold_left]. rewrite buffer_row_step.
    destruct (limit <? Z.of_nat (length (buf ++ row)))%Z eqn:Hcmp.
    + destruct (IH (appendFileSync path (buf ++ row) fs) []
                   (written ++ buf ++ row) Hlim)
        as (k & Hk & H1 & H2 & H3).
      { simpl. lia. }
      { unfold appendFileSync. now rewrite str_eqb_refl, Hfs. }
      exists (S k). split; [simpl; lia|]. split; [|split; [|exact H3]].
      * etransitivity; [exact H1|]. f_equal. cbn [firstn concat].
        rewrite <- !app_assoc. destruct k; simpl; now rewrite ?app_nil_r.
      * etransitivity; [exact H2|]. cbn [skipn]. destruct k; reflexivity.
    + apply Z.ltb_ge in Hcmp.
      destruct (IH fs (buf ++ row) written Hlim Hcmp Hfs)
        as (k & Hk & H1 & H2 & H3).
      destruct k as [|k].
      * exists 0. split; [lia|]. split; [exact H1|]. split; [|exact H3].
        etransitivity; [exact H2|]. simpl. now rewrite <- app_assoc.
      * exists (S (S k)). split; [simpl; lia|]. split; [|split; [|exact H3]].
        -- etransitivity; [exact H1|]. f_equal. cbn [firstn concat].
           now rewrite <- app_assoc.
        -- etransitivity; [exact H2|]. reflexivity.
Qed.

(** At every round of the row loop of the exports, the text held in the
    buffer is at most 1,000,000 units long, the file holds the header
    followed by a whole number of rows, and the buffer holds the rows
    that follow them: rows are never split, reordered or written
    twice. *)
Theorem write_buffer_bounded (csvFilePath header : jsstring)
        (rows : list jsstring) (fs : filesystem) (n : nat) :
  let state := fold_left (buffer_row CHUNK_LIMIT csvFilePath) (firstn n rows)
                         (writeFileSync csvFilePath header fs, []) in
  (Z.of_nat (length (snd state)) <= 1000000)%Z
  /\ exists k,
       k <= n
       /\ fst state csvFilePath = Some (header ++ concat (firstn k rows))
       /\ header ++ concat (firstn k rows) ++ snd state
          = header ++ concat (firstn n rows).
Proof.
  intros state.
  destruct (buffer_rows_state CHUNK_LIMIT csvFilePath (firstn n rows)
              (writeFileSync csvFilePath header fs) [] header)
    as (k & Hk & H1 & H2 & H3).
  { unfold CHUNK_LIMIT. lia. }
  { simpl. unfold CHUNK_LIMIT. lia. }
  { unfold writeFileSync. now rewrite str_eqb_refl. }
  subst state. split; [exact H3|].
  assert (Hkn : k <= n).
  { rewrite length_firstn in Hk. lia. }
  exists k. split; [exact Hkn|].
  assert (Hfirst : firstn k (firstn n rows) = firstn k rows).
  { rewrite firstn_firstn. f_equal. lia. }
  split.
  - etransitivity; [exact H1|]. f_equal. f_equal.
    destruct k; [reflexivity|]. now rewrite Hfirst.
  - f_equal. etransitivity; [apply f_equal; exact H2|].
    replace (match k with O => [] | S _ => [] end ++ concat (skipn k (firstn n rows)))
      with (concat (skipn k (firstn n rows))) by (destruct k; reflexivity).
    rewrite <- concat_app, <- Hfirst, firstn_skipn. reflexivity.
Qed.

(** ** The shape of normalized text *)

Lemma tidy_class_units p r0 s : forall b,
  tidy p r0 b s = true -> Forall (fun c => p c = true -> c = r0) s.
Proof.
  induction s as [|c s IH]; intros b H; simpl in H; constructor.
  - intros Hc. rewrite Hc in H.
    apply andb_true_iff in H as [H _]. apply andb_true_iff in H as [_ H].
    now apply N.eqb_eq.
  - destruct (p c).
    + apply andb_true_iff in H as [_ H]. now apply (IH true).
    + now apply (IH false).
Qed.

Lemma tidy_no_pair p r0 s : forall b a x y c,
  tidy p r0 b s = true -> s = a ++ x :: y :: c ->
  p x = true -> p y = true -> False.
Proof.
  intros b a x y c H E Hx Hy. subst s. apply tidy_app_r in H.
  simpl in H. rewrite Hx, Hy in H.
  destruct (x =? r0)%N; simpl in H; discriminate.
Qed.

Lemma normalizeWhitespace_trimmed text :
  trim (normalizeWhitespace text) = normalizeWhitespace text.
Proof. rewrite normalizeWhitespace_eq. apply trim_idem. Qed.

Lemma normalizeWhitespace_no_blank_line text a b :
  normalizeWhitespace text <> a ++ [LF; LF] ++ b.
Proof.
  destruct (normalizeWhitespace_tidy text) as [_ Hl]. intros E.
  exact (tidy_no_pair _ _ _ _ a LF LF b Hl E eq_refl eq_refl).
Qed.

(** The text returned by [normalizeWhitespace] holds no tab, no two
    spaces in a row and no two line feeds in a row, and neither starts
    nor ends with white space. *)
Theorem normalizeWhitespace_shape (text : jsstring) :
  let out := normalizeWhitespace text in
  ~ In TAB out
  /\ (forall a b, out <> a ++ [SPACE; SPACE] ++ b)
  /\ (forall a b, out <> a ++ [LF; LF] ++ b)
  /\ trim out = out
  /\ (forall c rest, out = c :: rest -> is_space c = false)
  /\ (forall c start, out = start ++ [c] -> is_space c = false).
Proof.
  intros out. destruct (normalizeWhitespace_tidy text) as [Hb Hl].
  fold out in Hb, Hl.
  assert (Htrim : trim out = out).
  { unfold out. rewrite normalizeWhitespace_eq. apply trim_idem. }
  split; [|split; [|split; [|split; [exact Htrim|split]]]].
  - intros Hin.
    pose proof (tidy_class_units _ _ _ _ Hb) as H.
    rewrite Forall_forall in H. specialize (H TAB Hin eq_refl). discriminate.
  - intros a b E.
    exact (tidy_no_pair _ _ _ _ a SPACE SPACE b Hb E eq_refl eq_refl).
  - intros a b E.
    exact (tidy_no_pair _ _ _ _ a LF LF b Hl E eq_refl eq_refl).
  - intros c rest E. pose proof (trim_head out) as H.
    rewrite Htrim, E in H. exact H.
  - intros c start E.
    destruct (is_space c) eqn:Hc; [|reflexivity]. exfalso.
    assert (Hend : trimEnd out = out).
    { rewrite <- Htrim. unfold trim. apply trimEnd_idem. }
    unfold trimEnd in Hend. rewrite E, rev_app_distr in Hend.
    simpl in Hend. rewrite Hc in Hend.
    apply (f_equal (@length _)) in Hend.
    rewrite length_rev, length_app in Hend. simpl in Hend.
    pose proof (dropWhile_length is_space (rev start)) as Hd.
    rewrite length_rev in Hd. lia.
Qed.

Lemma normalizeWhitespace_idempotent_aux x :
  normalizeWhitespace (normalizeWhitespace x) = normalizeWhitespace x.
Proof.
  destruct (normalizeWhitespace_tidy x) as [Hb Hl].
  rewrite (normalizeWhitespace_eq (normalizeWhitespace x)).
  rewrite (collapse_fix _ _ _ Hb), (collapse_fix _ _ _ Hl).
  rewrite normalizeWhitespace_eq. apply trim_idem.
Qed.

(** [cleanPlainText], in both files, returns normalized text: applying
    [normalizeWhitespace] to its result changes nothing, and the result
    has no empty line and no white space at either end. *)
Theorem cleanPlainText_normalized (text : jsstring) :
  normalizeWhitespace (GmailAuth.cleanPlainText text)
  = GmailAuth.cleanPlainText text
  /\ normalizeWhitespace (EmailProcessor.cleanPlainText text)
     = EmailProcessor.cleanPlainText text
  /\ (forall a b, GmailAuth.cleanPlainText text <> a ++ [LF; LF] ++ b)
  /\ (forall a b, EmailProcessor.cleanPlainText text <> a ++ [LF; LF] ++ b)
  /\ trim (GmailAuth.cleanPlainText text) = GmailAuth.cleanPlainText text
  /\ trim (EmailProcessor.cleanPlainText text)
     = EmailProcessor.cleanPlainText text.
Proof.
  assert (HG : exists t, GmailAuth.cleanPlainText text = normalizeWhitespace t).
  { destruct text; [exists []; reflexivity|]. eexists. reflexivity. }
  assert (HE : exists t, EmailProcessor.cleanPlainText text
                         = normalizeWhitespace t).
  { destruct text; [exists []; reflexivity|]. eexists. reflexivity. }
  destruct HG as [g ->], HE as [e ->].
  pose proof (normalizeWhitespace_no_blank_line g) as G2.
  pose proof (normalizeWhitespace_no_blank_line e) as E2.
  pose proof (normalizeWhitespace_trimmed g) as G3.
  pose proof (normalizeWhitespace_trimmed e) as E3.
  rewrite !normalizeWhitespace_idempotent_aux. auto 10.
Qed.

(** ** Replacements that find nothing to replace *)

Lemma lit_starts w : w <> [] -> starts_with_text w (lit w).
Proof.
  intros Hw R. induction w as [|c w IH]; [congruence|].
  intros prev s k Hs. cbn [lit rmatch chr].
  destruct s as [|x s]; [reflexivity|].
  cbn [startsWith] in Hs. destruct (x =? c)%N; [|reflexivity].
  cbn [andb] in Hs. destruct w as [|c' w]; [destruct s; discriminate Hs|].
  apply IH; [discriminate|exact Hs].
Qed.

Lemma seq_starts w a b : starts_with_text w a -> starts_with_text w (Seq a b).
Proof. intros Ha R prev s k Hs. cbn [rmatch]. now apply Ha. Qed.

Lemma alt_starts w a b :
  starts_with_text w a -> starts_with_text w b -> starts_with_text w (Alt a b).
Proof.
  intros Ha Hb R prev s k Hs. cbn [rmatch].
  rewrite (Ha R prev s k Hs). now apply Hb.
Qed.

Lemma rsearch_without w r :
  starts_with_text w r ->
  forall s prev, includes s w = false -> rsearch r prev s = None.
Proof.
  intros Hr. induction s as [|c s IH]; intros prev Hs.
  - cbn [includes] in Hs. apply orb_false_iff in Hs as [Hs _].
    cbn [rsearch]. unfold match_here. now rewrite (Hr _ prev [] _ Hs).
  - cbn [includes] in Hs. apply orb_false_iff in Hs as [Hs Hrest].
    rewrite rsearch_cons. unfold match_here. rewrite (Hr _ prev _ _ Hs).
    now rewrite (IH (Some c) Hrest).
Qed.

Lemma replaceAll_without w r repl s :
  starts_with_text w r -> includes s w = false -> replaceAll r repl s = s.
Proof.
  intros Hr Hs. unfold replaceAll. cbn [replace_from].
  now rewrite (rsearch_without w r Hr s None Hs).
Qed.

Lemma re_http_starts : starts_with_text (js "http") re_http.
Proof. unfold re_http. apply seq_starts, lit_starts. discriminate. Qed.

(** The four replacements that remove links in
    [src/email-processor.js], three of which [src/gmail-auth.js] has
    too, change nothing in a text that does not contain [http]. *)
Theorem link_removal_without_links (text : jsstring) :
  includes text (js "http") = false ->
  replaceAll re_tracking_param [] text = text
  /\ replaceAll re_long_url [] text = text
  /\ replaceAll re_tracking_path [] text = text
  /\ replaceAll re_hash_link [] text = text.
Proof.
  intros H. repeat split;
    apply (replaceAll_without (js "http")); try exact H;
    apply seq_starts, re_http_starts.
Qed.

(** A sentence without a link. *)
Lemma link_removal_without_links_witness :
  includes (js "click the link in the track list") (js "http") = false
  /\ replaceAll re_tracking_param [] (js "click the link in the track list")
     = js "click the link in the track list".
Proof.
  assert (H : includes (js "click the link in the track list") (js "http")
              = false) by (vm_compute; reflexivity).
  split; [exact H|].
  apply (link_removal_without_links _ H).
Defined.

Lemma re_block_starts tag : starts_with_text [60%N] (re_block tag).
Proof.
  unfold re_block. apply seq_starts. intros R prev s k Hs.
  cbn [chr rmatch]. destruct s as [|x s]; [reflexivity|].
  cbn [startsWith] in Hs.
  destruct (x =? 60)%N; [destruct s; discriminate Hs|reflexivity].
Qed.

(** [removeScriptAndStyle] changes nothing in a text without [<]. *)
Theorem removeScriptAndStyle_plain_text (html : jsstring) :
  includes html [60%N] = false -> removeScriptAndStyle html = html.
Proof.
  intros H. unfold removeScriptAndStyle.
  apply (replaceAll_without [60%N]); [|exact H].
  unfold re_script_style. cbn [alts].
  repeat apply alt_starts; apply re_block_starts.
Qed.

(** A text that only mentions the word script. *)
Lemma removeScriptAndStyle_plain_text_witness :
  includes (js "the script of the play") [60%N] = false
  /\ removeScriptAndStyle (js "the script of the play")
     = js "the script of the play".
Proof.
  assert (H : includes (js "the script of the play") [60%N] = false)
    by (vm_compute; reflexivity).
  split; [exact H|]. apply (removeScriptAndStyle_plain_text _ H).
Defined.

(** ** [decodeHTMLEntities] *)

Lemma subst_chars_same c s :
  subst_chars (fun x => (x =? c)%N) [c] s = s.
Proof.
  induction s as [|x s IH]; [reflexivity|].
  cbn [subst_chars flat_map]. fold (subst_chars (fun x => (x =? c)%N) [c] s).
  rewrite IH. destruct (x =? c)%N eqn:E; [|reflexivity].
  apply N.eqb_eq in E. now subst.
Qed.

Lemma rsearch_mojibake (s : jsstring) : forall prev,
  ~ In 160%N s -> rsearch re_mojibake_nbsp prev s = None.
Proof.
  induction s as [|a s IH]; intros prev H; [reflexivity|].
  rewrite rsearch_cons.
  assert (Hm : match_here re_mojibake_nbsp prev (a :: s) = None).
  { unfold match_here, re_mojibake_nbsp. cbn [rmatch chr].
    destruct ((a =? 194)%N || (a =? 226)%N); [|reflexivity].
    destruct s as [|b s]; [reflexivity|].
    destruct (b =? 160)%N eqn:E; [|reflexivity].
    apply N.eqb_eq in E. subst. exfalso. apply H. simpl. auto. }
  rewrite Hm, IH; [reflexivity|]. intros Hin. apply H. now right.
Qed.

(** [decodeHTMLEntities], as the source stands, replaces each pair of
    U+00C2 (or U+00E2) and a no-break space by a space and nothing else:
    its four other replacements put back the character they find, so a
    text without a no-break space, entities such as [&amp;] included,
    comes out unchanged. *)
Theorem decodeHTMLEntities_only_nbsp (text : jsstring) :
  decodeHTMLEntities text = replaceAll re_mojibake_nbsp [SPACE] text
  /\ (~ In 160%N text -> decodeHTMLEntities text = text)
  /\ decodeHTMLEntities (js "Tom &amp; Jerry &lt;3") = js "Tom &amp; Jerry &lt;3"
  /\ decodeHTMLEntities (js "a" ++ [194%N; 160%N] ++ js "b") = js "a b".
Proof.
  assert (H : decodeHTMLEntities text
              = replaceAll re_mojibake_nbsp [SPACE] text).
  { unfold decodeHTMLEntities, chr.
    rewrite !replaceAll_cls, !subst_chars_same. reflexivity. }
  split; [exact H|]. split; [|split; vm_compute; reflexivity].
  intros Hno. rewrite H. unfold replaceAll. cbn [replace_from].
  now rewrite rsearch_mojibake.
Qed.

(** ** The duplicated-content step *)

(** The duplicated-content step returns the text or its first half, and
    the first half only for a text of at least 202 units; a text of at
    most 201 units is never cut. *)
Theorem drop_duplicate_prefix (n : nat) (text : jsstring) :
  (drop_duplicate n text = text
   \/ (202 <= length text
       /\ drop_duplicate n text = firstn (Nat.div2 (length text)) text))
  /\ (length text <= 201 -> drop_duplicate n text = text)
  /\ length (drop_duplicate n text) <= length text
  /\ exists rest, text = drop_duplicate n text ++ rest.
Proof.
  unfold drop_duplicate, substring.
  destruct (100 <? Nat.div2 (length text)) eqn:Hh.
  - apply Nat.ltb_lt in Hh.
    assert (Hlen : 202 <= length text).
    { rewrite Nat.div2_div in Hh.
      destruct (Nat.le_gt_cases 202 (length text)) as [H|H]; [exact H|].
      exfalso. assert (length text / 2 < 101); [|lia].
      apply Nat.Div0.div_lt_upper_bound. lia. }
    cbn [skipn]. rewrite !Nat.sub_0_r.
    destruct (includes _ _).
    + split; [right; auto|]. split; [lia|]. split.
      * rewrite length_firstn. lia.
      * exists (skipn (Nat.div2 (length text)) text).
        now rewrite firstn_skipn.
    + split; [left; reflexivity|]. split; [reflexivity|]. split; [lia|].
      exists []. now rewrite app_nil_r.
  - split; [left; reflexivity|]. split; [reflexivity|]. split; [lia|].
    exists []. now rewrite app_nil_r.
Qed.

(** ** Lines: [split] and [join] *)

Lemma split_plain sep (l : jsstring) : ~ In sep l -> split sep l = [l].
Proof.
  induction l as [|c l IH]; intros H; [reflexivity|].
  cbn [split]. destruct (c =? sep)%N eqn:E.
  - apply N.eqb_eq in E. subst. exfalso. apply H. now left.
  - rewrite IH; [reflexivity|]. intros Hin. apply H. now right.
Qed.

Lemma split_app sep (l r : jsstring) :
  ~ In sep l -> split sep (l ++ sep :: r) = l :: split sep r.
Proof.
  induction l as [|c l IH]; intros H.
  - cbn [app split]. now rewrite N.eqb_refl.
  - cbn [app split]. destruct (c =? sep)%N eqn:E.
    + apply N.eqb_eq in E. subst. exfalso. apply H. now left.
    + rewrite IH; [reflexivity|]. intros Hin. apply H. now right.
Qed.

Lemma split_no_sep sep (s : jsstring) :
  Forall (fun l => ~ In sep l) (split sep s).
Proof.
  induction s as [|c s IH]; [repeat constructor; auto|].
  cbn [split]. destruct (c =? sep)%N eqn:E.
  - constructor; [auto|exact IH].
  - destruct (split sep s) as [|l ls]; [repeat constructor|].
    + intros [H|[]]. subst. now rewrite N.eqb_refl in E.
    + inversion IH as [|? ? Hl Hls]; subst. constructor; [|exact Hls].
      intros [H|H]; [subst; now rewrite N.eqb_refl in E|contradiction].
Qed.

Lemma split_join sep (ls : list jsstring) :
  ls <> [] -> Forall (fun l => ~ In sep l) ls ->
  split sep (join [sep] ls) = ls.
Proof.
  induction ls as [|l ls IH]; intros Hne H; [congruence|].
  inversion H as [|? ? Hl Hls]; subst.
  destruct ls as [|l' ls].
  - now apply split_plain.
  - rewrite join_cons2. cbn [app]. rewrite split_app by assumption.
    rewrite IH; [reflexivity|discriminate|assumption].
Qed.

Lemma trim_In c s : In c (trim s) -> In c s.
Proof.
  intros H. destruct (trim_infix s) as (a & b & E). rewrite E.
  apply in_or_app. right. apply in_or_app. now left.
Qed.

Lemma trimmed_lines_no_LF text :
  Forall (fun l => ~ In LF l) (map trim (split LF text)).
Proof.
  apply Forall_forall. intros l Hl. apply in_map_iff in Hl as (x & <- & Hx).
  pose proof (split_no_sep LF text) as H. rewrite Forall_forall in H.
  intros Hin. apply (H x Hx). now apply trim_In.
Qed.

Lemma filter_idem {A : Type} (f : A -> bool) l :
  filter f (filter f l) = filter f l.
Proof.
  induction l as [|x l IH]; [reflexivity|].
  simpl. destruct (f x) eqn:E; simpl; rewrite ?E, IH; reflexivity.
Qed.

Lemma trim_last s c start :
  trim s = s -> s = start ++ [c] -> is_space c = false.
Proof.
  intros Htrim E. destruct (is_space c) eqn:Hc; [|reflexivity]. exfalso.
  assert (Hend : trimEnd s = s).
  { rewrite <- Htrim. unfold trim. apply trimEnd_idem. }
  unfold trimEnd in Hend. rewrite E, rev_app_distr in Hend.
  simpl in Hend. rewrite Hc in Hend.
  apply (f_equal (@length _)) in Hend.
  rewrite length_rev, length_app in Hend. simpl in Hend.
  pose proof (dropWhile_length is_space (rev start)) as Hd.
  rewrite length_rev in Hd. lia.
Qed.

Lemma trim_fixed (s : jsstring) :
  (forall c rest, s = c :: rest -> is_space c = false) ->
  (forall c start, s = start ++ [c] -> is_space c = false) ->
  trim s = s.
Proof.
  intros Hhead Hlast. unfold trim, trimStart.
  destruct s as [|c s]; [reflexivity|].
  cbn [dropWhile]. rewrite (Hhead c s eq_refl).
  unfold trimEnd.
  destruct (rev (c :: s)) as [|x r] eqn:E.
  - apply (f_equal (@rev _)) in E. rewrite rev_involutive in E. discriminate.
  - apply (f_equal (@rev _)) in E. rewrite rev_involutive in E. simpl in E.
    cbn [dropWhile]. rewrite (Hlast x (rev r) E). simpl. now rewrite E.
Qed.

Lemma join_trimmed (ls : list jsstring) :
  Forall (fun l => trim l = l /\ l <> []) ls ->
  trim (join [LF] ls) = join [LF] ls.
Proof.
  intros H. apply trim_fixed.
  - intros c rest E. destruct ls as [|l ls]; [discriminate|].
    inversion H as [|? ? [Hl Hne] _]; subst.
    destruct l as [|x l]; [congruence|].
    assert (Ex : x = c).
    { destruct ls; simpl in E; congruence. }
    subst x. pose proof (trim_head (c :: l)) as Hh. now rewrite Hl in Hh.
  - induction H as [|l ls [Hl Hne] Hls IH]; intros c start E.
    + destruct start; discriminate.
    + destruct ls as [|l' ls].
      * simpl in E. exact (trim_last l c start Hl E).
      * rewrite join_cons2 in E.
        destruct (exists_last (l := join [LF] (l' :: ls))) as (s' & c' & E').
        { inversion Hls as [|? ? [_ Hne'] _]; subst.
          destruct l'; [congruence|]. destruct ls; discriminate. }
        rewrite E' in E. rewrite !app_assoc in E.
        apply app_inj_tail in E as [_ <-]. exact (IH c' s' E').
Qed.

(** ** [filterBoilerplateLines] on its own output *)

Section FilterFacts.
Variable toLowerCase : jsstring -> jsstring.

Lemma filter_lines_again (keep : jsstring -> bool) (text : jsstring) :
  keep [] = false ->
  let kept := filter keep (map trim (split LF text)) in
  filter keep (map trim (split LF (join [LF] kept))) = kept.
Proof.
  intros Hempty kept.
  destruct kept as [|l ls] eqn:E.
  - cbn. now rewrite Hempty.
  - rewrite <- E. rewrite split_join.
    + rewrite (map_ext_in trim (fun l => l)), map_id; [apply filter_idem|].
      intros x Hx. apply filter_In in Hx as [Hx _].
      apply in_map_iff in Hx as (y & <- & _). apply trim_idem.
    + rewrite E. discriminate.
    + apply Forall_forall. intros x Hx. apply filter_In in Hx as [Hx _].
      pose proof (trimmed_lines_no_LF text) as H.
      rewrite Forall_forall in H. now apply H.
Qed.

Lemma EmailProcessor_kept_trimmed text :
  let kept := filter (EmailProcessor.keep_line toLowerCase)
                     (map trim (split LF text)) in
  trim (join [LF] kept) = join [LF] kept.
Proof.
  intros kept. apply join_trimmed. apply Forall_forall. intros l Hl.
  apply filter_In in Hl as [Hl Hk].
  apply in_map_iff in Hl as (y & <- & _). split; [apply trim_idem|].
  intros E. rewrite E in Hk. discriminate.
Qed.

(** [filterBoilerplateLines] is idempotent in both files: filtering a
    filtered text again changes nothing. *)
Theorem filterBoilerplateLines_idempotent (text : jsstring) :
  GmailAuth.filterBoilerplateLines toLowerCase
    (GmailAuth.filterBoilerplateLines toLowerCase text)
  = GmailAuth.filterBoilerplateLines toLowerCase text
  /\ EmailProcessor.filterBoilerplateLines toLowerCase
       (EmailProcessor.filterBoilerplateLines toLowerCase text)
     = EmailProcessor.filterBoilerplateLines toLowerCase text.
Proof.
  split.
  - unfold GmailAuth.filterBoilerplateLines.
    now rewrite (filter_lines_again (GmailAuth.keep_line toLowerCase) text).
  - unfold EmailProcessor.filterBoilerplateLines.
    rewrite !EmailProcessor_kept_trimmed.
    rewrite (filter_lines_again (EmailProcessor.keep_line toLowerCase) text)
      by reflexivity.
    reflexivity.
Qed.

(** Every line of the text returned by [filterBoilerplateLines] is a
    trimmed line of the input, at least 5 characters long; in
    [src/email-processor.js] no line of the result mentions a footer
    keyword or holds an e-mail address, a phone number or a URL.  The
    result is empty when no line is kept. *)
Theorem filterBoilerplateLines_output_lines (text : jsstring) :
  let lines := map trim (split LF text) in
  let strict := EmailProcessor.filterBoilerplateLines toLowerCase text in
  let lenient := GmailAuth.filterBoilerplateLines toLowerCase text in
  (strict = [] \/
   Forall (fun line =>
             In line lines /\ 5 <= length line
             /\ existsb (includes (toLowerCase line))
                        EmailProcessor.footerKeywords = false
             /\ has_contact_info line = false)
          (split LF strict))
  /\ (lenient = [] \/
      Forall (fun line => In line lines /\ 5 <= length line)
             (split LF lenient)).
Proof.
  intros lines strict lenient.
  assert (Hsplit : forall keep,
             filter keep lines <> [] ->
             split LF (join [LF] (filter keep lines)) = filter keep lines).
  { intros keep Hne. apply split_join; [exact Hne|].
    apply Forall_forall. intros x Hx. apply filter_In in Hx as [Hx _].
    pose proof (trimmed_lines_no_LF text) as H.
    rewrite Forall_forall in H. now apply H. }
  split.
  - subst strict. unfold EmailProcessor.filterBoilerplateLines.
    rewrite EmailProcessor_kept_trimmed. fold lines.
    destruct (filter (EmailProcessor.keep_line toLowerCase) lines)
      as [|l ls] eqn:E; [left; reflexivity|right].
    rewrite <- E, Hsplit by (rewrite E; discriminate).
    apply Forall_forall. intros x Hx. apply filter_In in Hx as [Hx Hk].
    split; [exact Hx|]. unfold EmailProcessor.keep_line in Hk.
    destruct (length x <? 5) eqn:H5; [discriminate|].
    apply Nat.ltb_ge in H5. split; [exact H5|].
    destruct (existsb _ EmailProcessor.footerKeywords); [discriminate|].
    split; [reflexivity|]. unfold has_contact_info.
    destruct (rtest re_email x); [discriminate|].
    destruct (rtest re_phone x); [discriminate|].
    destruct (rtest re_url x); [discriminate|reflexivity].
  - subst lenient. unfold GmailAuth.filterBoilerplateLines. fold lines.
    destruct (filter (GmailAuth.keep_line toLowerCase) lines)
      as [|l ls] eqn:E; [left; reflexivity|right].
    rewrite <- E, Hsplit by (rewrite E; discriminate).
    apply Forall_forall. intros x Hx. apply filter_In in Hx as [Hx Hk].
    split; [exact Hx|]. unfold GmailAuth.keep_line in Hk.
    destruct (length x <? 5) eqn:H5; [discriminate|].
    now apply Nat.ltb_ge in H5.
Qed.

End FilterFacts.

(** ** Headers and messages *)

Lemma get_set_property k k' v o :
  get_property k (set_property k' v o)
  = if str_eqb k' k then Some v else get_property k o.
Proof.
  induction o as [|[k0 v0] o IH]; simpl.
  - reflexivity.
  - destruct (str_eqb k0 k') eqn:E0; simpl.
    + apply str_eqb_eq in E0. subst k0.
      destruct (str_eqb k' k); reflexivity.
    + rewrite IH. destruct (str_eqb k0 k) eqn:E1; [|reflexivity].
      apply str_eqb_eq in E1. apply str_eqb_neq in E0.
      destruct (str_eqb k' k) eqn:E2; [|reflexivity].
      apply str_eqb_eq in E2. congruence.
Qed.

Lemma find_app_last {A : Type} (f : A -> bool) l x :
  find f (l ++ [x])
  = match find f l with
    | Some y => Some y
    | None => if f x then Some x else None
    end.
Proof.
  induction l as [|a l IH]; simpl; [reflexivity|].
  destruct (f a); [reflexivity|exact IH].
Qed.

Lemma add_headers_lookup toLowerCase k :
  k <> js "__proto__" ->
  forall hs o o',
  add_headers toLowerCase o hs = Ok o' ->
  get_property k o'
  = match find (named toLowerCase k) (rev hs) with
    | Some h => Some (header_value h)
    | None => get_property k o
    end.
Proof.
  intros Hk. induction hs as [|h hs IH]; intros o o' H.
  - simpl in H. injection H as <-. reflexivity.
  - cbn [add_headers] in H. unfold add_header in H.
    destruct (header_name h) as [n|] eqn:En; [|discriminate].
    cbn [bind] in H. rewrite (IH _ _ H). cbn [rev].
    rewrite find_app_last.
    destruct (find (named toLowerCase k) (rev hs)); [reflexivity|].
    unfold named. rewrite En. unfold assign.
    destruct (str_eqb (toLowerCase n) (js "__proto__")) eqn:Ep.
    + apply str_eqb_eq in Ep.
      destruct (str_eqb (toLowerCase n) k) eqn:E; [|reflexivity].
      apply str_eqb_eq in E. congruence.
    + rewrite get_set_property.
      destruct (str_eqb (toLowerCase n) k); reflexivity.
Qed.

Lemma add_headers_throws toLowerCase hs : forall o,
  add_headers toLowerCase o hs = Throw <-> existsb nameless hs = true.
Proof.
  induction hs as [|h hs IH]; intros o; cbn [add_headers existsb].
  - split; discriminate.
  - unfold add_header, nameless at 1.
    destruct (header_name h); cbn [bind orb]; [apply IH|tauto].
Qed.

(** The header object keeps, for each lowercased name, the value of the
    last header with that name: [headers.date || ''] and the like, for
    a name that [Object.prototype] does not define, are case-insensitive
    lookups where the last duplicate wins, and give the empty string
    when no header has the name. *)
Theorem headers_last_wins (toLowerCase : jsstring -> jsstring)
        (hs : list Header) (o : headers_object) (k : jsstring) :
  add_headers toLowerCase [] hs = Ok o ->
  inherited k = false ->
  header_or_empty k o
  = match find (named toLowerCase k) (rev hs) with
    | Some h => header_value h
    | None => []
    end.
Proof.
  intros H Hin.
  assert (Hk : k <> js "__proto__").
  { intros E. rewrite E in Hin. vm_compute in Hin. discriminate Hin. }
  unfold header_or_empty.
  rewrite (add_headers_lookup toLowerCase k Hk hs [] o H).
  destruct (find (named toLowerCase k) (rev hs)); reflexivity.
Qed.

Lemma headers_last_wins_witness :
  header_or_empty (js "subject")
    [(js "subject", js "second"); (js "from", js "ann@example.com")]
  = js "second".
Proof.
  apply (headers_last_wins ascii_toLowerCase sample_headers
           [(js "subject", js "second"); (js "from", js "ann@example.com")]
           (js "subject")).
  - vm_compute. reflexivity.
  - vm_compute. reflexivity.
Defined.

Section MessageFacts.
Variable toLowerCase : jsstring -> jsstring.
Variable base64_utf8 : jsstring -> jsstring.
Variable cleanPlainText : jsstring -> jsstring.
Variable enhancedCleanEmailContent : jsstring -> jsstring.

Lemma processMessage_cases decode msg :
  (forall m p, msg = Some m -> message_payload m = Some p ->
               exists s : jsstring, decode (Some (payload_part p)) = Ok s) ->
  (processMessage toLowerCase decode msg = Throw
   /\ nameless_header msg = true)
  \/ (exists e, processMessage toLowerCase decode msg = Ok e
                /\ email_id e = or_unknown (id_of msg)
                /\ nameless_header msg = false).
Proof.
  intros Hdecode.
  unfold processMessage, nameless_header, headers_of, id_of.
  destruct msg as [[i t [[hs p]|]]|]; cbn [message_payload payload_headers
    payload_part message_id message_threadId bind].
  - destruct (Hdecode _ _ eq_refl eq_refl) as [s Hs].
    cbn [payload_part] in Hs. rewrite Hs.
    destruct hs as [hs|]; cbn [bind].
    + destruct (add_headers toLowerCase [] hs) as [o|] eqn:E; cbn [bind].
      * right. eexists. split; [reflexivity|]. split; [reflexivity|].
        destruct (existsb nameless hs) eqn:Ex; [|reflexivity].
        apply (add_headers_throws toLowerCase hs []) in Ex. congruence.
      * left. split; [reflexivity|].
        now apply (add_headers_throws toLowerCase hs []).
    + right. eexists. repeat split.
  - right. eexists. repeat split.
  - right. eexists. repeat split.
Qed.

Abbreviation decode_on_stack' :=
  (decodeEmailBody_on_stack base64_utf8 cleanPlainText
     enhancedCleanEmailContent).

Lemma payload_decoded frames msg :
  payload_within frames msg ->
  forall m p, msg = Some m -> message_payload m = Some p ->
              exists s : jsstring,
                decode_on_stack' frames (Some (payload_part p)) = Ok s.
Proof.
  intros H m p -> Hp. unfold payload_within in H. rewrite Hp in H.
  rewrite decodeEmailBody_on_stack_fits by exact H.
  apply decodePart_total.
Qed.

(** [processEmailsToCSV] builds its records with [messages.map].  When
    the payload of every message is nested no deeper than the call
    stack has room for, the map throws exactly when some message has a
    header without a name (a message that is [null], or lacks its
    payload or its headers, does not make it throw), and otherwise
    gives one record per message, in order, with the identifier of the
    message or [unknown]. *)
Theorem processMessages_throws_iff (frames : nat)
        (msgs : list (option Message)) :
  Forall (payload_within frames) msgs ->
  (processMessages toLowerCase (decode_on_stack' frames) msgs = Throw
   <-> existsb nameless_header msgs = true)
  /\ (forall es,
        processMessages toLowerCase (decode_on_stack' frames) msgs = Ok es ->
        map email_id es = map (fun msg => or_unknown (id_of msg)) msgs).
Proof.
  induction 1 as [|msg msgs Hmsg _ [IH1 IH2]];
    cbn [processMessages existsb map].
  - split; [split; discriminate|]. intros es H. injection H as <-.
    reflexivity.
  - destruct (processMessage_cases (decode_on_stack' frames) msg
                (payload_decoded frames msg Hmsg))
      as [[-> ->]|(e & -> & Hid & ->)]; cbn [bind orb].
    + split; [tauto|discriminate].
    + destruct (processMessages toLowerCase (decode_on_stack' frames) msgs)
        as [es'|]; cbn [bind].
      * split.
        -- rewrite <- IH1. split; discriminate.
        -- intros es H. injection H as <-. cbn [map].
           now rewrite Hid, (IH2 es' eq_refl).
      * split; [|discriminate]. rewrite <- IH1. tauto.
Qed.

End MessageFacts.

(** The sample message, and a message without a payload, on a stack with
    room for one call. *)
Lemma processMessages_throws_iff_witness :
  Forall (payload_within 1) [Some sample_message; None]
  /\ existsb nameless_header [Some sample_message; None] = false
  /\ processMessages ascii_toLowerCase
       (decodeEmailBody_on_stack ascii_toLowerCase ascii_toLowerCase
          ascii_toLowerCase 1) [Some sample_message; None] <> Throw.
Proof.
  assert (H : Forall (payload_within 1) [Some sample_message; None]).
  { repeat constructor. }
  split; [exact H|]. split; [reflexivity|].
  intros E.
  apply (processMessages_throws_iff ascii_toLowerCase ascii_toLowerCase
           ascii_toLowerCase ascii_toLowerCase 1 _ H) in E.
  discriminate E.
Defined.

(** ** The first decoder and the first export loop of [src/gmail-auth.js] *)

Section ServerFacts.
Variable toLowerCase : jsstring -> jsstring.
Variable base64_utf8 : jsstring -> jsstring.

Lemma found_data_total found :
  exists r, Server.found_data base64_utf8 found = Ok r.
Proof.
  destruct found as [[m [[[[|c d]|]]|] ps]|]; cbn; eauto.
Qed.

Lemma Server_each_total ps :
  Forall (fun p => exists s, Server.decodePart base64_utf8 p = Ok s) ps ->
  exists s,
    (fix each (l : list MessagePart) : outcome jsstring :=
       match l with
       | [] => Ok []
       | p :: l' =>
           t <- Server.decodePart base64_utf8 p ;;
           ts <- each l' ;; Ok (t ++ ts)
       end) ps = Ok s.
Proof.
  induction 1 as [|p ps [s Hs] _ [ts IH]]; [exists []; reflexivity|].
  exists (s ++ ts). rewrite Hs, IH. reflexivity.
Qed.

Lemma Server_decodePart_total part :
  exists s, Server.decodePart base64_utf8 part = Ok s.
Proof.
  induction part as [m b|m b ps IH] using MessagePart_induction.
  - destruct b as [[[[|c d]|]]|]; cbn; eauto.
  - destruct (Server_each_total ps IH) as [s Hs].
    destruct (found_data_total (find (has_type text_plain) ps)) as [r1 H1].
    destruct (found_data_total (find (has_type text_html) ps)) as [r2 H2].
    assert (Hrest : exists s',
      (plain <- Server.found_data base64_utf8 (find (has_type text_plain) ps) ;;
       match plain with
       | Some s => Ok s
       | None =>
           html <- Server.found_data base64_utf8
                     (find (has_type text_html) ps) ;;
           match html with
           | Some s => Ok s
           | None =>
               (fix each (l : list MessagePart) : outcome jsstring :=
                  match l with
                  | [] => Ok []
                  | p :: l' =>
                      t <- Server.decodePart base64_utf8 p ;;
                      ts <- each l' ;; Ok (t ++ ts)
                  end) ps
           end
       end) = Ok s').
    { rewrite H1. cbn [bind]. destruct r1; [eauto|].
      rewrite H2. cbn [bind]. destruct r2; [eauto|]. eauto. }
    destruct Hrest as [s' Hs'].
    destruct b as [[[[|c d]|]]|]; cbn; eauto.
Qed.

Lemma append_each_decodePart (f : MessagePart -> outcome jsstring) ps :
  (forall p, In p ps -> f p = Server.decodePart base64_utf8 p) ->
  Server.append_each f ps
  = (fix each (l : list MessagePart) : outcome jsstring :=
       match l with
       | [] => Ok []
       | p :: l' =>
           t <- Server.decodePart base64_utf8 p ;;
           ts <- each l' ;; Ok (t ++ ts)
       end) ps.
Proof.
  induction ps as [|p ps IH]; intros H; [reflexivity|].
  cbn [Server.append_each]. rewrite (H p (or_introl eq_refl)), IH;
    [reflexivity|].
  intros q Hq. apply H. now right.
Qed.

Lemma Server_on_stack_fits frames : forall part,
  depth part <= frames ->
  Server.decodeEmailBody_on_stack base64_utf8 frames part
  = Server.decodeEmailBody base64_utf8 part.
Proof.
  induction frames as [|frames IH]; intros part H.
  - destruct part as [p|]; cbn [depth] in H; [|lia].
    pose proof (height_pos p). lia.
  - destruct part as [[m b ps]|]; [|reflexivity].
    cbn [Server.decodeEmailBody_on_stack Server.decodeEmailBody
         Server.decodePart depth parts] in *.
    destruct (body_and_data (mkPart m b ps)) as [d|]; cbn [bind];
      [|reflexivity].
    destruct (truthy d); [reflexivity|].
    destruct ps as [ps|]; [|reflexivity].
    rewrite (append_each_decodePart _ ps); [reflexivity|].
    intros p Hp. rewrite IH; [reflexivity|]. cbn [depth].
    pose proof (height_child m b ps p Hp). lia.
Qed.

Lemma Server_nested_throws frames :
  Server.decodeEmailBody_on_stack base64_utf8 frames (Some (nested frames))
  = Throw.
Proof.
  induction frames as [|frames IH]; [reflexivity|].
  assert (Hty : forall t n, has_type t (nested n) = false).
  { intros t [|n]; reflexivity. }
  cbn [nested Server.decodeEmailBody_on_stack body_and_data body bind truthy
       parts find Server.append_each].
  rewrite !Hty, IH. reflexivity.
Qed.

(** The first [decodeEmailBody] of [src/gmail-auth.js] returns a string
    for every part tree, [null] included, that is nested no deeper than
    the call stack has room for, the string that the recursion over the
    tree computes; nothing bounds the nesting, and a part nested once
    more than the stack has room for makes it throw. *)
Theorem Server_decodeEmailBody_within_stack (frames : nat)
        (part : option MessagePart) :
  depth part <= frames ->
  (exists s : jsstring,
     Server.decodeEmailBody_on_stack base64_utf8 frames part = Ok s)
  /\ Server.decodeEmailBody_on_stack base64_utf8 frames part
     = Server.decodeEmailBody base64_utf8 part
  /\ Server.decodeEmailBody_on_stack base64_utf8 frames
       (Some (nested frames)) = Throw.
Proof.
  intros H. rewrite Server_on_stack_fits by exact H.
  split; [|split; [reflexivity|apply Server_nested_throws]].
  destruct part as [p|]; [apply Server_decodePart_total|].
  exists []. reflexivity.
Qed.

End ServerFacts.

Section ServerDecodeFacts.
Variable toLowerCase : jsstring -> jsstring.
Variable base64_utf8 : jsstring -> jsstring.

Lemma has_data_children m b ps :
  has_data (mkPart m b (Some ps)) = false ->
  truthy (match b with Some b' => data b' | None => None end) = false
  /\ Forall (fun p => has_data p = false) ps.
Proof.
  cbn [has_data]. intros H. apply orb_false_iff in H as [Hb Hps].
  split; [exact Hb|].
  induction ps as [|p ps IH]; constructor.
  - now apply orb_false_iff in Hps as [? _].
  - apply IH. now apply orb_false_iff in Hps as [_ ?].
Qed.

Lemma found_data_none t ps :
  Forall (fun p => has_data p = false) ps ->
  Server.found_data base64_utf8 (find (has_type t) ps) = Ok None.
Proof.
  intros H. destruct (find (has_type t) ps) as [p|] eqn:E; [|reflexivity].
  apply find_some in E as [Hin _]. rewrite Forall_forall in H.
  specialize (H p Hin). destruct p as [m b ps'].
  cbn [has_data] in H. apply orb_false_iff in H as [Hb _].
  destruct b as [[[[|c d]|]]|]; cbn in *; try reflexivity. discriminate.
Qed.

(** A part tree in which no part has body data decodes to the empty
    string with the first [decodeEmailBody] of [src/gmail-auth.js]. *)
Theorem Server_decodeEmailBody_no_data (part : MessagePart) :
  has_data part = false ->
  Server.decodeEmailBody base64_utf8 (Some part) = Ok [].
Proof.
  cbn [Server.decodeEmailBody].
  induction part as [m b|m b ps IH] using MessagePart_induction; intros H.
  - cbn [has_data] in H. rewrite orb_false_r in H.
    destruct b as [[[[|c d]|]]|]; cbn in *; try reflexivity. discriminate.
  - apply has_data_children in H as [Hb Hps].
    assert (Heach :
      (fix each (l : list MessagePart) : outcome jsstring :=
         match l with
         | [] => Ok []
         | p :: l' =>
             t <- Server.decodePart base64_utf8 p ;;
             ts <- each l' ;; Ok (t ++ ts)
         end) ps = Ok []).
    { induction ps as [|p ps IHps]; [reflexivity|].
      inversion IH as [|? ? Hp IH']; subst.
      inversion Hps as [|? ? Hd Hps']; subst.
      rewrite (Hp Hd), (IHps IH' Hps'). reflexivity. }
    pose proof (found_data_none text_plain ps Hps) as H1.
    pose proof (found_data_none text_html ps Hps) as H2.
    destruct b as [[[[|c d]|]]|]; cbn in Hb; try discriminate;
      cbn [Server.decodePart body_and_data body read_data data bind truthy];
      rewrite H1; cbn [bind]; rewrite H2; cbn [bind]; exact Heach.
Qed.

(** A part without children that has body data and a type other than
    [text/plain] and [text/html], an attachment for one, decodes to the
    empty string with the decoder of [src/email-processor.js] and of the
    second half of [src/gmail-auth.js]; the first decoder of
    [src/gmail-auth.js] returns its decoded data, whatever the type. *)
Theorem decodeEmailBody_other_type
        (cleanPlainText enhancedCleanEmailContent : jsstring -> jsstring)
        (m : option jsstring) (d : jsstring) :
  let part := mkPart m (Some (mkBody (Some d))) None in
  has_type text_plain part = false ->
  has_type text_html part = false ->
  d <> [] ->
  decodeEmailBody base64_utf8 cleanPlainText enhancedCleanEmailContent
    (Some part) = Ok []
  /\ Server.decodeEmailBody base64_utf8 (Some part) = Ok (base64_utf8 d).
Proof.
  intros part Hp Hh Hd. split.
  - cbn [decodeEmailBody]. rewrite decodePart_eq. unfold leaf_data.
    rewrite Hp, Hh. reflexivity.
  - destruct d as [|c d]; [congruence|]. reflexivity.
Qed.

(** The loop of the first [processEmailsToCSV] of [src/gmail-auth.js],
    on a message whose payload is nested no deeper than the call stack
    has room for, throws exactly when the message is [null], lacks its
    payload or its headers, or has a header without a name. *)
Theorem message_row_throws_iff (frames : nat) (msg : option Message) :
  payload_within frames msg ->
  Server.message_row toLowerCase
    (Server.decodeEmailBody_on_stack base64_utf8 frames) msg = Throw
  <-> no_headers msg || nameless_header msg = true.
Proof.
  unfold Server.message_row, no_headers, nameless_header, headers_of,
    payload_within.
  destruct msg as [[i t [[[hs|] p]|]]|];
    cbn [message_payload payload_headers payload_part orb];
    try (intros _; split; reflexivity).
  intros Hfit.
  rewrite <- (add_headers_throws toLowerCase hs []).
  destruct (add_headers toLowerCase [] hs) as [o|]; cbn [bind];
    [|split; reflexivity].
  rewrite (Server_on_stack_fits base64_utf8 frames (Some p)) by exact Hfit.
  destruct (Server_decodePart_total base64_utf8 p) as [s Hs].
  cbn [Server.decodeEmailBody]. rewrite Hs. cbn [bind].
  split; discriminate.
Qed.

End ServerDecodeFacts.

(** The tree of two parts without data, on a stack with room for two
    nested calls. *)
Lemma Server_decodeEmailBody_within_stack_witness :
  depth (Some empty_tree) <= 2
  /\ Server.decodeEmailBody_on_stack ascii_toLowerCase 2 (Some empty_tree)
     = Server.decodeEmailBody ascii_toLowerCase (Some empty_tree).
Proof.
  assert (H : depth (Some empty_tree) <= 2) by (vm_compute; lia).
  split; [exact H|].
  apply (Server_decodeEmailBody_within_stack ascii_toLowerCase 2 _ H).
Defined.

(** The sample message on a stack with room for one call. *)
Lemma message_row_throws_iff_witness :
  payload_within 1 (Some sample_message)
  /\ Server.message_row ascii_toLowerCase
       (Server.decodeEmailBody_on_stack ascii_toLowerCase 1)
       (Some sample_message) <> Throw.
Proof.
  assert (H : payload_within 1 (Some sample_message)).
  { vm_compute. lia. }
  split; [exact H|]. intros E.
  apply (message_row_throws_iff ascii_toLowerCase ascii_toLowerCase 1 _ H)
    in E.
  discriminate E.
Defined.

Lemma Server_decodeEmailBody_no_data_witness :
  Server.decodeEmailBody ascii_toLowerCase (Some empty_tree) = Ok [].
Proof.
  apply (Server_decodeEmailBody_no_data ascii_toLowerCase empty_tree).
  vm_compute. reflexivity.
Defined.

Lemma decodeEmailBody_other_type_witness :
  decodeEmailBody ascii_toLowerCase ascii_toLowerCase ascii_toLowerCase
    (Some (attachment (js "JVBERi0="))) = Ok []
  /\ Server.decodeEmailBody ascii_toLowerCase
       (Some (attachment (js "JVBERi0="))) = Ok (js "jvberi0=").
Proof.
  apply (decodeEmailBody_other_type ascii_toLowerCase ascii_toLowerCase
           ascii_toLowerCase (Some (js "application/pdf")) (js "JVBERi0=")).
  - vm_compute. reflexivity.
  - vm_compute. reflexivity.
  - discriminate.
Defined.

(** ** File names *)

Lemma startsWith_app (s pre : jsstring) :
  startsWith s pre = true <-> exists t, s = pre ++ t.
Proof.
  revert s. induction pre as [|p pre IH]; intros s.
  - split; [intros _; now exists s|intros _; destruct s; reflexivity].
  - destruct s as [|c s]; cbn [startsWith].
    + split; [discriminate|]. intros [t E]. discriminate.
    + rewrite andb_true_iff, N.eqb_eq, IH. split.
      * intros [-> [t ->]]. now exists t.
      * intros [t E]. injection E as -> ->. split; [reflexivity|now exists t].
Qed.

Lemma startsWith_self_app (pre t : jsstring) : startsWith (pre ++ t) pre = true.
Proof. apply startsWith_app. now exists t. Qed.

(** A pattern whose first unit occurs nowhere else in it cannot start
    inside [u] and end in the copy of the pattern that follows [u]. *)
Lemma startsWith_before (d : jschar) (rest u : jsstring) :
  ~ In d rest ->
  startsWith (u ++ d :: rest) (d :: rest) = true ->
  u = [] \/ startsWith u (d :: rest) = true.
Proof.
  intros Hd H. destruct u as [|c u]; [now left|right].
  cbn [app startsWith] in *. apply andb_true_iff in H as [Hc H].
  rewrite Hc. cbn [andb]. clear c Hc.
  assert (Hgen : forall pre w v,
             ~ In d pre ->
             startsWith (v ++ d :: w) pre = true -> startsWith v pre = true).
  { induction pre as [|r pre IH]; intros w v Hpre Hv.
    - destruct v; reflexivity.
    - destruct v as [|c v]; cbn [app startsWith] in *.
      + apply andb_true_iff in Hv as [Hv _]. apply N.eqb_eq in Hv.
        exfalso. apply Hpre. now left.
      + apply andb_true_iff in Hv as [Hc Hv]. rewrite Hc. cbn [andb].
        apply (IH w); [|exact Hv]. intros Hin. apply Hpre. now right. }
  exact (Hgen rest rest u Hd H).
Qed.

Lemma replace_first_cons (pat repl : jsstring) c (s : jsstring) :
  replace_first pat repl (c :: s)
  = if startsWith (c :: s) pat
    then repl ++ skipn (length pat) (c :: s)
    else c :: replace_first pat repl s.
Proof. reflexivity. Qed.

Lemma replace_first_suffix (d : jschar) (rest repl u : jsstring) :
  ~ In d rest ->
  includes u (d :: rest) = false ->
  replace_first (d :: rest) repl (u ++ d :: rest) = u ++ repl.
Proof.
  intros Hd. induction u as [|c u IH]; intros Hu.
  - cbn [app]. rewrite replace_first_cons.
    assert (E : startsWith (d :: rest) (d :: rest) = true).
    { apply startsWith_app. exists []. now rewrite app_nil_r. }
    rewrite E, skipn_all. apply app_nil_r.
  - cbn [includes] in Hu. apply orb_false_iff in Hu as [Hs Hu].
    assert (Hno : startsWith ((c :: u) ++ d :: rest) (d :: rest) = false).
    { destruct (startsWith ((c :: u) ++ d :: rest) (d :: rest)) eqn:E;
        [|reflexivity].
      apply (startsWith_before d rest (c :: u) Hd) in E as [E|E];
        [discriminate|congruence]. }
    cbn [app] in *. rewrite replace_first_cons, Hno, (IH Hu). reflexivity.
Qed.

(** The name of a token file gives back the address of its user, when
    the address does not contain [.json] itself, and the file passes the
    filter of the batch export. *)
Theorem token_file_round_trip (userEmail : jsstring) :
  includes userEmail (js ".json") = false ->
  Server.user_of_token_file (Server.token_file_name userEmail) = userEmail
  /\ Server.tokenFiles [Server.token_file_name userEmail]
     = [Server.token_file_name userEmail].
Proof.
  intros H. split.
  - unfold Server.user_of_token_file, Server.token_file_name.
    change (js ".json") with (46%N :: js "json") in *.
    rewrite replace_first_suffix; [apply app_nil_r| |exact H].
    vm_compute. intuition discriminate.
  - unfold Server.tokenFiles, Server.token_file_name, endsWith.
    cbn [filter]. rewrite rev_app_distr, startsWith_self_app. reflexivity.
Qed.

Lemma token_file_round_trip_witness :
  Server.user_of_token_file (js "ann@example.com.json") = js "ann@example.com".
Proof.
  apply (token_file_round_trip (js "ann@example.com")).
  vm_compute. reflexivity.
Defined.

Lemma replace_first_at (repl local rest : jsstring) :
  ~ In 64%N local ->
  replace_first [64%N] repl (local ++ 64%N :: rest) = local ++ repl ++ rest.
Proof.
  induction local as [|c local IH]; intros H.
  - cbn [app]. rewrite replace_first_cons. destruct rest; reflexivity.
  - cbn [app]. rewrite replace_first_cons. cbn [startsWith].
    destruct (c =? 64)%N eqn:E.
    + apply N.eqb_eq in E. exfalso. apply H. now left.
    + cbn [andb]. rewrite IH; [reflexivity|]. intros Hin. apply H. now right.
Qed.

Lemma file_timestamp_map iso : file_timestamp iso = map dash iso.
Proof.
  unfold file_timestamp. rewrite replaceAll_cls. unfold subst_chars, dash.
  induction iso as [|c iso IH]; [reflexivity|].
  cbn [flat_map map]. rewrite IH. destruct (is_colon_or_dot c); reflexivity.
Qed.

(** In the name of an export file only the first [@] of the address is
    replaced by [_at_], and the time stamp is the ISO string with every
    colon and every dot replaced by a hyphen, unit by unit; the thread
    export differs by [_threads_]. *)
Theorem csv_file_name_shape (local rest iso : jsstring) :
  ~ In 64%N local ->
  csv_file_name (local ++ js "@" ++ rest) iso
  = local ++ js "_at_" ++ rest ++ js "_" ++ map dash iso ++ js ".csv"
  /\ threads_file_name (local ++ js "@" ++ rest) iso
     = local ++ js "_at_" ++ rest ++ js "_threads_" ++ map dash iso
       ++ js ".csv".
Proof.
  intros H. unfold csv_file_name, threads_file_name.
  rewrite file_timestamp_map.
  change (js "@" ++ rest) with (64%N :: rest).
  change (js "@") with [64%N].
  rewrite (replace_first_at (js "_at_") local rest H).
  rewrite <- !app_assoc. split; reflexivity.
Qed.

Lemma csv_file_name_shape_witness :
  csv_file_name (js "ann@example.com") (js "2024-01-02T03:04:05.678Z")
  = js "ann_at_example.com_2024-01-02T03-04-05-678Z.csv".
Proof.
  apply (csv_file_name_shape (js "ann") (js "example.com")
           (js "2024-01-02T03:04:05.678Z")).
  vm_compute. intuition discriminate.
Defined.

(** ** What [removeBoilerplate] leaves *)

Lemma shallow_fading q : shallow q -> fading q.
Proof. intros H r i nm at_ cs. now rewrite (H i nm at_ _ cs). Qed.

Lemma footer_class_shallow : shallow footer_class.
Proof. intros i nm at_ cs cs'. reflexivity. Qed.

Lemma footer_link_shallow : shallow footer_link.
Proof. intros i nm at_ cs cs'. reflexivity. Qed.

Lemma shallow_prune p r n : shallow p -> p (prune r n) = p n.
Proof.
  intros Hp. destruct n as [d|d|i nm at_ cs]; [reflexivity|reflexivity|].
  rewrite prune_element. apply Hp.
Qed.

Lemma has_child_fading p : shallow p -> fading (has_child p).
Proof.
  intros Hp r i nm at_ cs. cbn [has_child].
  induction cs as [|c cs IH]; [discriminate|].
  cbn [prune_doc existsb]. destruct (r c).
  - intros H. rewrite (IH H). apply orb_true_r.
  - cbn [existsb]. rewrite (shallow_prune p r c Hp).
    destruct (p c); [reflexivity|exact IH].
Qed.

Lemma parents_select p d : parents p d = select (has_child p) d.
Proof.
  assert (Hn : forall n, parents_in p n = select_in (has_child p) n).
  { induction n as [t|t|i nm at_ cs IH] using node_induction;
      try reflexivity.
    rewrite select_in_element.
    change (parents_in p (Element i nm at_ cs))
      with ((if existsb p cs then [Element i nm at_ cs] else [])
            ++ parents p cs).
    f_equal. unfold parents, select.
    induction IH as [|c cs Hc _ IHcs]; [reflexivity|].
    cbn [flat_map]. now rewrite Hc, IHcs. }
  unfold parents, select. induction d as [|n d IH]; [reflexivity|].
  cbn [flat_map]. now rewrite Hn, IH.
Qed.

Lemma fading_node q i : fading q -> forall n, survives q i n.
Proof.
  intros Hq.
  induction n as [d|d|k nm at_ cs IHcs] using node_induction;
    intros j Hk Hj; try (simpl in Hj; tauto).
  rewrite prune_element, select_in_element in Hj.
  rewrite select_in_element. rewrite ids_app in *.
  apply in_app_or in Hj as [Hj|Hj].
  - destruct (q (Element k nm at_ (prune_doc (has_id i) cs))) eqn:E;
      [|simpl in Hj; tauto].
    apply Hq in E. rewrite E.
    simpl in Hj. destruct Hj as [<-|[]].
    simpl in Hk. apply Nat.eqb_neq in Hk.
    split; [exact Hk|]. apply in_or_app. left. simpl. tauto.
  - destruct (survives_doc q i cs IHcs j Hj) as [? ?].
    split; [assumption|]. apply in_or_app. now right.
Qed.

Lemma fading_remove q i :
  fading q ->
  forall d j,
  In j (ids (select q (remove i d))) -> j <> i /\ In j (ids (select q d)).
Proof.
  intros Hq d. unfold remove. apply survives_doc.
  apply Forall_forall. intros n _. now apply fading_node.
Qed.

Lemma fading_remove_all q :
  fading q ->
  forall sel d j,
  In j (ids (select q (remove_all sel d))) ->
  ~ In j sel /\ In j (ids (select q d)).
Proof.
  intros Hq. unfold remove_all.
  induction sel as [|i sel IH]; intros d j Hj; simpl in *; [tauto|].
  destruct (IH _ _ Hj) as [Hsel Hd].
  destruct (fading_remove q i Hq d j Hd) as [Hne Hin].
  split; [|exact Hin]. intros [->|H]; tauto.
Qed.

Lemma fading_remove_selected q d :
  fading q -> select q (remove_all (ids (select q d)) d) = [].
Proof.
  intros Hq. apply select_ids_nil.
  destruct (ids (select q (remove_all (ids (select q d)) d)))
    as [|j l] eqn:E; [reflexivity|].
  assert (Hj : In j (ids (select q (remove_all (ids (select q d)) d)))).
  { rewrite E. now left. }
  apply (fading_remove_all q Hq) in Hj as [H1 H2]. contradiction.
Qed.

Section BoilerplateFacts.
Variable toLowerCase : jsstring -> jsstring.

Lemma fading_keyword_round q d el :
  fading q ->
  forall j, In j (ids (select q (remove_if_keyword toLowerCase d el))) ->
            In j (ids (select q d)).
Proof.
  intros Hq j. unfold remove_if_keyword.
  destruct el as [t|t|i nm at_ cs]; try tauto.
  destruct (find_node i d) as [e|]; [|tauto].
  destruct (mentions_keyword toLowerCase e); [|tauto].
  intros Hj. now apply (fading_remove q i Hq) in Hj.
Qed.

Lemma fading_keyword_loop q els :
  fading q ->
  forall d j,
  In j (ids (select q (fold_left (remove_if_keyword toLowerCase) els d))) ->
  In j (ids (select q d)).
Proof.
  intros Hq. induction els as [|el els IH]; intros d j Hj; [exact Hj|].
  cbn [fold_left] in Hj. apply IH in Hj.
  now apply (fading_keyword_round q d el Hq).
Qed.

Lemma fading_remove_after_hr q d :
  fading q ->
  forall j, In j (ids (select q (remove_after_hr d))) ->
            In j (ids (select q d)).
Proof.
  intros Hq j Hj. unfold remove_after_hr in Hj.
  apply (fading_remove_all q Hq) in Hj as [_ Hj].
  now apply (fading_remove_all q Hq) in Hj as [_ Hj].
Qed.

Lemma select_nil_after q (d d' : Document) :
  (forall j, In j (ids (select q d')) -> In j (ids (select q d))) ->
  select q d = [] -> select q d' = [].
Proof.
  intros Hsub Hd. apply select_ids_nil.
  destruct (ids (select q d')) as [|j l]; [reflexivity|].
  exfalso. specialize (Hsub j (or_introl eq_refl)).
  rewrite Hd in Hsub. exact Hsub.
Qed.

(** [removeBoilerplate] only detaches elements: every element of the
    document it leaves was in the document it was given.  None of them
    has one of the footer classes, and no link whose [href] contains
    [unsubscribe], [privacy] or [terms] is left with a parent element. *)
Theorem removeBoilerplate_leaves (d : Document) :
  let d' := removeBoilerplate toLowerCase d in
  (forall j, In j (doc_ids d') -> In j (doc_ids d))
  /\ select footer_class d' = []
  /\ parents footer_link d' = [].
Proof.
  intros d'. subst d'. unfold removeBoilerplate, remove_footer_elements.
  set (d1 := remove_all (ids (select footer_class d)) d).
  set (d2 := fold_left (remove_if_keyword toLowerCase)
                       (select is_element d1) d1).
  set (d3 := remove_all (ids (parents footer_link d2)) d2).
  assert (Hsub : forall q, fading q ->
            forall j, In j (ids (select q (remove_after_hr d3))) ->
                      In j (ids (select q d1))).
  { intros q Hq j Hj. apply (fading_remove_after_hr q d3 Hq) in Hj.
    apply (fading_remove_all q Hq) in Hj as [_ Hj].
    now apply (fading_keyword_loop q _ Hq) in Hj. }
  split; [|split].
  - intros j Hj. unfold doc_ids in *.
    apply (Hsub is_element (shallow_fading _ is_element_shallow)) in Hj.
    now apply (fading_remove_all _ (shallow_fading _ is_element_shallow))
      in Hj as [_ Hj].
  - apply (select_nil_after footer_class d1).
    + apply Hsub, shallow_fading, footer_class_shallow.
    + apply fading_remove_selected, shallow_fading, footer_class_shallow.
  - rewrite parents_select.
    apply (select_nil_after (has_child footer_link) d3).
    + apply fading_remove_after_hr, has_child_fading, footer_link_shallow.
    + subst d3. rewrite parents_select.
      apply fading_remove_selected, has_child_fading, footer_link_shallow.
Qed.

Lemma remove_all_nil sel : remove_all sel [] = [].
Proof. induction sel as [|i sel IH]; [reflexivity|exact IH]. Qed.

Lemma keyword_loop_nil els :
  fold_left (remove_if_keyword toLowerCase) els [] = [].
Proof.
  induction els as [|el els IH]; [reflexivity|].
  cbn [fold_left]. destruct el; exact IH.
Qed.

(** [cheerio.load] puts the whole markup under one root element.  When
    the text of that root mentions one of the keywords of the
    [$('*').each] loop, anywhere, and no element has a footer class, the
    loop detaches the root on its first round: [removeBoilerplate]
    leaves the empty document, and the pipeline goes on with what the
    libraries make of it. *)
Theorem removeBoilerplate_keyword_anywhere
        (i : nat) (nm : jsstring) (at_ : list (jsstring * jsstring))
        (cs : list node) :
  let root := Element i nm at_ cs in
  select footer_class [root] = [] ->
  mentions_keyword toLowerCase root = true ->
  removeBoilerplate toLowerCase [root] = []
  /\ forall cheerio_load cheerio_html convert html,
       cheerio_load (removeScriptAndStyle html) = [root] ->
       flatten_html toLowerCase cheerio_load cheerio_html convert html
       = decodeHTMLEntities (convert (cheerio_html [])).
Proof.
  intros root Hclass Hkw.
  assert (H : removeBoilerplate toLowerCase [root] = []).
  { unfold removeBoilerplate, remove_footer_elements. rewrite Hclass.
    cbn [ids flat_map remove_all fold_left].
    assert (Hsel : select is_element [root] = root :: select is_element cs).
    { unfold select at 1. cbn [flat_map]. rewrite app_nil_r.
      apply select_in_element. }
    rewrite Hsel. cbn [fold_left].
    assert (Hfirst : remove_if_keyword toLowerCase [root] root = []).
    { unfold remove_if_keyword, root, find_node, select. cbn [flat_map].
      rewrite select_in_element. cbn [has_id]. rewrite Nat.eqb_refl.
      cbn [app hd_error]. fold root. rewrite Hkw.
      unfold remove, root. cbn [prune_doc has_id].
      now rewrite Nat.eqb_refl. }
    rewrite Hfirst, keyword_loop_nil.
    unfold remove_after_hr. now rewrite !remove_all_nil. }
  split; [exact H|].
  intros cheerio_load cheerio_html convert html Hload.
  unfold flatten_html, convertHTMLToText. now rewrite Hload, H.
Qed.

End BoilerplateFacts.

Lemma removeBoilerplate_keyword_anywhere_witness :
  removeBoilerplate ascii_toLowerCase separator_doc = [].
Proof.
  apply (removeBoilerplate_keyword_anywhere ascii_toLowerCase 0 (js "html") []
           [Element 1 (js "head") [] [];
            Element 2 (js "body") []
              [el 3 "p" [txt "Hello"]; el 4 "hr" [];
               el 5 "p" [txt "Unsubscribe here"]]]).
  - vm_compute. reflexivity.
  - vm_compute. reflexivity.
Defined.
